(** * NLP engine: a shallow embedding of the language-understanding service

    The development follows the Python sources of the NLP engine:

    - [config/settings.py]            ([Module Settings])
    - [utils/text_preprocessor.py]    ([Module TextPreprocessor])
    - [models/intent_classifier.py]   ([Module IntentClassifier])
    - [models/entity_extractor.py]    ([Module EntityExtractor])
    - [services/language_processor.py] ([Module LanguageProcessor])

    Conventions of the embedding.

    - Python [float]s are exact rationals ([Qc]); integers are [nat] or [Z].
    - A Python call that may raise returns [Result A = Exception + A].
    - Dictionaries with a fixed set of keys are records; a key that the code
      reads with [.get(key, default)] or that may be absent is an [option]
      field.
    - Mutable objects are passed explicitly: the classifier's result cache, the
      orchestrator's metrics and the trace of collaborator calls.
    - The trained models, the tokenizer, Python's [hash] and the expiry policy
      of the time-to-live cache are external to the repository; they are the
      fields of the class [Runtime]. *)

From Stdlib Require Import QArith Qcanon.
From stdpp Require Import base numbers list strings gmap pretty.

(** ** Python prelude *)

Module Py.

Inductive Exception : Type :=
| ValueError (msg : string)
| RuntimeError (msg : string)
| KeyError (key : string)
| IndexError (msg : string).

(** [str(e)]: the message, a [KeyError] prints the quoted key. *)
Definition str (e : Exception) : string :=
  match e with
  | ValueError msg => msg
  | RuntimeError msg => msg
  | KeyError key => "'" +:+ key +:+ "'"
  | IndexError msg => msg
  end.

Definition is_ValueError (e : Exception) : bool :=
  match e with ValueError _ => true | _ => false end.

Definition is_RuntimeError (e : Exception) : bool :=
  match e with RuntimeError _ => true | _ => false end.

Definition Result (A : Type) : Type := (Exception + A)%type.

Definition raise {A} (e : Exception) : Result A := inl e.

#[global] Instance result_ret : MRet Result := λ A x, inr x.

#[global] Instance result_bind : MBind Result := λ A B f m,
  match m with
  | inl e => inl e
  | inr x => f x
  end.

Definition is_ok {A} (r : Result A) : bool :=
  match r with inr _ => true | inl _ => false end.

(** [try: body  except Exception as e: raise wrap from e] *)
Definition try_except {A} (body : Result A) (handler : Exception → Exception)
  : Result A :=
  match body with
  | inl e => inl (handler e)
  | inr x => inr x
  end.

(** [s[i:j]] for non-negative [i], [j]: truncated at the end of [s]. *)
Definition slice (s : string) (i j : nat) : string :=
  String.substring i (j - i) s.

(** [l[i]], raising [IndexError] out of range. *)
Definition getitem {A} (l : list A) (i : nat) : Result A :=
  match l !! i with
  | Some x => mret x
  | None => raise (IndexError "list index out of range")
  end.

(** [sum(l)] on numbers. *)
Definition py_sum (l : list Qc) : Qc := foldr Qcplus 0%Qc l.

Definition of_nat (n : nat) : Qc := Qc_of_Z (Z.of_nat n).

(** The maximum of a row of numbers with the index of its first
    occurrence ([torch.max(row, dim=-1)], [np.max] with [np.argmax]);
    there is none on an empty row. *)
Fixpoint max_from (best : Qc) (best_idx idx : nat) (l : list Qc) : Qc * nat :=
  match l with
  | [] => (best, best_idx)
  | p :: l' =>
      if decide (best < p)%Qc then max_from p idx (S idx) l'
      else max_from best best_idx (S idx) l'
  end.

Definition max_with_index (l : list Qc) : option (Qc * nat) :=
  match l with
  | [] => None
  | p :: l' => Some (max_from p 0 1 l')
  end.

(** [for i in range(0, len(l), n): l[i:i + n]], for a positive step. *)
Fixpoint chunks_fuel {A} (fuel n : nat) (l : list A) : list (list A) :=
  match fuel, l with
  | _, [] => []
  | 0, _ :: _ => []
  | S fuel', _ :: _ => take n l :: chunks_fuel fuel' n (drop n l)
  end.

Definition chunks {A} (n : nat) (l : list A) : list (list A) :=
  chunks_fuel (length l) n l.

(** The first array of [arrays], counted from [idx], whose width differs
    from [width]: its index and its width. *)
Fixpoint first_mismatch {A} (width idx : nat) (arrays : list (list A))
  : option (nat * nat) :=
  match arrays with
  | [] => None
  | a :: arrays' =>
      if decide (length a = width) then first_mismatch width (S idx) arrays'
      else Some (idx, length a)
  end.

(** [np.vstack] on arrays of one row each: the rows are stacked when
    they all have the width of the first, and [ValueError] is raised at
    the first one that has not. *)
Definition vstack {A} (arrays : list (list A)) : Result (list (list A)) :=
  match arrays with
  | [] => raise (ValueError "need at least one array to concatenate")
  | first :: rest =>
      match first_mismatch (length first) 1 rest with
      | Some (idx, width) =>
          raise (ValueError
                   ("all the input array dimensions except for the "
                    +:+ "concatenation axis must match exactly, but along "
                    +:+ "dimension 1, the array at index 0 has size "
                    +:+ pretty (length first)
                    +:+ " and the array at index " +:+ pretty idx
                    +:+ " has size " +:+ pretty width))
      | None => mret arrays
      end
  end.

End Py.
Import Py.

(** ** [config/settings.py] *)

Module Settings.

Definition DEFAULT_MAX_SEQUENCE_LENGTH : nat := 512.
Definition DEFAULT_BATCH_SIZE : nat := 32.
Definition DEFAULT_CONFIDENCE_THRESHOLD : Qc := Q2Qc (95 # 100).

(** The values of [NLPConfig] that the engine reads. *)
Record NLPConfig : Type := {
  MAX_SEQUENCE_LENGTH : nat;
  BATCH_SIZE : nat;
  CONFIDENCE_THRESHOLD : Qc
}.

Definition default_config : NLPConfig := {|
  MAX_SEQUENCE_LENGTH := DEFAULT_MAX_SEQUENCE_LENGTH;
  BATCH_SIZE := DEFAULT_BATCH_SIZE;
  CONFIDENCE_THRESHOLD := DEFAULT_CONFIDENCE_THRESHOLD
|}.

(** The numeric checks of [validate_configuration]. *)
Definition validate_configuration (c : NLPConfig) : bool :=
  bool_decide (0 < MAX_SEQUENCE_LENGTH c ≤ 2048)
  && bool_decide (0 < BATCH_SIZE c ≤ 128)
  && bool_decide (0 < CONFIDENCE_THRESHOLD c)%Qc
  && bool_decide (CONFIDENCE_THRESHOLD c ≤ 1)%Qc.

End Settings.
Import Settings.

(** ** Data model *)

(** One row of the tokenizer's output. *)
Record Tokens : Type := {
  input_ids : list Z;
  attention_mask : list Z
}.

(** The dictionary returned by [TextPreprocessor.transform]. *)
Record Processed : Type := {
  tokens : Tokens;
  original_length : nat;
  processed_length : nat
}.

(** The dictionary returned by [TextPreprocessor.batch_transform]: the rows
    stacked by [np.vstack]. *)
Record ProcessedBatch : Type := {
  rows : list Tokens;
  batch_size : nat
}.

(** The intent dictionary [{'intent', 'confidence', 'status'}]. *)
Record IntentResult : Type := {
  intent : option string;
  confidence : option Qc;
  status : option string
}.

(** The entity dictionary [{'type', 'confidence', 'position', 'text'}]. *)
Record Entity : Type := {
  e_type : option string;
  e_confidence : option Qc;
  e_position : nat;
  e_text : string
}.

#[global] Instance IntentResult_eq_dec : EqDecision IntentResult.
Proof. solve_decision. Defined.

#[global] Instance Entity_eq_dec : EqDecision Entity.
Proof. solve_decision. Defined.

(** ** The external collaborators

    What the repository imports and does not define: the regular-expression
    engine behind [clean_text], the Hugging Face tokenizer, the two trained
    models (their output already passed through softmax, one row at a time:
    inference has no interaction between the rows of a batch), Python's
    [hash] on strings, and the eviction policy of [cachetools.TTLCache]
    (entries leave the cache when their time-to-live has passed or the
    capacity is reached; nothing else is known about which). *)

Class Runtime : Type := {
  config : NLPConfig;
  clean_text : string → string;
  tokenizer : string → option Tokens;
  intent_model : Tokens → Result (list Qc);
  entity_model : Tokens → Result (list (list Qc));
  hash : string → Z;
  expire : gmap Z IntentResult → gmap Z IntentResult;
  expire_subseteq : ∀ cache, expire cache ⊆ cache
}.

(** ** [utils/text_preprocessor.py] *)

Module TextPreprocessor.

Definition MAX_RETRIES : nat := 3.
Definition BATCH_SIZE : nat := 32.

Section preprocessor.
Context `{Runtime}.

(** The retry loop of [tokenize_text]; the tokenizer is a function of
    the cleaned text, so every attempt has the same outcome. *)
Fixpoint tokenize_attempts (attempts : nat) (cleaned_text : string)
  : Result Tokens :=
  match attempts with
  | 0 => raise (RuntimeError "Tokenization failed after max retries")
  | S attempts' =>
      match tokenizer cleaned_text with
      | Some result => mret result
      | None => tokenize_attempts attempts' cleaned_text
      end
  end.

(** [tokenize_text]; its memo table keyed by [hash(text)] is not
    modelled, tokenization being a function of the text. *)
Definition tokenize_text (text : string) : Result Tokens :=
  let cleaned_text := clean_text text in
  tokenize_attempts MAX_RETRIES cleaned_text.

Definition transform (text : string) : Result Processed :=
  if decide (text = "") then raise (ValueError "Invalid input text")
  else
    tokenized ← tokenize_text text;
    mret {| tokens := tokenized;
            original_length := String.length text;
            processed_length := length (input_ids tokenized) |}.

Definition batch_transform (texts : list string) : Result ProcessedBatch :=
  match texts with
  | [] => raise (ValueError "Invalid input batch")
  | _ :: _ =>
      batches ← mapM (mapM transform) (chunks BATCH_SIZE texts);
      let results := concat batches in
      stacked_ids ← vstack ((λ r, input_ids (tokens r)) <$> results);
      stacked_mask ← vstack ((λ r, attention_mask (tokens r)) <$> results);
      mret {| rows := zip_with Build_Tokens stacked_ids stacked_mask;
              batch_size := length texts |}
  end.

End preprocessor.

End TextPreprocessor.

(** ** [models/intent_classifier.py] *)

Module IntentClassifier.
Import TextPreprocessor.

Definition INTENT_LABELS : list string :=
  ["create_agent"; "modify_agent"; "delete_agent";
   "query_status"; "configure_integration"; "help"].

Definition BATCH_SIZE : nat := 32.

Section classifier.
Context `{Runtime}.

Definition confidence_threshold : Qc := CONFIDENCE_THRESHOLD config.

(** [torch.max(probs, dim=-1)] on one row. *)
Definition torch_max (probs : list Qc) : Result (Qc * nat) :=
  match max_with_index probs with
  | Some r => mret r
  | None => raise (IndexError "max(): cannot reduce over an empty dimension")
  end.

(** The body of the [try] block of [classify_intent], up to the result
    dictionary. *)
Definition infer (text : string) : Result IntentResult :=
  processed ← transform text;
  probs ← intent_model (tokens processed);
  '(confidence, pred_idx) ← torch_max probs;
  predicted_intent ← getitem INTENT_LABELS pred_idx;
  if decide (confidence < confidence_threshold)%Qc then
    mret {| intent := Some "unknown";
            confidence := Some confidence;
            status := Some "low_confidence" |}
  else
    mret {| intent := Some predicted_intent;
            confidence := Some confidence;
            status := Some "success" |}.

Definition classify_intent (cache : gmap Z IntentResult) (text : string)
  : gmap Z IntentResult * Result IntentResult :=
  let cache := expire cache in
  let cache_key := hash text in
  match cache !! cache_key with
  | Some cached => (cache, mret cached)
  | None =>
      match infer text with
      | inr result => (<[cache_key := result]> cache, mret result)
      | inl e => (cache, raise (RuntimeError "Intent classification failed"))
      end
  end.

(** The loop of [classify_batch] over
    [zip(confidences, pred_indices, batch_texts)]. *)
Fixpoint format_results (cache : gmap Z IntentResult)
    (items : list ((Qc * nat) * string))
  : gmap Z IntentResult * Result (list IntentResult) :=
  match items with
  | [] => (cache, mret [])
  | ((confidence, pred_idx), text) :: items' =>
      match getitem INTENT_LABELS pred_idx with
      | inl e => (cache, raise e)
      | inr predicted_intent =>
          let result :=
            {| intent :=
                 Some (if decide (confidence_threshold ≤ confidence)%Qc
                       then predicted_intent else "unknown");
               confidence := Some confidence;
               status :=
                 Some (if decide (confidence_threshold ≤ confidence)%Qc
                       then "success" else "low_confidence") |} in
          let cache := <[hash text := result]> (expire cache) in
          let '(cache, rest) := format_results cache items' in
          (cache, batch_results ← rest; mret (result :: batch_results))
      end
  end.

(** One iteration of the loop over sub-batches. *)
Definition classify_sub_batch (cache : gmap Z IntentResult)
    (batch_texts : list string)
  : gmap Z IntentResult * Result (list IntentResult) :=
  match processed_batch ← batch_transform batch_texts;
        probs ← mapM intent_model (rows processed_batch);
        mapM torch_max probs with
  | inl e => (cache, raise e)
  | inr maxima => format_results cache (zip maxima batch_texts)
  end.

Fixpoint classify_sub_batches (cache : gmap Z IntentResult)
    (batches : list (list string))
  : gmap Z IntentResult * Result (list IntentResult) :=
  match batches with
  | [] => (cache, mret [])
  | batch_texts :: batches' =>
      match classify_sub_batch cache batch_texts with
      | (cache, inl e) => (cache, raise e)
      | (cache, inr batch_results) =>
          let '(cache, rest) := classify_sub_batches cache batches' in
          (cache, results ← rest; mret (batch_results ++ results))
      end
  end.

Definition classify_batch (cache : gmap Z IntentResult) (texts : list string)
  : gmap Z IntentResult * Result (list IntentResult) :=
  match texts with
  | [] => (cache, mret [])
  | _ :: _ =>
      let '(cache, results) :=
        classify_sub_batches cache (chunks BATCH_SIZE texts) in
      (cache,
       try_except results (λ _, RuntimeError "Batch classification failed"))
  end.

End classifier.

End IntentClassifier.

(** ** [models/entity_extractor.py]

    The extractor's own counters ([processed_texts],
    [successful_extractions]) and the module-level model cache used while
    loading are left out: no result of an extraction depends on them. *)

Module EntityExtractor.
Import TextPreprocessor.

(** [list(ENTITY_TYPES.keys())], in insertion order. *)
Definition ENTITY_TYPES : list string :=
  ["AGENT_NAME"; "INTEGRATION_TYPE"; "PARAMETER";
   "SCHEDULE"; "ACTION"; "CONDITION"].

Definition MAX_BATCH_SIZE : nat := 32.

Section extractor.
Context `{Runtime}.

Definition _confidence_threshold : Qc := CONFIDENCE_THRESHOLD config.
Definition _batch_size : nat := Settings.BATCH_SIZE config `min` MAX_BATCH_SIZE.

(** [np.max(probs)] with [np.argmax(probs)]. *)
Definition np_max (probs : list Qc) : Result (Qc * nat) :=
  match max_with_index probs with
  | Some r => mret r
  | None => raise (ValueError "zero-size array to reduction operation")
  end.

(** The entity built for a token that passes the threshold. *)
Definition make_entity (text : string) (idx : nat) (max_prob : Qc)
    (entity_type : nat) : Result Entity :=
  type ← getitem ENTITY_TYPES entity_type;
  mret {| e_type := Some type;
          e_confidence := Some max_prob;
          e_position := idx;
          e_text := slice text idx (idx + 1) |}.

(** The loop of [extract_entities] over
    [enumerate(zip(probabilities[0], attention_mask[0]))], from
    position [idx] on. *)
Fixpoint scan_tokens (text : string) (idx : nat) (items : list (list Qc * Z))
  : Result (list Entity) :=
  match items with
  | [] => mret []
  | (probs, mask) :: items' =>
      if decide (mask = 0%Z) then scan_tokens text (S idx) items'
      else
        '(max_prob, entity_type) ← np_max probs;
        if decide (_confidence_threshold ≤ max_prob)%Qc then
          entity ← make_entity text idx max_prob entity_type;
          entities ← scan_tokens text (S idx) items';
          mret (entity :: entities)
        else scan_tokens text (S idx) items'
  end.

Definition extract_entities (text : string) : Result (list Entity) :=
  if decide (text = "") then raise (ValueError "Invalid input text")
  else
    try_except
      (processed ← transform text;
       probabilities ← entity_model (tokens processed);
       scan_tokens text 0
         (zip probabilities (attention_mask (tokens processed))))
      (λ _, RuntimeError "Entity extraction failed").

(** The inner loop of [extract_batch] over
    [enumerate(batch_probabilities[idx])]; the mask is read by index. *)
Fixpoint scan_batch_tokens (text : string) (mask_row : list Z)
    (token_idx : nat) (token_probs : list (list Qc))
  : Result (list Entity) :=
  match token_probs with
  | [] => mret []
  | probs :: token_probs' =>
      mask ← getitem mask_row token_idx;
      if decide (mask = 0%Z)
      then scan_batch_tokens text mask_row (S token_idx) token_probs'
      else
        '(max_prob, entity_type) ← np_max probs;
        if decide (_confidence_threshold ≤ max_prob)%Qc then
          entity ← make_entity text token_idx max_prob entity_type;
          text_entities ←
            scan_batch_tokens text mask_row (S token_idx) token_probs';
          mret (entity :: text_entities)
        else scan_batch_tokens text mask_row (S token_idx) token_probs'
  end.

(** The loop over [enumerate(batch)], from row [idx] on. *)
Fixpoint extract_rows (processed_batch : ProcessedBatch)
    (batch_probabilities : list (list (list Qc)))
    (idx : nat) (batch : list string) : Result (list (list Entity)) :=
  match batch with
  | [] => mret []
  | text :: batch' =>
      token_probs ← getitem batch_probabilities idx;
      row ← getitem (rows processed_batch) idx;
      text_entities ←
        scan_batch_tokens text (attention_mask row) 0 token_probs;
      batch_entities ←
        extract_rows processed_batch batch_probabilities (S idx) batch';
      mret (text_entities :: batch_entities)
  end.

(** One iteration of the loop over sub-batches. *)
Definition extract_sub_batch (batch : list string)
  : Result (list (list Entity)) :=
  processed_batch ← batch_transform batch;
  batch_probabilities ← mapM entity_model (rows processed_batch);
  extract_rows processed_batch batch_probabilities 0 batch.

Definition extract_batch (texts : list string)
  : Result (list (list Entity)) :=
  match texts with
  | [] => raise (ValueError "Invalid input batch")
  | _ :: _ =>
      try_except
        (if decide (_batch_size = 0)
         then raise (ValueError "range() arg 3 must not be zero")
         else
           results ← mapM extract_sub_batch (chunks _batch_size texts);
           mret (concat results))
        (λ _, RuntimeError "Batch extraction failed")
  end.

End extractor.

End EntityExtractor.

(** ** [services/language_processor.py] *)

Module LanguageProcessor.
Import TextPreprocessor IntentClassifier EntityExtractor.

(** [self._performance_metrics] *)
Record Metrics : Type := {
  total_requests : nat;
  successful_requests : nat;
  failed_requests : nat;
  average_latency : Qc;
  last_error : option string
}.

(** A call into one of the three collaborators, as a call-counting test
    double would record it. *)
Inductive Call : Type :=
| CallTransform (text : string)
| CallClassifyIntent (text : string)
| CallExtractEntities (text : string).

(** The mutable state reachable from a [LanguageProcessor]: the result
    cache of its classifier, its metrics, and the trace of the calls it
    has made into its collaborators. *)
Record Processor : Type := {
  classifier_cache : gmap Z IntentResult;
  _performance_metrics : Metrics;
  trace : list Call
}.

Record IntentSummary : Type := {
  name : string;
  intent_confidence : Qc
}.

Record ValidationDetails : Type := {
  intent_valid : bool;
  entities_valid : bool;
  missing_entities : list string
}.

(** The dictionary returned by [_validate_results]. *)
Record ValidatedResult : Type := {
  v_intent : IntentSummary;
  entities : list Entity;
  overall_confidence : Qc;
  validation_details : ValidationDetails
}.

(** The dictionary returned by [process_text]; the request id is kept as
    the timestamp it is printed from. *)
Record ProcessResult : Type := {
  request_id : Qc;
  processing_time : Qc;
  r_status : string;
  validated : ValidatedResult
}.

(** An element of the list returned by [process_batch]. *)
Inductive BatchItem : Type :=
| ItemResult (result : ProcessResult)
| ItemError (error : string) (original_text : string).

Definition item_status (item : BatchItem) : string :=
  match item with
  | ItemResult result => r_status result
  | ItemError _ _ => "error"
  end.

(** [__init__]: the metrics dictionary. *)
Definition initial_metrics : Metrics := {|
  total_requests := 0;
  successful_requests := 0;
  failed_requests := 0;
  average_latency := 0%Qc;
  last_error := None
|}.

Definition init : Processor := {|
  classifier_cache := ∅;
  _performance_metrics := initial_metrics;
  trace := []
|}.

(** The table inside [_validate_results]. *)
Definition required_entities : gmap string (list string) :=
  {[ "create_agent" := ["AGENT_NAME"; "INTEGRATION_TYPE"];
     "modify_agent" := ["AGENT_NAME"];
     "delete_agent" := ["AGENT_NAME"];
     "configure_integration" := ["INTEGRATION_TYPE"] ]}.

(** [e['type']] *)
Definition type_of (e : Entity) : Result string :=
  match e_type e with
  | Some type => mret type
  | None => raise (KeyError "type")
  end.

Definition _update_metrics (metrics : Metrics) (success : bool)
    (processing_time : Qc) (error : option string) : Metrics :=
  let total := S (total_requests metrics) in
  let current_avg := average_latency metrics in
  {| total_requests := total;
     successful_requests :=
       if success then S (successful_requests metrics)
       else successful_requests metrics;
     failed_requests :=
       if success then failed_requests metrics
       else S (failed_requests metrics);
     average_latency :=
       ((current_avg * (of_nat total - 1) + processing_time) / of_nat total)%Qc;
     last_error := if success then last_error metrics else error |}.

Section processor.
Context `{Runtime}.

Definition _confidence_threshold : Qc := CONFIDENCE_THRESHOLD config.
Definition _batch_size_limit : nat := Settings.BATCH_SIZE config.

(** [sum(entity_confidences) / len(entity_confidences)
     if entity_confidences else 0] *)
Definition avg_confidence (entity_confidences : list Qc) : Qc :=
  match entity_confidences with
  | [] => 0%Qc
  | _ :: _ =>
      (py_sum entity_confidences / of_nat (length entity_confidences))%Qc
  end.

(** The body of the [try] block of [_validate_results]. The order of
    [list(missing_types)] is that of Python's set iteration, which is
    unspecified; [elements] fixes one. *)
Definition validate_body (intent_result : IntentResult)
    (entities_result : list Entity) : Result ValidatedResult :=
  let intent_confidence := default 0%Qc (confidence intent_result) in
  let entity_confidences :=
    (λ e, default 0%Qc (e_confidence e)) <$> entities_result in
  let avg_entity_confidence := avg_confidence entity_confidences in
  let intent := default "unknown" (intent intent_result) in
  missing ←
    match required_entities !! intent with
    | Some required =>
        found ← mapM type_of entities_result;
        let found_types : gset string := list_to_set found in
        let missing_types : gset string := list_to_set required ∖ found_types in
        mret (elements missing_types)
    | None => mret []
    end;
  let overall_confidence :=
    ((intent_confidence + avg_entity_confidence) / 2)%Qc in
  mret {| v_intent := {| name := intent;
                         intent_confidence := intent_confidence |};
          entities := entities_result;
          overall_confidence := overall_confidence;
          validation_details :=
            {| intent_valid :=
                 bool_decide (_confidence_threshold ≤ intent_confidence)%Qc;
               entities_valid :=
                 bool_decide (_confidence_threshold ≤ avg_entity_confidence)%Qc;
               missing_entities := missing |} |}.

Definition _validate_results (intent_result : IntentResult)
    (entities_result : list Entity) : Result ValidatedResult :=
  try_except (validate_body intent_result entities_result)
    (λ e, ValueError ("Result validation failed: " +:+ str e)).

Definition record_calls (st : Processor) (cs : list Call) : Processor :=
  {| classifier_cache := classifier_cache st;
     _performance_metrics := _performance_metrics st;
     trace := trace st ++ cs |}.

(** The [async with self._semaphore] block: both inference calls run to
    completion on their own objects, [gather(return_exceptions=True)]
    collects the two outcomes, and the first exception among
    [[intent_result, entities_result]] is raised. The semaphore bounds how
    many requests are inside the block at once and has no part in the
    outcome of a request. *)
Definition dispatch (st : Processor) (text : string)
  : Processor * Result (IntentResult * list Entity) :=
  let '(cache, intent_result) := classify_intent (classifier_cache st) text in
  let entities_result := extract_entities text in
  let st :=
    {| classifier_cache := cache;
       _performance_metrics := _performance_metrics st;
       trace := trace st ++ [CallClassifyIntent text; CallExtractEntities text] |} in
  (st,
   match intent_result, entities_result with
   | inl e, _ => raise e
   | inr _, inl e => raise e
   | inr intent_result, inr entities_result =>
       mret (intent_result, entities_result)
   end).

(** The body of the [try] block of [process_text], up to the validated
    result. *)
Definition process_text_body (st : Processor) (text : string)
  : Processor * Result ValidatedResult :=
  if decide (text = "") then (st, raise (ValueError "Invalid input text"))
  else if decide (MAX_SEQUENCE_LENGTH config < String.length text)
  then (st, raise (ValueError "Input text exceeds maximum length"))
  else
    let st := record_calls st [CallTransform text] in
    match transform text with
    | inl e => (st, raise e)
    | inr processed_text =>
        let '(st, gathered) := dispatch st text in
        (st,
         '(intent_result, entities_result) ← gathered;
         _validate_results intent_result entities_result)
    end.

Definition set_metrics (st : Processor) (metrics : Metrics) : Processor :=
  {| classifier_cache := classifier_cache st;
     _performance_metrics := metrics;
     trace := trace st |}.

(** [process_text]; [start_time] and [end_time] are the two readings of
    [datetime.now()]. *)
Definition process_text (st : Processor) (start_time end_time : Qc)
    (text : string) : Processor * Result ProcessResult :=
  let request_id := start_time in
  match process_text_body st text with
  | (st, inr validated_result) =>
      let processing_time := (end_time - start_time)%Qc in
      (set_metrics st
         (_update_metrics (_performance_metrics st) true processing_time None),
       mret {| request_id := request_id;
               processing_time := processing_time;
               r_status := "success";
               validated := validated_result |})
  | (st, inl e) =>
      (set_metrics st
         (_update_metrics (_performance_metrics st) false 0%Qc (Some (str e))),
       raise e)
  end.

(** The tasks of a batch, run one after the other in the order [order]
    of their indices; the outcome of task [idx] is stored under [idx].
    The clock readings of task [idx] are [stamps idx]. A task is taken
    as one step: the interleaving of the event loop is abstracted to the
    order in which the requests take effect on the shared state. *)
Definition run_task (stamps : nat → Qc * Qc) (texts : list string)
    (acc : Processor * gmap nat (Result ProcessResult)) (idx : nat)
  : Processor * gmap nat (Result ProcessResult) :=
  match texts !! idx with
  | Some text =>
      let '(st, outcome) :=
        process_text acc.1 (stamps idx).1 (stamps idx).2 text in
      (st, <[idx := outcome]> acc.2)
  | None => acc
  end.

Definition run_tasks (stamps : nat → Qc * Qc) (texts : list string)
    (order : list nat) (st : Processor)
  : Processor * gmap nat (Result ProcessResult) :=
  foldl (run_task stamps texts) (st, ∅) order.

(** [asyncio.gather] with [return_exceptions=True]: the outcomes in
    the order of the tasks, available once every task has completed. *)
Definition gather (outcomes : gmap nat (Result ProcessResult)) (n : nat)
  : option (list (Result ProcessResult)) :=
  mapM (λ idx, outcomes !! idx) (seq 0 n).

(** The loop over [enumerate(results)], from index [idx] on. *)
Fixpoint collect_results (texts : list string) (idx : nat)
    (results : list (Result ProcessResult)) : Result (list BatchItem) :=
  match results with
  | [] => mret []
  | result :: results' =>
      item ←
        match result with
        | inl e =>
            original_text ← getitem texts idx;
            mret (ItemError (str e) original_text)
        | inr r => mret (ItemResult r)
        end;
      processed_results ← collect_results texts (S idx) results';
      mret (item :: processed_results)
  end.

(** [len([r for r in processed_results if r['status'] == 'success'])
     / len(texts)] *)
Definition success_rate (processed_results : list BatchItem)
    (texts : list string) : Qc :=
  (of_nat (length (filter (λ r, item_status r = "success") processed_results))
   / of_nat (length texts))%Qc.

(** [process_batch]; [None] when some task of the batch never runs, so
    that the [await] of [gather] does not return. *)
Definition process_batch (st : Processor) (stamps : nat → Qc * Qc)
    (order : list nat) (texts : list string)
  : option (Processor * Result (list BatchItem)) :=
  let handler e := RuntimeError ("Batch processing failed: " +:+ str e) in
  if decide (texts = [] ∨ _batch_size_limit < length texts) then
    Some (st,
          raise (handler
            (ValueError ("Invalid batch size. Limit: "
                         +:+ pretty _batch_size_limit))))
  else
    let '(st, outcomes) := run_tasks stamps texts order st in
    results ← gather outcomes (length texts);
    Some (st, try_except (collect_results texts 0 results) handler).

End processor.

End LanguageProcessor.

(** ** A test double for the collaborators

    A small deterministic runtime on which the engine can be run on concrete
    requests: one token per character, an intent model that answers
    [create_agent] with confidence 0.97 on texts starting with the letter c,
    fails on texts starting with x and is unsure otherwise, and an entity model
    that tags the letter a as an agent name and z as an integration type and
    fails on an exclamation mark. *)

Module TestDouble.

Definition char_ids (text : string) : list Z :=
  (λ c, Z.of_nat (Ascii.nat_of_ascii c)) <$> String.list_ascii_of_string text.

Definition char_tokenizer (text : string) : option Tokens :=
  Some {| input_ids := char_ids text; attention_mask := (λ _, 1%Z) <$> char_ids text |}.

Definition one_hot (n : nat) (top : Qc) (rest : Qc) : list Qc :=
  (λ i, if decide (i = n) then top else rest) <$> seq 0 6.

Definition unsure : list Qc := replicate 6 (Q2Qc (1 # 6)).

Definition stub_intent_model (tk : Tokens) : Result (list Qc) :=
  match input_ids tk with
  | 99%Z :: _ => mret (one_hot 0 (Q2Qc (97 # 100)) (Q2Qc (6 # 1000)))
  | 120%Z :: _ => raise (RuntimeError "CUDA out of memory")
  | _ => mret unsure
  end.

Definition stub_token_probs (id : Z) : list Qc :=
  if decide (id = 97%Z) then one_hot 0 (Q2Qc (96 # 100)) (Q2Qc (8 # 1000))
  else if decide (id = 122%Z) then one_hot 1 (Q2Qc (98 # 100)) (Q2Qc (4 # 1000))
  else unsure.

Definition stub_entity_model (tk : Tokens) : Result (list (list Qc)) :=
  if decide (33%Z ∈ input_ids tk)
  then raise (RuntimeError "resource exhausted")
  else mret (stub_token_probs <$> input_ids tk).

Definition string_hash (text : string) : Z := Z.pos (encode text).

Lemma id_subseteq (cache : gmap Z IntentResult) : cache ⊆ cache.
Proof. reflexivity. Qed.

#[local] Instance runtime : Runtime := {|
  config := default_config;
  clean_text := λ text, text;
  tokenizer := char_tokenizer;
  intent_model := stub_intent_model;
  entity_model := stub_entity_model;
  hash := string_hash;
  expire := λ cache, cache;
  expire_subseteq := id_subseteq
|}.

End TestDouble.

(** ** A second test double, with one token per word

    The tokenizer splits the cleaned text at white space; the entity model
    tags the word "sales" as an agent name and the word "zoho" as an
    integration type. The rest is the first test double. *)

Module WordDouble.

Definition word_id (word : string) : Z :=
  if decide (word = "sales") then 3%Z
  else if decide (word = "zoho") then 4%Z
  else 1%Z.

Definition word_tokenizer (text : string) : option Tokens :=
  let ids := word_id <$> String.words text in
  Some {| input_ids := ids; attention_mask := (λ _, 1%Z) <$> ids |}.

Definition word_probs (id : Z) : list Qc :=
  if decide (id = 3%Z)
  then TestDouble.one_hot 0 (Q2Qc (96 # 100)) (Q2Qc (8 # 1000))
  else if decide (id = 4%Z)
  then TestDouble.one_hot 1 (Q2Qc (98 # 100)) (Q2Qc (4 # 1000))
  else TestDouble.unsure.

Definition word_entity_model (tk : Tokens) : Result (list (list Qc)) :=
  mret (word_probs <$> input_ids tk).

#[local] Instance runtime : Runtime := {|
  config := default_config;
  clean_text := λ text, text;
  tokenizer := word_tokenizer;
  intent_model := TestDouble.stub_intent_model;
  entity_model := word_entity_model;
  hash := TestDouble.string_hash;
  expire := λ cache, cache;
  expire_subseteq := TestDouble.id_subseteq
|}.

End WordDouble.

(** ** [models/intent_classifier.py], continued *)

Module IntentDistribution.
Import TextPreprocessor IntentClassifier.

Section distribution.
Context `{Runtime}.

(** [predict_proba]: the dictionary built from
    [zip(INTENT_LABELS, probs[0])], as the list of its items in insertion
    order (the labels are distinct). *)
Definition predict_proba (text : string) : Result (list (string * Qc)) :=
  try_except
    (processed ← transform text;
     probs ← intent_model (tokens processed);
     mret (zip INTENT_LABELS probs))
    (λ _, RuntimeError "Probability prediction failed").

End distribution.

End IntentDistribution.

(** ** [utils/text_preprocessor.py], continued

    [normalize_whitespace], the last step of [clean_text]. A character
    of a [string] stands for the code point of the same number, so the
    texts covered are those over Latin-1; on them [str.isspace],
    [str.strip] and the class [\s] of [re] agree on what whitespace is. *)

Module Whitespace.
Import Stdlib.Strings.Ascii.

(** [str.isspace] on one character: tab to carriage return, the four
    separators and the space, NEL and the no-break space. *)
Definition isspace (c : ascii) : bool :=
  let n := nat_of_ascii c in
  bool_decide (9 ≤ n ≤ 13) || bool_decide (28 ≤ n ≤ 32)
  || bool_decide (n = 133) || bool_decide (n = 160).

Fixpoint lstrip (text : string) : string :=
  match text with
  | EmptyString => EmptyString
  | String c rest => if isspace c then lstrip rest else text
  end.

Fixpoint rstrip (text : string) : string :=
  match text with
  | EmptyString => EmptyString
  | String c rest =>
      match rstrip rest with
      | EmptyString => if isspace c then EmptyString else String c EmptyString
      | stripped => String c stripped
      end
  end.

(** [text.strip()] *)
Definition strip (text : string) : string := rstrip (lstrip text).

(** [re.sub(r'\s+', ' ', text)]: the scan from the left replaces every
    maximal run of whitespace by one space; [in_run] tells that the
    character before was whitespace of a run already replaced. *)
Fixpoint sub_spaces (in_run : bool) (text : string) : string :=
  match text with
  | EmptyString => EmptyString
  | String c rest =>
      if isspace c
      then if in_run then sub_spaces true rest
           else String " " (sub_spaces true rest)
      else String c (sub_spaces false rest)
  end.

Definition normalize_whitespace (text : string) : string :=
  if decide (strip text = "") then ""
  else
    let normalized := sub_spaces false text in
    strip normalized.

End Whitespace.

(** ** [main.py]

    The handlers of the REST endpoints over the module-level
    [language_processor] and the two Prometheus counters. A handler is
    taken as one step on that shared state, as the tasks of a batch are.
    The observations of the latency histogram, the tracing spans and the
    log lines are left out; so is the [options] field of the requests,
    which no handler reads. What [str] gives on an [HTTPException] is
    decided by the installed framework and is a parameter; what the read
    of the histogram's private attributes in [health_check] gives is
    decided by the installed Prometheus client and is an argument of the
    handler. *)

Module Main.
Import Whitespace.

Class Framework : Type := {
  http_exception_str : nat → string → string
}.

Record ProcessTextRequest : Type := {
  text : string;
  request_id : option string
}.

Record ProcessBatchRequest : Type := {
  texts : list string;
  batch_request_id : option string
}.

(** [ProcessResponse]; [result] is the dictionary of the orchestrator, a
    result or an error record. *)
Record ProcessResponse : Type := {
  result : LanguageProcessor.BatchItem;
  confidence_score : Qc;
  processing_time : Qc;
  model_version : string;
  response_request_id : string
}.

(** [ErrorResponse(...).dict()]; [details] is always [None]. *)
Record ErrorResponse : Type := {
  error_code : string;
  message : string;
  error_request_id : string
}.

Inductive Detail : Type :=
| ErrorDetail (error : ErrorResponse)
| UnhealthyDetail (error : string).

(** The [HTTPException] a handler ends with. *)
Record HTTPException : Type := {
  status_code : nat;
  detail : Detail
}.

(** What the body of the [try] block of a handler raises: the
    [HTTPException] of its own check, or an exception of the
    orchestrator. *)
Inductive Raised : Type :=
| RaisedHTTP (status_code : nat) (detail : string)
| RaisedError (e : Exception).

(** The ["metrics"] of the answer of [health_check]. *)
Record Health : Type := {
  requests_total : nat;
  errors_total : nat;
  average_latency : Qc
}.

Record Service : Type := {
  language_processor : LanguageProcessor.Processor;
  REQUEST_COUNT : nat;
  ERROR_COUNT : nat
}.

(** [value or fallback] on an optional string. *)
Definition or_else (value : option string) (fallback : string) : string :=
  match value with
  | Some s => if decide (s = "") then fallback else s
  | None => fallback
  end.

(** [result.get('overall_confidence', 0.0)] and
    [result.get('processing_time', 0.0)] *)
Definition get_overall_confidence (result : LanguageProcessor.BatchItem) : Qc :=
  match result with
  | LanguageProcessor.ItemResult r =>
      LanguageProcessor.overall_confidence (LanguageProcessor.validated r)
  | LanguageProcessor.ItemError _ _ => 0%Qc
  end.

Definition get_processing_time (result : LanguageProcessor.BatchItem) : Qc :=
  match result with
  | LanguageProcessor.ItemResult r => LanguageProcessor.processing_time r
  | LanguageProcessor.ItemError _ _ => 0%Qc
  end.

Section handlers.
Context `{Runtime} `{Framework}.

Definition raised_str (e : Raised) : string :=
  match e with
  | RaisedHTTP status_code detail => http_exception_str status_code detail
  | RaisedError e => str e
  end.

(** [POST /process] *)
Definition process_text (sv : Service) (start_time end_time : Qc)
    (request : ProcessTextRequest) : Service * (HTTPException + ProcessResponse) :=
  let requests := S (REQUEST_COUNT sv) in
  let '(processor, body) :=
    if decide (strip (text request) = "")
    then (language_processor sv, inl (RaisedHTTP 400 "Empty text input"))
    else
      match LanguageProcessor.process_text (language_processor sv)
              start_time end_time (text request) with
      | (processor, inl e) => (processor, inl (RaisedError e))
      | (processor, inr r) =>
          let result := LanguageProcessor.ItemResult r in
          (processor,
           inr {| result := result;
                  confidence_score := get_overall_confidence result;
                  processing_time := get_processing_time result;
                  model_version := "1.0.0";
                  response_request_id := or_else (request_id request) "default" |})
      end in
  match body with
  | inr response =>
      ({| language_processor := processor;
          REQUEST_COUNT := requests;
          ERROR_COUNT := ERROR_COUNT sv |},
       inr response)
  | inl e =>
      ({| language_processor := processor;
          REQUEST_COUNT := requests;
          ERROR_COUNT := S (ERROR_COUNT sv) |},
       inl {| status_code := 500;
              detail := ErrorDetail
                {| error_code := "PROCESSING_ERROR";
                   message := raised_str e;
                   error_request_id := or_else (request_id request) "default" |} |})
  end.

(** The comprehension over [enumerate(results)]. *)
Definition responses_of (request : ProcessBatchRequest)
    (results : list LanguageProcessor.BatchItem) : list ProcessResponse :=
  imap (λ i result,
          {| result := result;
             confidence_score := get_overall_confidence result;
             processing_time := get_processing_time result;
             model_version := "1.0.0";
             response_request_id :=
               or_else (batch_request_id request) ("batch_" +:+ pretty i) |})
       results.

(** [POST /process/batch]; [None] when the [await] of the orchestrator
    does not return. *)
Definition process_batch (sv : Service) (stamps : nat → Qc * Qc)
    (order : list nat) (request : ProcessBatchRequest)
  : option (Service * (HTTPException + list ProcessResponse)) :=
  let requests := S (REQUEST_COUNT sv) in
  '(processor, body) ←
    (if decide (Settings.BATCH_SIZE config < length (texts request))
     then Some (language_processor sv,
                inl (RaisedHTTP 400
                       ("Batch size exceeds limit of "
                        +:+ pretty (Settings.BATCH_SIZE config))))
     else
       '(processor, outcome) ←
         LanguageProcessor.process_batch (language_processor sv)
           stamps order (texts request);
       Some (processor,
             match outcome with
             | inl e => inl (RaisedError e)
             | inr results => inr (responses_of request results)
             end));
  Some
    match body with
    | inr responses =>
        ({| language_processor := processor;
            REQUEST_COUNT := requests;
            ERROR_COUNT := ERROR_COUNT sv |},
         inr responses)
    | inl e =>
        ({| language_processor := processor;
            REQUEST_COUNT := requests;
            ERROR_COUNT := S (ERROR_COUNT sv) |},
         inl {| status_code := 500;
                detail := ErrorDetail
                  {| error_code := "BATCH_PROCESSING_ERROR";
                     message := raised_str e;
                     error_request_id :=
                       or_else (batch_request_id request) "default" |} |})
    end.

(** [GET /health]. [latency] is what evaluating
    [LATENCY_HISTOGRAM._sum.get() / max(LATENCY_HISTOGRAM._count.get(), 1)]
    gives at this call: the quotient, or the text of the exception that
    the read of [_sum] or [_count] raises when the histogram of the
    installed client has no such attribute. The expression is inside the
    [try] block, after the request to the orchestrator. *)
Definition health_check (sv : Service) (start_time end_time : Qc)
    (latency : string + Qc) : Service * (HTTPException + Health) :=
  let '(processor, processor_status) :=
    LanguageProcessor.process_text (language_processor sv)
      start_time end_time "test" in
  let sv := {| language_processor := processor;
               REQUEST_COUNT := REQUEST_COUNT sv;
               ERROR_COUNT := ERROR_COUNT sv |} in
  match processor_status with
  | inr _ =>
      match latency with
      | inr average =>
          (sv, inr {| requests_total := REQUEST_COUNT sv;
                      errors_total := ERROR_COUNT sv;
                      average_latency := average |})
      | inl error =>
          (sv, inl {| status_code := 503; detail := UnhealthyDetail error |})
      end
  | inl e =>
      (sv, inl {| status_code := 503; detail := UnhealthyDetail (str e) |})
  end.

End handlers.

End Main.

(** A framework whose [HTTPException] prints as its status code and
    detail, for running the handlers on concrete requests. *)
Module TestFramework.

#[local] Instance framework : Main.Framework := {|
  Main.http_exception_str := λ status_code detail,
    pretty status_code +:+ ": " +:+ detail
|}.

End TestFramework.

(* further definitions: end *)

(** ** Vocabulary of the statements *)

Section vocabulary.
Context `{Runtime}.
Import TextPreprocessor IntentClassifier EntityExtractor LanguageProcessor.

(** The dictionary built by the [if]/[else] of [classify_intent]. *)
Definition gated_result (top : Qc) (label : string) : IntentResult :=
  if decide (top < confidence_threshold)%Qc then
    {| intent := Some "unknown"; confidence := Some top;
       status := Some "low_confidence" |}
  else
    {| intent := Some label; confidence := Some top;
       status := Some "success" |}.

(** The pipeline of one text up to [torch.max]. *)
Definition top_of (text : string) : Result (Qc * nat) :=
  processed ← transform text;
  probs ← intent_model (tokens processed);
  torch_max probs.

(** Every entry of the cache is what inference computes for the texts
    that hash to its key. *)
Definition coherent (cache : gmap Z IntentResult) : Prop :=
  ∀ text cached, cache !! hash text = Some cached → infer text = inr cached.

(** Two outcomes that agree on success: the same value, or both raise. *)
Definition same_ok {A} (r1 r2 : Result A) : Prop :=
  match r1, r2 with
  | inr x, inr y => x = y
  | inl _, inl _ => True
  | _, _ => False
  end.

(** What [classify_batch] computes for a sub-batch before it formats the
    results: preprocessing, the model and [torch.max], stage by stage. *)
Definition sub_batch_maxima (batch : list string) : Result (list (Qc * nat)) :=
  results ← mapM transform batch;
  probs ← mapM intent_model (tokens <$> results);
  mapM torch_max probs.

(** Rows that [np.vstack] accepts: every row is as wide as every other,
    in the token ids and in the mask. *)
Definition same_width (rows : list Tokens) : Prop :=
  ∀ row1 row2, row1 ∈ rows → row2 ∈ rows →
    length (input_ids row1) = length (input_ids row2)
    ∧ length (attention_mask row1) = length (attention_mask row2).

(** The tokenizer gives the texts rows of one width, as a tokenizer does
    that pads and truncates to the maximum length. *)
Definition stackable (texts : list string) : Prop :=
  ∀ text1 text2 row1 row2, text1 ∈ texts → text2 ∈ texts →
    tokenizer (clean_text text1) = Some row1 →
    tokenizer (clean_text text2) = Some row2 →
    length (input_ids row1) = length (input_ids row2)
    ∧ length (attention_mask row1) = length (attention_mask row2).

(** The per-item relation of the formatting loop of [classify_batch]. *)
Definition formatted (item : Qc * nat * string) (r : IntentResult) : Prop :=
  ∃ label, INTENT_LABELS !! item.1.2 = Some label
           ∧ r = gated_result item.1.1 label.

(** The sentence "classify_batch(texts)[i] is identical to the result of
    single-item classify on texts[i]", for every cache and batch. *)
Definition batch_equals_single : Prop :=
  ∀ (cache : gmap Z IntentResult) (texts : list string) (i : nat)
    (text : string) (r : IntentResult),
    texts !! i = Some text →
    (classify_intent cache text).2 = inr r →
    ∃ results, (classify_batch cache texts).2 = inr results
               ∧ results !! i = Some r.

(** The entities of one text are slices of that text. *)
Definition raw_slices (text : string) (entities : list Entity) : Prop :=
  ∀ e, e ∈ entities → e_text e = slice text (e_position e) (e_position e + 1).

(** The entity dictionary has a ['type'] key. *)
Definition typed (e : Entity) : Prop := is_Some (e_type e).

(** The entity confidences as [_validate_results] reads them. *)
Definition confidences (entities_result : list Entity) : list Qc :=
  (λ e, default 0%Qc (e_confidence e)) <$> entities_result.

(** Some entity of the list has the type [type]. *)
Definition has_type (entities_result : list Entity) (type : string) : Prop :=
  ∃ e, e ∈ entities_result ∧ e_type e = Some type.

(** The counters of the metrics add up. *)
Definition metrics_consistent (metrics : Metrics) : Prop :=
  total_requests metrics
  = successful_requests metrics + failed_requests metrics.

(** The element of the batch output for a text and the outcome of its
    task. *)
Definition item_of (text : string) (outcome : Result ProcessResult) : BatchItem :=
  match outcome with
  | inr result => ItemResult result
  | inl e => ItemError (str e) text
  end.

(** The states of the orchestrator: the one built by [__init__], and those
    left by a call of [process_text] or a returning call of
    [process_batch]. *)
Inductive reachable : Processor → Prop :=
| reachable_init : reachable init
| reachable_process_text st start_time end_time text :
    reachable st →
    reachable (process_text st start_time end_time text).1
| reachable_process_batch st stamps order texts st' outcome :
    reachable st →
    process_batch st stamps order texts = Some (st', outcome) →
    reachable st'.

End vocabulary.

Section further_vocabulary.
Context `{Runtime}.
Import TextPreprocessor IntentClassifier EntityExtractor LanguageProcessor.

(** The entity that the extractor reports for the token at position [pos]
    whose class probabilities are [probs]: the largest probability is at
    least the threshold, and the type is the one at its first index. *)
Definition scanned (text : string) (probs : list Qc) (pos : nat) (e : Entity)
  : Prop :=
  ∃ top k type,
    max_with_index probs = Some (top, k)
    ∧ (EntityExtractor._confidence_threshold ≤ top)%Qc
    ∧ ENTITY_TYPES !! k = Some type
    ∧ e = {| e_type := Some type;
             e_confidence := Some top;
             e_position := pos;
             e_text := slice text pos (pos + 1) |}.

(** The metrics after a sequence of updates, each given by its success
    flag, its processing time and its error message. *)
Definition record_all (metrics : Metrics)
    (updates : list (bool * Qc * option string)) : Metrics :=
  foldl (λ m u, _update_metrics m u.1.1 u.1.2 u.2) metrics updates.

(** The task of index [i] has completed with an exception, or with a
    result. *)
Definition failed_outcome (outcomes : gmap nat (Result ProcessResult))
    (i : nat) : bool :=
  match outcomes !! i with Some (inl _) => true | _ => false end.

Definition returned_outcome (outcomes : gmap nat (Result ProcessResult))
    (i : nat) : bool :=
  match outcomes !! i with Some (inr _) => true | _ => false end.

(* further vocabulary: end *)

End further_vocabulary.

Section whitespace_vocabulary.
Import Stdlib.Strings.Ascii.

(** A text in which every whitespace character is a single space that
    follows a character other than whitespace and is followed by one;
    [after_space] tells that the character before the text is a space. *)
Fixpoint single_spaced (after_space : bool) (text : string) : bool :=
  match text with
  | EmptyString => negb after_space
  | String c rest =>
      if Whitespace.isspace c
      then negb after_space && bool_decide (c = " "%char)
           && single_spaced true rest
      else single_spaced false rest
  end.

(** The characters of a text other than whitespace, in order. *)
Definition visible (text : string) : list ascii :=
  filter (λ c, Whitespace.isspace c = false) (String.list_ascii_of_string text).

End whitespace_vocabulary.

(** * Properties *)

(** ** Numbers and lists *)

Section prelude_facts.

Lemma of_nat_S_nonzero (n : nat) : of_nat (S n) ≠ 0%Qc.
Proof.
  unfold of_nat. rewrite <- Z2Qc_inj_0.
  intros Heq%Z2Qc_inj. lia.
Qed.

Lemma of_nat_S (n : nat) : of_nat (S n) = (of_nat n + 1)%Qc.
Proof.
  unfold of_nat. rewrite Nat2Z.inj_succ, <- Z.add_1_r.
  by rewrite Z2Qc_inj_add, Z2Qc_inj_1.
Qed.

Lemma Qc_not_lt_iff_le (x y : Qc) : ¬ (x < y)%Qc ↔ (y ≤ x)%Qc.
Proof. split; [apply Qcnot_lt_le | apply Qcle_not_lt]. Qed.

Lemma py_sum_cons (x : Qc) (l : list Qc) : py_sum (x :: l) = (x + py_sum l)%Qc.
Proof. reflexivity. Qed.

(** [max_from] scans the rest of a row: it keeps a maximum of what has
    been seen and the first position where it occurs. *)
Lemma max_from_spec (seen l : list Qc) (best : Qc) (best_idx : nat) m i :
  seen !! best_idx = Some best →
  (∀ p, p ∈ seen → (p ≤ best)%Qc) →
  (∀ j p, j < best_idx → seen !! j = Some p → (p < best)%Qc) →
  max_from best best_idx (length seen) l = (m, i) →
  (seen ++ l) !! i = Some m
  ∧ (∀ p, p ∈ seen ++ l → (p ≤ m)%Qc)
  ∧ (∀ j p, j < i → (seen ++ l) !! j = Some p → (p < m)%Qc).
Proof.
  revert seen best best_idx.
  induction l as [|p l IH]; intros seen best best_idx Hbest Hle Hlt; simpl.
  - intros [= <- <-]. rewrite app_nil_r. done.
  - assert (Hlen : length (seen ++ [p]) = S (length seen))
      by (rewrite length_app; simpl; lia).
    destruct (decide (best < p)%Qc) as [Hp|Hp]; intros Hmax.
    + rewrite <- Hlen in Hmax. apply IH in Hmax.
      * by rewrite <- app_assoc in Hmax.
      * rewrite lookup_app_r by lia. by rewrite Nat.sub_diag.
      * intros q [Hq|Hq%list_elem_of_singleton]%elem_of_app.
        -- apply Qclt_le_weak, Qcle_lt_trans with best; auto.
        -- subst q. apply Qcle_refl.
      * intros j q Hj Hq. rewrite lookup_app_l in Hq by done.
        apply Qcle_lt_trans with best; [|done].
        apply Hle. by eapply list_elem_of_lookup_2.
    + apply Qc_not_lt_iff_le in Hp.
      rewrite <- Hlen in Hmax. apply IH in Hmax.
      * by rewrite <- app_assoc in Hmax.
      * rewrite lookup_app_l; [done|]. by eapply lookup_lt_Some.
      * intros q [Hq|Hq%list_elem_of_singleton]%elem_of_app; [auto|by subst q].
      * intros j q Hj Hq. apply (Hlt j q Hj).
        rewrite lookup_app_l in Hq; [done|].
        apply lookup_lt_Some in Hbest. lia.
Qed.

Lemma max_with_index_spec (l : list Qc) m i :
  max_with_index l = Some (m, i) →
  l !! i = Some m
  ∧ (∀ p, p ∈ l → (p ≤ m)%Qc)
  ∧ (∀ j p, j < i → l !! j = Some p → (p < m)%Qc).
Proof.
  destruct l as [|p l]; [done|]. simpl. intros [= Hmax].
  apply (max_from_spec [p] l p 0) in Hmax; [done|done|..].
  - intros q ->%list_elem_of_singleton. apply Qcle_refl.
  - intros j q Hj. lia.
Qed.

(** Conversely, the first position of a maximum of the row is what
    [max_with_index] returns. *)
Lemma max_with_index_first_top (l : list Qc) top idx :
  l !! idx = Some top →
  (∀ p, p ∈ l → (p ≤ top)%Qc) →
  (∀ j p, j < idx → l !! j = Some p → (p < top)%Qc) →
  max_with_index l = Some (top, idx).
Proof.
  intros Hidx Hle Hlt.
  destruct (max_with_index l) as [[m i]|] eqn:Hmax.
  - apply max_with_index_spec in Hmax as (Hi & Hle' & Hlt').
    assert (m = top) as ->.
    { apply Qcle_antisym.
      - apply Hle. by eapply list_elem_of_lookup_2.
      - apply Hle'. by eapply list_elem_of_lookup_2. }
    destruct (Nat.lt_trichotomy i idx) as [Hlt1|[->|Hlt1]]; [|done|].
    + exfalso. by apply (Qclt_not_eq top top); [eapply Hlt|].
    + exfalso. by apply (Qclt_not_eq top top); [eapply Hlt'|].
  - destruct l; [done|discriminate].
Qed.

Context {A B : Type}.

Lemma mapM_Result_inr (f : A → Result B) (l : list A) (ys : list B) :
  mapM f l = inr ys ↔ Forall2 (λ x y, f x = inr y) l ys.
Proof.
  revert ys. induction l as [|x l IH]; intros ys; simpl.
  - split; [intros [= <-]; constructor|by intros ->%Forall2_nil_inv_l].
  - destruct (f x) as [e|y] eqn:Hx; simpl.
    + split; [done|]. intros (y & ys' & Hy & _ & _)%Forall2_cons_inv_l.
      congruence.
    + destruct (mapM f l) as [e|ys'] eqn:Hl; simpl.
      * split; [done|]. intros (y' & ys' & _ & Hys & _)%Forall2_cons_inv_l.
        by apply IH in Hys.
      * split.
        -- intros [= <-]. constructor; [done|]. by apply IH.
        -- intros (y' & ys'' & Hy & Hys & ->)%Forall2_cons_inv_l.
           rewrite Hx in Hy. apply IH in Hys. by simplify_eq.
Qed.

Lemma mapM_Result_ok (f : A → Result B) (l : list A) :
  Forall (λ x, is_ok (f x)) l → ∃ ys, mapM f l = inr ys.
Proof.
  induction 1 as [|x l Hx _ [ys IH]]; [by exists []|].
  simpl. destruct (f x) as [|y]; [done|]. rewrite IH. by exists (y :: ys).
Qed.

Lemma mapM_Result_app (f : A → Result B) (l1 l2 : list A) :
  mapM f (l1 ++ l2) =
  ys1 ← mapM f l1; ys2 ← mapM f l2; (mret (ys1 ++ ys2) : Result _).
Proof.
  induction l1 as [|x l1 IH]; simpl.
  - by destruct (mapM f l2).
  - destruct (f x) as [|y]; [done|]. simpl. rewrite IH.
    destruct (mapM f l1); [done|]. simpl. by destruct (mapM f l2).
Qed.

Lemma Forall2_concat (P : A → B → Prop) (ls1 : list (list A)) (ls2 : list (list B)) :
  Forall2 (Forall2 P) ls1 ls2 → Forall2 P (concat ls1) (concat ls2).
Proof. induction 1; simpl; [constructor|by apply Forall2_app]. Qed.

Lemma chunks_fuel_concat (fuel n : nat) (l : list A) :
  0 < n → length l ≤ fuel → concat (chunks_fuel fuel n l) = l.
Proof.
  intros Hn. revert l.
  induction fuel as [|fuel IH]; intros [|x l] Hlen; simpl in *; try done; [lia|].
  destruct n as [|n]; [lia|]. simpl.
  rewrite IH; [by rewrite take_drop|]. rewrite length_drop. lia.
Qed.

Lemma chunks_concat (n : nat) (l : list A) : 0 < n → concat (chunks n l) = l.
Proof. intros. by apply chunks_fuel_concat. Qed.

(** Mapping a failing function over the sub-batches and concatenating is
    mapping it over the whole list. *)
Lemma mapM_chunks_fuel (f : A → Result B) (fuel n : nat) (l : list A) :
  0 < n → length l ≤ fuel →
  (yss ← mapM (mapM f) (chunks_fuel fuel n l); mret (concat yss))
  = mapM f l.
Proof.
  intros Hn. revert l.
  induction fuel as [|fuel IH]; intros l Hlen;
    destruct l as [|x l]; simpl in Hlen; try done; [lia|].
  remember (x :: l) as xs eqn:Hxs.
  transitivity (mapM f (take n xs ++ drop n xs)); [|by rewrite take_drop].
  rewrite mapM_Result_app, <- (IH (drop n xs)).
  - rewrite Hxs at 1. cbn [chunks_fuel mapM]. rewrite <- Hxs.
    destruct (mapM f (take n xs)); [done|]. simpl.
    by destruct (mapM (mapM f) (chunks_fuel fuel n (drop n xs))).
  - rewrite length_drop, Hxs. simpl. lia.
Qed.

Lemma mapM_chunks (f : A → Result B) (n : nat) (l : list A) :
  0 < n → (yss ← mapM (mapM f) (chunks n l); mret (concat yss)) = mapM f l.
Proof. intros. by apply mapM_chunks_fuel. Qed.

Lemma chunks_elem_of (n : nat) (l batch : list A) (x : A) :
  0 < n → batch ∈ chunks n l → x ∈ batch → x ∈ l.
Proof.
  intros Hn Hbatch Hx. rewrite <- (chunks_concat n l) by done.
  apply list_elem_of_In, in_concat. exists batch.
  by split; apply list_elem_of_In.
Qed.

Lemma first_mismatch_None (width idx : nat) (arrays : list (list A)) :
  first_mismatch width idx arrays = None
  ↔ Forall (λ a, length a = width) arrays.
Proof.
  revert idx. induction arrays as [|a arrays IH]; intros idx; simpl.
  - split; [constructor|done].
  - destruct (decide (length a = width)) as [Ha|Ha].
    + rewrite IH. split; [by constructor|]. by intros [_ ?]%Forall_cons.
    + split; [done|]. by intros [? _]%Forall_cons.
Qed.

(** [np.vstack] returns exactly on a non-empty list of rows of one
    width, and returns the rows. *)
Lemma vstack_inr (arrays stacked : list (list A)) :
  vstack arrays = inr stacked ↔
  arrays ≠ [] ∧ stacked = arrays
  ∧ ∀ a b, a ∈ arrays → b ∈ arrays → length a = length b.
Proof.
  unfold vstack. destruct arrays as [|first rest].
  { split; [done|]. by intros [? _]. }
  destruct (first_mismatch (length first) 1 rest) as [[idx width]|] eqn:Hm.
  - split; [done|]. intros (_ & _ & Hall).
    assert (first_mismatch (length first) 1 rest = None) as Hnone.
    { apply first_mismatch_None, Forall_forall. intros a Ha.
      apply Hall; [by right|by left]. }
    congruence.
  - apply first_mismatch_None in Hm. rewrite Forall_forall in Hm. split.
    + intros [= <-]. split_and!; [done..|].
      intros a b Ha Hb. transitivity (length first).
      * apply elem_of_cons in Ha as [->|Ha]; [done|by apply Hm].
      * symmetry. apply elem_of_cons in Hb as [->|Hb]; [done|by apply Hm].
    + by intros (_ & -> & _).
Qed.

End prelude_facts.

(** ** The preprocessor *)

Section preprocessor_facts.
Context `{Runtime}.
Import TextPreprocessor.

Lemma transform_empty : transform "" = inl (ValueError "Invalid input text").
Proof. reflexivity. Qed.

Lemma transform_ok_nonempty (text : string) processed :
  transform text = inr processed → text ≠ "".
Proof. unfold transform. by destruct (decide (text = "")). Qed.

Lemma tokenize_text_tokenizer (text : string) :
  tokenize_text text =
  match tokenizer (clean_text text) with
  | Some tk => inr tk
  | None => inl (RuntimeError "Tokenization failed after max retries")
  end.
Proof.
  unfold tokenize_text, MAX_RETRIES. simpl.
  by destruct (tokenizer (clean_text text)).
Qed.

Lemma transform_inr (text : string) processed :
  transform text = inr processed ↔
  text ≠ ""
  ∧ ∃ tk, tokenizer (clean_text text) = Some tk
          ∧ processed = {| tokens := tk;
                           original_length := String.length text;
                           processed_length := length (input_ids tk) |}.
Proof.
  unfold transform. rewrite tokenize_text_tokenizer.
  destruct (decide (text = "")) as [->|Hne].
  { split; [done|]. by intros [? _]. }
  destruct (tokenizer (clean_text text)) as [tk|]; simpl.
  - split.
    + intros [= <-]. split; [done|]. by exists tk.
    + intros (_ & tk' & [= <-] & ->). done.
  - split; [done|]. by intros (_ & tk & ? & _).
Qed.

(** The sub-batches of [batch_transform] are invisible in its result. *)
Lemma batch_transform_unfold (texts : list string) :
  texts ≠ [] →
  batch_transform texts =
  results ← mapM transform texts;
  stacked_ids ← vstack ((λ r, input_ids (tokens r)) <$> results);
  stacked_mask ← vstack ((λ r, attention_mask (tokens r)) <$> results);
  mret {| rows := zip_with Build_Tokens stacked_ids stacked_mask;
          batch_size := length texts |}.
Proof.
  intros Hne. unfold batch_transform. destruct texts as [|text texts]; [done|].
  rewrite <- (mapM_chunks transform BATCH_SIZE (text :: texts))
    by (unfold BATCH_SIZE; lia).
  by destruct (mapM (mapM transform) (chunks BATCH_SIZE (text :: texts))).
Qed.

Lemma zip_with_tokens (results : list Processed) :
  zip_with Build_Tokens ((λ r, input_ids (tokens r)) <$> results)
    ((λ r, attention_mask (tokens r)) <$> results)
  = tokens <$> results.
Proof.
  induction results as [|r results IH]; [done|].
  cbn. f_equal; [by destruct (tokens r)|exact IH].
Qed.

Lemma vstack_fmap_inr {A} (f : Processed → list A) (results : list Processed)
    (stacked : list (list A)) :
  vstack (f <$> results) = inr stacked ↔
  results ≠ [] ∧ stacked = f <$> results
  ∧ ∀ r1 r2, r1 ∈ results → r2 ∈ results → length (f r1) = length (f r2).
Proof.
  rewrite vstack_inr. split.
  - intros (Hne & -> & Hall). split_and!; [by destruct results|done|].
    intros r1 r2 Hr1 Hr2. apply Hall; by apply list_elem_of_fmap_2.
  - intros (Hne & -> & Hall). split_and!; [by destruct results|done|].
    intros a b (r1 & -> & Hr1)%list_elem_of_fmap
      (r2 & -> & Hr2)%list_elem_of_fmap.
    by apply Hall.
Qed.

(** The two calls of [np.vstack] return exactly on rows of one width. *)
Lemma vstack_tokens (results : list Processed) (rows : list Tokens) :
  (stacked_ids ← vstack ((λ r, input_ids (tokens r)) <$> results);
   stacked_mask ← vstack ((λ r, attention_mask (tokens r)) <$> results);
   mret (zip_with Build_Tokens stacked_ids stacked_mask))
  = inr rows
  ↔ results ≠ [] ∧ same_width (tokens <$> results) ∧ rows = tokens <$> results.
Proof.
  pose proof (vstack_fmap_inr (λ r, input_ids (tokens r)) results) as Hids.
  pose proof (vstack_fmap_inr (λ r, attention_mask (tokens r)) results) as Hmask.
  destruct (vstack ((λ r, input_ids (tokens r)) <$> results))
    as [e|stacked_ids]; simpl.
  { split; [done|]. intros (Hne & Hsame & _).
    enough ((inl e : Result (list (list Z)))
            = inr ((λ r, input_ids (tokens r)) <$> results)) by done.
    apply Hids. split_and!; [done..|].
    intros r1 r2 Hr1 Hr2.
    apply (Hsame (tokens r1) (tokens r2)); by apply list_elem_of_fmap_2. }
  destruct (proj1 (Hids _) eq_refl) as (Hne & -> & Hwidth_ids).
  destruct (vstack ((λ r, attention_mask (tokens r)) <$> results))
    as [e|stacked_mask]; simpl.
  { split; [done|]. intros (_ & Hsame & _).
    enough ((inl e : Result (list (list Z)))
            = inr ((λ r, attention_mask (tokens r)) <$> results)) by done.
    apply Hmask. split_and!; [done..|].
    intros r1 r2 Hr1 Hr2.
    apply (Hsame (tokens r1) (tokens r2)); by apply list_elem_of_fmap_2. }
  destruct (proj1 (Hmask _) eq_refl) as (_ & -> & Hwidth_mask).
  rewrite zip_with_tokens. split.
  - intros [= <-]. split_and!; [done| |done].
    intros row1 row2 (r1 & -> & Hr1)%list_elem_of_fmap
      (r2 & -> & Hr2)%list_elem_of_fmap.
    split; [by apply Hwidth_ids|by apply Hwidth_mask].
  - by intros (_ & _ & ->).
Qed.

Lemma mapM_Result_nonempty {A B} (f : A → Result B) (l : list A) ys :
  l ≠ [] → mapM f l = inr ys → ys ≠ [].
Proof.
  intros Hne Hys%mapM_Result_inr%Forall2_length.
  destruct l, ys; done.
Qed.

(** [batch_transform] returns exactly when every text is transformed and
    the rows have one width; the rows are then those of the texts. *)
Lemma batch_transform_inr (texts : list string) processed_batch :
  batch_transform texts = inr processed_batch ↔
  texts ≠ []
  ∧ ∃ results,
      mapM transform texts = inr results
      ∧ same_width (tokens <$> results)
      ∧ processed_batch
        = {| rows := tokens <$> results; batch_size := length texts |}.
Proof.
  destruct texts as [|text0 texts0].
  { split; [done|]. by intros [? _]. }
  set (texts := text0 :: texts0). assert (Hne : texts ≠ []) by done.
  clearbody texts. rewrite batch_transform_unfold by done.
  destruct (mapM transform texts) as [e|results] eqn:Hresults; simpl.
  { split; [done|]. by intros (_ & results & ? & _). }
  pose proof (mapM_Result_nonempty _ _ _ Hne Hresults) as Hresults_ne.
  pose proof (vstack_tokens results) as Hstack.
  destruct (stacked_ids ← vstack ((λ r, input_ids (tokens r)) <$> results);
            stacked_mask ← vstack ((λ r, attention_mask (tokens r)) <$> results);
            mret (zip_with Build_Tokens stacked_ids stacked_mask))
    as [e|rows0] eqn:Hrows.
  - assert ((stacked_ids ← vstack ((λ r, input_ids (tokens r)) <$> results);
             stacked_mask ← vstack ((λ r, attention_mask (tokens r)) <$> results);
             mret {| rows := zip_with Build_Tokens stacked_ids stacked_mask;
                     batch_size := length texts |}) = inl e) as ->.
    { destruct (vstack ((λ r, input_ids (tokens r)) <$> results)); simpl in *;
        [by simplify_eq|].
      destruct (vstack ((λ r, attention_mask (tokens r)) <$> results));
        simpl in *; by simplify_eq. }
    split; [done|]. intros (_ & results' & [= <-] & Hsame & _).
    enough ((inl e : Result (list Tokens)) = inr (tokens <$> results)) by done.
    by apply Hstack.
  - assert ((stacked_ids ← vstack ((λ r, input_ids (tokens r)) <$> results);
             stacked_mask ← vstack ((λ r, attention_mask (tokens r)) <$> results);
             mret {| rows := zip_with Build_Tokens stacked_ids stacked_mask;
                     batch_size := length texts |})
            = inr {| rows := rows0; batch_size := length texts |}) as ->.
    { destruct (vstack ((λ r, input_ids (tokens r)) <$> results)); simpl in *;
        [done|].
      destruct (vstack ((λ r, attention_mask (tokens r)) <$> results));
        simpl in *; [done|].
      by injection Hrows as <-. }
    destruct (proj1 (Hstack rows0) eq_refl) as (_ & Hsame & ->).
    split.
    + intros [= <-]. split; [done|]. by exists results.
    + by intros (_ & results' & [= <-] & _ & ->).
Qed.

(** On texts that the tokenizer gives rows of one width, the stacking
    does not show either. *)
Lemma stackable_same_width (texts : list string) (results : list Processed) :
  stackable texts → mapM transform texts = inr results →
  same_width (tokens <$> results).
Proof.
  intros Hstackable Hresults%mapM_Result_inr.
  intros row1 row2 (r1 & -> & Hr1)%list_elem_of_fmap
    (r2 & -> & Hr2)%list_elem_of_fmap.
  apply list_elem_of_lookup in Hr1 as [i1 Hi1], Hr2 as [i2 Hi2].
  destruct (Forall2_lookup_r _ _ _ _ _ Hresults Hi1)
    as (text1 & Htext1 & (_ & tk1 & Htk1 & ->)%transform_inr).
  destruct (Forall2_lookup_r _ _ _ _ _ Hresults Hi2)
    as (text2 & Htext2 & (_ & tk2 & Htk2 & ->)%transform_inr).
  simpl. apply (Hstackable text1 text2); [by eapply list_elem_of_lookup_2..|done|done].
Qed.

Lemma batch_transform_mapM (texts : list string) :
  texts ≠ [] → stackable texts →
  batch_transform texts =
  results ← mapM transform texts;
  mret {| rows := tokens <$> results; batch_size := length texts |}.
Proof.
  intros Hne Hstackable.
  destruct (mapM transform texts) as [e|results] eqn:Hresults; simpl.
  - rewrite batch_transform_unfold, Hresults by done. done.
  - apply batch_transform_inr. split; [done|]. exists results.
    split_and!; [done| |done]. by eapply stackable_same_width.
Qed.

Lemma stackable_subseteq (texts batch : list string) :
  (∀ text, text ∈ batch → text ∈ texts) → stackable texts → stackable batch.
Proof.
  intros Hsub Hstackable text1 text2 row1 row2 Hin1 Hin2.
  apply Hstackable; by apply Hsub.
Qed.

(** Texts whose rows all have the width [width] are stackable. *)
Lemma stackable_width (width : nat) (texts : list string) :
  Forall (λ text, ∀ row, tokenizer (clean_text text) = Some row →
                         length (input_ids row) = width
                         ∧ length (attention_mask row) = width) texts →
  stackable texts.
Proof.
  rewrite Forall_forall. intros Hwidth text1 text2 row1 row2 Hin1 Hin2 Hrow1 Hrow2.
  destruct (Hwidth text1 Hin1 row1 Hrow1) as [-> ->].
  destruct (Hwidth text2 Hin2 row2 Hrow2) as [-> ->]. done.
Qed.

End preprocessor_facts.

(** ** The intent classifier *)

Section classifier_facts.
Context `{Runtime}.
Import TextPreprocessor IntentClassifier.

(** The conditional expressions of [classify_batch] build the same
    dictionary. *)
Lemma batch_result_gated (top : Qc) (label : string) :
  {| intent := Some (if decide (confidence_threshold ≤ top)%Qc
                     then label else "unknown");
     confidence := Some top;
     status := Some (if decide (confidence_threshold ≤ top)%Qc
                     then "success" else "low_confidence") |}
  = gated_result top label.
Proof.
  unfold gated_result.
  destruct (decide (confidence_threshold ≤ top)%Qc) as [Hle|Hle],
    (decide (top < confidence_threshold)%Qc) as [Hlt|Hlt]; try done.
  - by apply Qcle_not_lt in Hle.
  - by apply Qc_not_lt_iff_le in Hlt.
Qed.

Lemma infer_unfold (text : string) :
  infer text =
  '(top, idx) ← top_of text;
  label ← getitem INTENT_LABELS idx;
  mret (gated_result top label).
Proof.
  unfold infer, top_of, gated_result.
  destruct (transform text) as [|processed]; simpl; [done|].
  destruct (intent_model (tokens processed)) as [|probs]; simpl; [done|].
  destruct (torch_max probs) as [|[top idx]]; simpl; [done|].
  destruct (getitem INTENT_LABELS idx) as [|label]; simpl; [done|].
  by destruct (decide (top < confidence_threshold)%Qc).
Qed.

Lemma infer_top_of (text : string) (r : IntentResult) :
  infer text = inr r ↔
  ∃ top idx label,
    top_of text = inr (top, idx)
    ∧ INTENT_LABELS !! idx = Some label
    ∧ r = gated_result top label.
Proof.
  rewrite infer_unfold. unfold getitem.
  destruct (top_of text) as [e|[top idx]]; simpl.
  { split; [done|]. by intros (? & ? & ? & ? & _). }
  destruct (INTENT_LABELS !! idx) as [label|] eqn:Hlabel; simpl.
  - split.
    + intros [= <-]. by exists top, idx, label.
    + intros (top' & idx' & label' & [= <- <-] & Hl & ->).
      rewrite Hlabel in Hl. by injection Hl as <-.
  - split; [done|].
    intros (top' & idx' & label' & [= <- <-] & Hl & _). congruence.
Qed.

Lemma coherent_empty : coherent ∅.
Proof. intros text cached. by rewrite lookup_empty. Qed.

Lemma coherent_expire cache : coherent cache → coherent (expire cache).
Proof.
  intros Hc text cached Hlook. apply Hc.
  by eapply lookup_weaken; [|apply expire_subseteq].
Qed.

Lemma coherent_insert cache text result :
  Inj (=) (=) hash →
  coherent cache → infer text = inr result →
  coherent (<[hash text := result]> cache).
Proof.
  intros Hinj Hc Hres text' cached. rewrite lookup_insert.
  case_decide as Hkey.
  - apply Hinj in Hkey as <-. by intros [= <-].
  - apply Hc.
Qed.

Lemma classify_intent_coherent cache text :
  Inj (=) (=) hash →
  coherent cache → coherent (classify_intent cache text).1.
Proof.
  intros Hinj Hc%coherent_expire. unfold classify_intent.
  destruct (expire cache !! hash text); [done|].
  destruct (infer text) eqn:Hres; [done|]. by apply coherent_insert.
Qed.

(** With an entry that inference would compute, or none, under the key of
    the text, [classify_intent] returns what inference computes. *)
Lemma classify_intent_infer cache text :
  (∀ cached, cache !! hash text = Some cached → infer text = inr cached) →
  (classify_intent cache text).2 =
  try_except (infer text) (λ _, RuntimeError "Intent classification failed").
Proof.
  intros Hc. unfold classify_intent.
  destruct (expire cache !! hash text) as [cached|] eqn:Hlook.
  - eapply lookup_weaken in Hlook; [|apply expire_subseteq].
    by rewrite (Hc _ Hlook).
  - by destruct (infer text).
Qed.

End classifier_facts.

Section confidence_gating.
Context `{Runtime}.
Import TextPreprocessor IntentClassifier.

(** C6. Confidence gating of [classify_intent]. Let [top] be the largest
    probability the model assigns to a class for the text, at its first
    index [idx], which carries the label [label]. When [top] is below the
    configured threshold the call returns intent "unknown" with status
    "low_confidence"; otherwise it returns [label] with status "success";
    in both cases the reported confidence is [top]. The cache is read
    first, so the entry under the key of the text, if there is one, is
    taken to be the one classification computed for this text. *)
Theorem classify_intent_confidence_gating
    (cache : gmap Z IntentResult) (text : string) (processed : Processed)
    (probs : list Qc) (top : Qc) (idx : nat) (label : string) :
  (∀ cached, cache !! hash text = Some cached → infer text = inr cached) →
  transform text = inr processed →
  intent_model (tokens processed) = inr probs →
  probs !! idx = Some top →
  (∀ p, p ∈ probs → (p ≤ top)%Qc) →
  (∀ j p, j < idx → probs !! j = Some p → (p < top)%Qc) →
  INTENT_LABELS !! idx = Some label →
  (classify_intent cache text).2 =
  inr (if decide (top < confidence_threshold)%Qc
       then {| intent := Some "unknown";
               confidence := Some top;
               status := Some "low_confidence" |}
       else {| intent := Some label;
               confidence := Some top;
               status := Some "success" |}).
Proof.
  intros Hcache Htransform Hmodel Htop Hmax Hfirst Hlabel.
  rewrite classify_intent_infer by done.
  assert (Hinfer : infer text = inr (gated_result top label)).
  { apply infer_top_of. exists top, idx, label. split_and!; [|done..].
    unfold top_of, torch_max. rewrite Htransform. simpl. rewrite Hmodel. simpl.
    by rewrite (max_with_index_first_top probs top idx). }
  by rewrite Hinfer.
Qed.

End confidence_gating.

Lemma classify_intent_confidence_gating_witness :
  (IntentClassifier.classify_intent (H:=TestDouble.runtime)
     ∅ "create an agent").2 =
  inr {| intent := Some "create_agent";
         confidence := Some (Q2Qc (97 # 100));
         status := Some "success" |}.
Proof.
  refine (classify_intent_confidence_gating (H:=TestDouble.runtime)
            ∅ "create an agent" _ _ (Q2Qc (97 # 100)) 0 "create_agent"
            _ _ _ _ _ _ _).
  - intros cached Hlook. by rewrite lookup_empty in Hlook.
  - reflexivity.
  - reflexivity.
  - reflexivity.
  - intros p Hp. vm_compute in Hp.
    repeat (apply elem_of_cons in Hp as [->|Hp]); try by vm_compute.
    by apply elem_of_nil in Hp.
  - intros j p Hj. lia.
  - reflexivity.
Defined.

(** ** Batch classification *)

Section batch_classification.
Context `{Runtime}.
Import TextPreprocessor IntentClassifier.

Lemma same_ok_inr {A} (r1 r2 : Result A) :
  same_ok r1 r2 → ∀ x, r1 = inr x ↔ r2 = inr x.
Proof. destruct r1, r2; simpl; try done. intros -> x. done. Qed.

(** Stage by stage over the sub-batch, or text by text: the same maxima. *)
Lemma sub_batch_maxima_itemwise (batch : list string) :
  same_ok (sub_batch_maxima batch) (mapM top_of batch).
Proof.
  unfold sub_batch_maxima.
  induction batch as [|text batch IH]; [done|].
  cbn [mapM]. remember (top_of text) as top eqn:Htop. unfold top_of in Htop.
  destruct (transform text) as [|processed]; cbn in *; [by subst top|].
  destruct (mapM transform batch) as [|results]; cbn in *.
  { destruct top; cbn; [done|]. by destruct (mapM top_of batch). }
  destruct (intent_model (tokens processed)) as [|probs]; cbn in *;
    [by subst top|].
  destruct (mapM intent_model (tokens <$> results)) as [|probss]; cbn in *.
  { destruct top; cbn; [done|]. by destruct (mapM top_of batch). }
  destruct (torch_max probs) as [|m]; cbn in *; subst top; cbn; [done|].
  destruct (mapM torch_max probss) as [|ms], (mapM top_of batch) as [|ms'];
    cbn in *; try done.
  by subst ms'.
Qed.

Lemma sub_batch_maxima_spec (batch : list string) (maxima : list (Qc * nat)) :
  sub_batch_maxima batch = inr maxima
  ↔ Forall2 (λ text m, top_of text = inr m) batch maxima.
Proof.
  rewrite (same_ok_inr _ _ (sub_batch_maxima_itemwise batch)).
  apply mapM_Result_inr.
Qed.

Lemma format_results_spec cache (items : list (Qc * nat * string)) rs :
  (format_results cache items).2 = inr rs ↔ Forall2 formatted items rs.
Proof.
  revert cache rs.
  induction items as [|[[top idx] text] items IH]; intros cache rs; simpl.
  { split; [intros [= <-]; constructor|by intros ->%Forall2_nil_inv_l]. }
  unfold getitem. destruct (INTENT_LABELS !! idx) as [label|] eqn:Hlabel; simpl.
  - rewrite batch_result_gated.
    set (cache' := <[hash text := gated_result top label]> (expire cache)).
    specialize (IH cache').
    destruct (format_results cache' items) as [c [e|rs']]; simpl in *.
    + split; [done|].
      intros (r & rs' & _ & Hrs & _)%Forall2_cons_inv_l. by apply IH in Hrs.
    + split.
      * intros [= <-]. constructor; [by exists label|]. by apply IH.
      * intros (r & rs'' & (label' & Hl' & ->) & Hrs & ->)%Forall2_cons_inv_l.
        apply IH in Hrs. simpl in Hl'. by simplify_eq.
  - split; [done|].
    intros (r & rs' & (label & Hl' & _) & _)%Forall2_cons_inv_l.
    simpl in Hl'. congruence.
Qed.

(** Maxima followed by formatting is inference, text by text. *)
Lemma maxima_formatted_infer (batch : list string) (rs : list IntentResult) :
  (∃ maxima, Forall2 (λ text m, top_of text = inr m) batch maxima
             ∧ Forall2 formatted (zip maxima batch) rs)
  ↔ Forall2 (λ text r, infer text = inr r) batch rs.
Proof.
  split.
  - intros (maxima & Hmax & Hfmt). revert rs Hfmt.
    induction Hmax as [|text [top idx] batch maxima Htop _ IH]; intros rs; simpl.
    + intros ->%Forall2_nil_inv_l. constructor.
    + intros (r & rs' & (label & Hlabel & ->) & Hrs & ->)%Forall2_cons_inv_l.
      constructor; [|by apply IH].
      apply infer_top_of. by exists top, idx, label.
  - induction 1 as [|text r batch rs Hinfer _ (maxima & Hmax & Hfmt)].
    + exists []. split; constructor.
    + apply infer_top_of in Hinfer as (top & idx & label & Htop & Hlabel & ->).
      exists ((top, idx) :: maxima). split; constructor; try done.
      by exists label.
Qed.

(** A sub-batch fails in [batch_transform] and leaves the cache, or goes
    on with the maxima of its texts. *)
Lemma classify_sub_batch_cases cache (batch_texts : list string) :
  (∃ e, batch_transform batch_texts = inl e
        ∧ classify_sub_batch cache batch_texts = (cache, inl e))
  ∨ (is_ok (batch_transform batch_texts)
     ∧ classify_sub_batch cache batch_texts
       = match sub_batch_maxima batch_texts with
         | inl e => (cache, inl e)
         | inr maxima => format_results cache (zip maxima batch_texts)
         end).
Proof.
  unfold classify_sub_batch.
  destruct (batch_transform batch_texts) as [e|processed_batch] eqn:Hbatch.
  { left. by exists e. }
  right. split; [done|].
  apply batch_transform_inr in Hbatch as (_ & results & Hresults & _ & ->).
  unfold sub_batch_maxima. rewrite Hresults. simpl.
  by destruct (probs ← mapM intent_model (tokens <$> results);
               mapM torch_max probs).
Qed.

(** What a sub-batch returns is inference, text by text. *)
Lemma classify_sub_batch_inr cache (batch_texts : list string) rs :
  (classify_sub_batch cache batch_texts).2 = inr rs →
  Forall2 (λ text r, infer text = inr r) batch_texts rs.
Proof.
  destruct (classify_sub_batch_cases cache batch_texts)
    as [(e & _ & ->)|[_ ->]]; [done|].
  destruct (sub_batch_maxima batch_texts) as [e|maxima] eqn:Hmaxima; [done|].
  rewrite format_results_spec. intros Hfmt.
  apply maxima_formatted_infer. exists maxima.
  by apply sub_batch_maxima_spec in Hmaxima.
Qed.

Lemma classify_sub_batch_spec cache (batch_texts : list string) rs :
  batch_texts ≠ [] → stackable batch_texts →
  (classify_sub_batch cache batch_texts).2 = inr rs
  ↔ Forall2 (λ text r, infer text = inr r) batch_texts rs.
Proof.
  intros Hne Hstackable. split; [apply classify_sub_batch_inr|].
  intros (maxima & Hmax & Hfmt)%maxima_formatted_infer.
  apply sub_batch_maxima_spec in Hmax.
  destruct (classify_sub_batch_cases cache batch_texts)
    as [(e & Hfail & _)|[_ ->]].
  - rewrite batch_transform_mapM in Hfail by done.
    unfold sub_batch_maxima in Hmax.
    by destruct (mapM transform batch_texts).
  - rewrite Hmax. by apply format_results_spec.
Qed.

Lemma classify_sub_batches_inr cache (batches : list (list string)) rs :
  (classify_sub_batches cache batches).2 = inr rs →
  Forall2 (λ text r, infer text = inr r) (concat batches) rs.
Proof.
  revert cache rs.
  induction batches as [|batch batches IH]; intros cache rs; simpl.
  { intros [= <-]. constructor. }
  pose proof (classify_sub_batch_inr cache batch) as Hsub.
  destruct (classify_sub_batch cache batch) as [cache' [e|rs1]]; simpl in *;
    [done|].
  specialize (IH cache').
  destruct (classify_sub_batches cache' batches) as [c [e|rs2]]; simpl in *;
    [done|].
  intros [= <-]. apply Forall2_app; [by apply Hsub|by apply IH].
Qed.

Lemma classify_sub_batches_spec cache (batches : list (list string)) rs :
  Forall (λ batch, batch ≠ [] ∧ stackable batch) batches →
  (classify_sub_batches cache batches).2 = inr rs
  ↔ Forall2 (λ text r, infer text = inr r) (concat batches) rs.
Proof.
  intros Hne. split; [apply classify_sub_batches_inr|]. revert cache rs.
  induction Hne as [|batch batches [Hbatch Hstackable] _ IH]; intros cache rs;
    simpl.
  { by intros ->%Forall2_nil_inv_l. }
  pose proof (classify_sub_batch_spec cache batch) as Hsub.
  intros (rs1 & rs2 & Hrs1 & Hrs2 & ->)%Forall2_app_inv_l.
  apply Hsub in Hrs1; [|done..].
  destruct (classify_sub_batch cache batch) as [cache' [e|rs1']]; simpl in *;
    [done|].
  injection Hrs1 as ->. specialize (IH cache' rs2 Hrs2).
  destruct (classify_sub_batches cache' batches) as [c [e|rs2']]; simpl in *;
    [done|].
  by injection IH as ->.
Qed.

Lemma chunks_fuel_nonempty {A} (fuel n : nat) (l : list A) :
  0 < n → Forall (λ batch, batch ≠ []) (chunks_fuel fuel n l).
Proof.
  intros Hn. revert l.
  induction fuel as [|fuel IH]; intros [|x l]; simpl; try by constructor.
  destruct n as [|n]; [lia|]. constructor; [done|apply IH].
Qed.

Lemma chunks_stackable (n : nat) (texts : list string) :
  0 < n → stackable texts →
  Forall (λ batch, batch ≠ [] ∧ stackable batch) (chunks n texts).
Proof.
  intros Hn Hstackable. apply Forall_forall. intros batch Hbatch. split.
  - pose proof (chunks_fuel_nonempty (length texts) n texts Hn) as Hne.
    rewrite Forall_forall in Hne. by apply Hne.
  - eapply stackable_subseteq; [|done].
    intros text Htext. by eapply chunks_elem_of.
Qed.

(** What [classify_batch] returns is inference, text by text. *)
Lemma classify_batch_inr cache (texts : list string) rs :
  (classify_batch cache texts).2 = inr rs →
  Forall2 (λ text r, infer text = inr r) texts rs.
Proof.
  unfold classify_batch. destruct texts as [|text texts].
  { intros [= <-]. constructor. }
  set (texts' := text :: texts).
  assert (Hpos : 0 < BATCH_SIZE) by (unfold BATCH_SIZE; lia).
  pose proof (classify_sub_batches_inr cache (chunks BATCH_SIZE texts') rs)
    as Hspec.
  rewrite chunks_concat in Hspec by done.
  destruct (classify_sub_batches cache (chunks BATCH_SIZE texts'))
    as [c [e|rs']]; simpl in *; [done|]. done.
Qed.

(** On texts that the tokenizer gives rows of one width, [classify_batch]
    returns a list exactly when inference succeeds on every text of the
    batch, and the list holds the inferred results in the order of the
    texts. *)
Lemma classify_batch_spec cache (texts : list string) rs :
  stackable texts →
  (classify_batch cache texts).2 = inr rs
  ↔ Forall2 (λ text r, infer text = inr r) texts rs.
Proof.
  intros Hstackable. split; [apply classify_batch_inr|].
  unfold classify_batch. destruct texts as [|text texts].
  { by intros ->%Forall2_nil_inv_l. }
  set (texts' := text :: texts) in *.
  assert (Hpos : 0 < BATCH_SIZE) by (unfold BATCH_SIZE; lia).
  pose proof (classify_sub_batches_spec cache (chunks BATCH_SIZE texts') rs
                (chunks_stackable _ _ Hpos Hstackable)) as Hspec.
  rewrite chunks_concat in Hspec by done.
  intros Hrs%Hspec.
  destruct (classify_sub_batches cache (chunks BATCH_SIZE texts'))
    as [c [e|rs']]; simpl in *; [done|]. done.
Qed.

Lemma classify_batch_failure cache (texts : list string) e :
  (classify_batch cache texts).2 = inl e →
  e = RuntimeError "Batch classification failed".
Proof.
  unfold classify_batch. destruct texts as [|text texts]; [done|].
  destruct (classify_sub_batches cache _) as [c [e'|rs]]; simpl; [|done].
  by intros [= <-].
Qed.

(** The cache has no part in what a batch returns. *)
Lemma format_results_same_ok cache1 cache2 (items : list (Qc * nat * string)) :
  same_ok (format_results cache1 items).2 (format_results cache2 items).2.
Proof.
  destruct (format_results cache1 items).2 as [e1|rs1] eqn:H1,
    (format_results cache2 items).2 as [e2|rs2] eqn:H2; simpl; try done.
  - apply format_results_spec, (format_results_spec cache1) in H2. congruence.
  - apply format_results_spec, (format_results_spec cache2) in H1. congruence.
  - apply format_results_spec, (format_results_spec cache2) in H1. congruence.
Qed.

Lemma classify_sub_batch_same_ok cache1 cache2 (batch_texts : list string) :
  same_ok (classify_sub_batch cache1 batch_texts).2
    (classify_sub_batch cache2 batch_texts).2.
Proof.
  destruct (classify_sub_batch_cases cache1 batch_texts)
    as [(e1 & Hfail1 & ->)|[Hok1 ->]].
  - destruct (classify_sub_batch_cases cache2 batch_texts)
      as [(e2 & Hfail2 & ->)|[Hok2 ->]]; [done|].
    by rewrite Hfail1 in Hok2.
  - destruct (classify_sub_batch_cases cache2 batch_texts)
      as [(e2 & Hfail2 & ->)|[Hok2 ->]].
    { by rewrite Hfail2 in Hok1. }
    destruct (sub_batch_maxima batch_texts); [done|].
    apply format_results_same_ok.
Qed.

Lemma classify_sub_batches_same_ok cache1 cache2 (batches : list (list string)) :
  same_ok (classify_sub_batches cache1 batches).2
    (classify_sub_batches cache2 batches).2.
Proof.
  revert cache1 cache2.
  induction batches as [|batch batches IH]; intros cache1 cache2; simpl; [done|].
  pose proof (classify_sub_batch_same_ok cache1 cache2 batch) as Hsub.
  destruct (classify_sub_batch cache1 batch) as [c1 [e1|rs1]],
    (classify_sub_batch cache2 batch) as [c2 [e2|rs2]]; simpl in *; try done.
  subst rs2. specialize (IH c1 c2).
  destruct (classify_sub_batches c1 batches) as [c1' [e1|rs1']],
    (classify_sub_batches c2 batches) as [c2' [e2|rs2']]; simpl in *; try done.
  by subst rs2'.
Qed.

(** The results of [classify_batch] do not depend on the cache. *)
Lemma classify_batch_ignores_cache
    (cache1 cache2 : gmap Z IntentResult) (texts : list string) :
  (classify_batch cache1 texts).2 = (classify_batch cache2 texts).2.
Proof.
  unfold classify_batch. destruct texts as [|text texts]; [done|].
  pose proof (classify_sub_batches_same_ok cache1 cache2
                (chunks BATCH_SIZE (text :: texts))) as Hsame.
  destruct (classify_sub_batches cache1 _) as [c1 [e1|rs1]],
    (classify_sub_batches cache2 _) as [c2 [e2|rs2]]; simpl in *; try done.
  by subst rs2.
Qed.

(** One text on which inference fails makes the whole batch fail. *)
Lemma classify_batch_all_or_nothing
    (cache : gmap Z IntentResult) (texts : list string) (text : string) :
  text ∈ texts → is_ok (infer text) = false →
  (classify_batch cache texts).2 = inl (RuntimeError "Batch classification failed").
Proof.
  intros Hin Hfail.
  destruct (classify_batch cache texts).2 as [e|results] eqn:Hbatch.
  - by rewrite (classify_batch_failure _ _ _ Hbatch).
  - apply classify_batch_inr in Hbatch.
    apply list_elem_of_lookup in Hin as [i Hi].
    destruct (Forall2_lookup_l _ _ _ _ _ Hbatch Hi) as (r & _ & Hinfer).
    by rewrite Hinfer in Hfail.
Qed.

(** What a batch writes into the cache: a property of caches that expiry
    and the storing of the inference result of a text of the batch
    preserve holds of the cache the batch leaves. *)
Section cache_writes.
Variable P : gmap Z IntentResult → Prop.
Hypothesis P_expire : ∀ cache, P cache → P (expire cache).

Lemma format_results_invariant cache (items : list (Qc * nat * string)) :
  (∀ c item r, item ∈ items → formatted item r → P c →
               P (<[hash item.2 := r]> c)) →
  P cache → P (format_results cache items).1.
Proof.
  revert cache.
  induction items as [|[[top idx] text] items IH]; intros cache Hstore Hcache;
    simpl; [done|].
  unfold getitem. destruct (INTENT_LABELS !! idx) as [label|] eqn:Hlabel;
    simpl; [|done].
  rewrite batch_result_gated.
  set (cache' := <[hash text := gated_result top label]> (expire cache)).
  assert (P cache') as Hcache'.
  { apply (Hstore (expire cache) (top, idx, text)); [by left| |by apply P_expire].
    by exists label. }
  assert (P (format_results cache' items).1) as Hrest.
  { apply IH; [|done]. intros c item r Hin. apply Hstore. by right. }
  by destruct (format_results cache' items).
Qed.

Lemma classify_sub_batch_invariant cache (batch_texts : list string) :
  (∀ c text r, text ∈ batch_texts → infer text = inr r → P c →
               P (<[hash text := r]> c)) →
  P cache → P (classify_sub_batch cache batch_texts).1.
Proof.
  intros Hstore Hcache.
  destruct (classify_sub_batch_cases cache batch_texts)
    as [(e & _ & ->)|[_ ->]]; [done|].
  destruct (sub_batch_maxima batch_texts) as [e|maxima] eqn:Hmaxima; [done|].
  apply sub_batch_maxima_spec in Hmaxima.
  apply format_results_invariant; [|done].
  intros c [[top idx] text] r [i Hi]%list_elem_of_lookup (label & Hlabel & ->).
  simpl in *. apply lookup_zip_with_Some in Hi as (m & text' & [= <- <-] & Hm & Htext).
  destruct (Forall2_lookup_l _ _ _ _ _ Hmaxima Htext) as (m' & Hm' & Htop).
  rewrite Hm in Hm'. injection Hm' as <-.
  apply Hstore; [by eapply list_elem_of_lookup_2|].
  apply infer_top_of. by exists top, idx, label.
Qed.

Lemma classify_sub_batches_invariant cache (batches : list (list string)) :
  (∀ c text r, text ∈ concat batches → infer text = inr r → P c →
               P (<[hash text := r]> c)) →
  P cache → P (classify_sub_batches cache batches).1.
Proof.
  revert cache.
  induction batches as [|batch batches IH]; intros cache Hstore Hcache; simpl;
    [done|].
  assert (P (classify_sub_batch cache batch).1) as Hsub.
  { apply classify_sub_batch_invariant; [|done].
    intros c text r Hin. apply Hstore. simpl. apply elem_of_app. by left. }
  destruct (classify_sub_batch cache batch) as [cache' [e|rs]]; simpl in *;
    [done|].
  assert (P (classify_sub_batches cache' batches).1) as Hrest.
  { apply IH; [|done]. intros c text r Hin. apply Hstore. simpl.
    apply elem_of_app. by right. }
  by destruct (classify_sub_batches cache' batches).
Qed.

Lemma classify_batch_invariant cache (texts : list string) :
  (∀ c text r, text ∈ texts → infer text = inr r → P c →
               P (<[hash text := r]> c)) →
  P cache → P (classify_batch cache texts).1.
Proof.
  intros Hstore Hcache. unfold classify_batch.
  destruct texts as [|text texts]; [done|].
  assert (P (classify_sub_batches cache
               (chunks BATCH_SIZE (text :: texts))).1) as Hbatches.
  { apply classify_sub_batches_invariant; [|done].
    rewrite chunks_concat by (unfold BATCH_SIZE; lia). done. }
  by destruct (classify_sub_batches cache (chunks BATCH_SIZE (text :: texts))).
Qed.

End cache_writes.

End batch_classification.

Section batch_against_single.
Context `{Runtime}.
Import TextPreprocessor IntentClassifier.

(** C8 (amended). When the tokenizer gives the texts of the batch rows of
    one width and the inference of single-item classification
    (preprocessing, model, threshold gate) succeeds on every text of the
    batch, [classify_batch] returns a list as long as the batch whose
    position [i] holds the inference result of [texts[i]]; this is what
    [classify_intent] returns for [texts[i]] whenever the cache holds no
    entry under the key of that text, or the entry inference computes.
    [classify_batch] itself never reads the cache: it returns the same
    for every cache; and it only stores: an entry of the cache it leaves
    is an entry of the cache it was given, or the inference result of a
    text of the batch under the key of that text. *)
Theorem classify_batch_matches_single
    (cache : gmap Z IntentResult) (texts : list string) :
  stackable texts →
  Forall (λ text, is_ok (infer text)) texts →
  ∃ results,
    (classify_batch cache texts).2 = inr results
    ∧ length results = length texts
    ∧ (∀ i text, texts !! i = Some text →
         ∃ r, results !! i = Some r
              ∧ infer text = inr r
              ∧ ((∀ cached, cache !! hash text = Some cached →
                            infer text = inr cached) →
                 (classify_intent cache text).2 = inr r))
    ∧ (∀ cache', (classify_batch cache' texts).2 = inr results)
    ∧ (∀ key r, (classify_batch cache texts).1 !! key = Some r →
         cache !! key = Some r
         ∨ ∃ text, text ∈ texts ∧ hash text = key ∧ infer text = inr r).
Proof.
  intros Hstackable [results Hresults]%mapM_Result_ok.
  apply mapM_Result_inr in Hresults.
  exists results. split_and!.
  - by apply classify_batch_spec.
  - symmetry. by eapply Forall2_length.
  - intros i text Hi.
    destruct (Forall2_lookup_l _ _ _ _ _ Hresults Hi) as (r & Hr & Hinfer).
    exists r. split_and!; [done..|].
    intros Hcache. rewrite classify_intent_infer by done. by rewrite Hinfer.
  - intros cache'. by apply classify_batch_spec.
  - apply (classify_batch_invariant
             (λ c, ∀ key r, c !! key = Some r →
                cache !! key = Some r
                ∨ ∃ text, text ∈ texts ∧ hash text = key ∧ infer text = inr r)).
    + intros c Hc key r Hlook. apply Hc.
      by eapply lookup_weaken; [|apply expire_subseteq].
    + intros c text r Hin Hinfer Hc key r'. rewrite lookup_insert.
      case_decide as Hkey.
      * intros [= <-]. right. by exists text.
      * apply Hc.
    + intros key r Hlook. by left.
Qed.

End batch_against_single.

Lemma classify_batch_matches_single_witness :
  let texts := ["create an agent"; "hello, my agent"] in
  ∃ results,
    (IntentClassifier.classify_batch (H:=TestDouble.runtime) ∅ texts).2
    = inr results
    ∧ length results = 2
    ∧ (∀ i text, texts !! i = Some text →
         ∃ r, results !! i = Some r
              ∧ IntentClassifier.infer (H:=TestDouble.runtime) text = inr r
              ∧ ((∀ cached,
                    (∅ : gmap Z IntentResult) !! TestDouble.string_hash text
                    = Some cached →
                    IntentClassifier.infer (H:=TestDouble.runtime) text
                    = inr cached) →
                 (IntentClassifier.classify_intent (H:=TestDouble.runtime)
                    ∅ text).2 = inr r))
    ∧ (∀ cache',
         (IntentClassifier.classify_batch (H:=TestDouble.runtime)
            cache' texts).2 = inr results)
    ∧ (∀ key r,
         (IntentClassifier.classify_batch (H:=TestDouble.runtime) ∅ texts).1
           !! key = Some r →
         (∅ : gmap Z IntentResult) !! key = Some r
         ∨ ∃ text, text ∈ texts ∧ TestDouble.string_hash text = key
                   ∧ IntentClassifier.infer (H:=TestDouble.runtime) text
                     = inr r).
Proof.
  intros texts.
  apply (classify_batch_matches_single (H:=TestDouble.runtime) ∅ texts).
  - apply (stackable_width (H:=TestDouble.runtime) 15).
    repeat (apply Forall_cons; split; [by intros row [= <-]|]).
    apply Forall_nil. done.
  - repeat constructor.
Defined.

(** C8, as stated, fails: the first text of the batch is classified on its
    own, but the batch call raises because its second text is empty. *)
Lemma classify_batch_not_single_counterexample :
  ¬ batch_equals_single (H:=TestDouble.runtime).
Proof.
  intros Hclaim.
  destruct (Hclaim ∅ ["create an agent"; ""] 0 "create an agent"
              {| intent := Some "create_agent";
                 confidence := Some (Q2Qc (97 # 100));
                 status := Some "success" |})
    as (results & Hbatch & _); [reflexivity|reflexivity|].
  vm_compute in Hbatch. discriminate Hbatch.
Qed.

(** Rows of two widths cannot be stacked: each text is classified on its
    own, and the batch call raises. *)
Example classify_batch_rows_of_two_widths :
  Forall (λ text, is_ok (IntentClassifier.infer (H:=TestDouble.runtime) text))
    ["create an agent"; "hello"]
  ∧ (IntentClassifier.classify_batch (H:=TestDouble.runtime)
       ∅ ["create an agent"; "hello"]).2
    = inl (RuntimeError "Batch classification failed").
Proof. split; [repeat constructor|reflexivity]. Qed.

(** A stale entry shows that the cache is read by [classify_intent] only. *)
Example classify_batch_skips_cached_entry :
  let stale := {| intent := Some "help"; confidence := Some 1%Qc;
                  status := Some "success" |} in
  let cache : gmap Z IntentResult := {[ TestDouble.string_hash "hello" := stale ]} in
  (IntentClassifier.classify_intent (H:=TestDouble.runtime) cache "hello").2
  = inr stale
  ∧ (IntentClassifier.classify_batch (H:=TestDouble.runtime) cache ["hello"]).2
    = inr [{| intent := Some "unknown"; confidence := Some (Q2Qc (1 # 6));
              status := Some "low_confidence" |}].
Proof. split; reflexivity. Qed.

(** ** The entity extractor *)

Section extractor_facts.
Context `{Runtime}.
Import TextPreprocessor EntityExtractor.

Lemma make_entity_text (text : string) (idx : nat) max_prob entity_type e :
  make_entity text idx max_prob entity_type = inr e →
  e_position e = idx ∧ e_text e = slice text idx (idx + 1).
Proof.
  unfold make_entity. destruct (getitem ENTITY_TYPES entity_type); [done|].
  by intros [= <-].
Qed.

(** Every entity built by the loop of [extract_entities] sits at a scanned
    position and carries the one-character slice of the text there. *)
Lemma scan_tokens_text (text : string) (idx : nat) items entities :
  scan_tokens text idx items = inr entities →
  ∀ e, e ∈ entities →
    idx ≤ e_position e < idx + length items
    ∧ e_text e = slice text (e_position e) (e_position e + 1).
Proof.
  revert idx entities.
  induction items as [|[probs mask] items IH]; intros idx entities; simpl.
  { intros [= <-] e Hin. by apply elem_of_nil in Hin. }
  assert (Hrest : ∀ entities', scan_tokens text (S idx) items = inr entities' →
            ∀ e, e ∈ entities' →
              idx ≤ e_position e < idx + S (length items)
              ∧ e_text e = slice text (e_position e) (e_position e + 1)).
  { intros entities' Hscan e Hin.
    destruct (IH _ _ Hscan e Hin) as [Hpos Htext]. split; [lia|done]. }
  destruct (decide (mask = 0%Z)); [by apply Hrest|].
  destruct (np_max probs) as [|[max_prob entity_type]]; simpl; [done|].
  destruct (decide (_confidence_threshold ≤ max_prob)%Qc); [|by apply Hrest].
  destruct (make_entity text idx max_prob entity_type) as [|entity] eqn:Hmake;
    simpl; [done|].
  destruct (scan_tokens text (S idx) items) as [|rest] eqn:Hscan; simpl; [done|].
  intros [= <-] e [->|Hin]%elem_of_cons.
  - apply make_entity_text in Hmake as [-> ->]. split; [lia|done].
  - by eapply Hrest.
Qed.

Lemma scan_batch_tokens_text (text : string) mask_row (token_idx : nat)
    token_probs text_entities :
  scan_batch_tokens text mask_row token_idx token_probs = inr text_entities →
  ∀ e, e ∈ text_entities →
    token_idx ≤ e_position e < token_idx + length token_probs
    ∧ e_text e = slice text (e_position e) (e_position e + 1).
Proof.
  revert token_idx text_entities.
  induction token_probs as [|probs token_probs IH];
    intros token_idx text_entities; simpl.
  { intros [= <-] e Hin. by apply elem_of_nil in Hin. }
  assert (Hrest : ∀ entities',
            scan_batch_tokens text mask_row (S token_idx) token_probs
            = inr entities' →
            ∀ e, e ∈ entities' →
              token_idx ≤ e_position e < token_idx + S (length token_probs)
              ∧ e_text e = slice text (e_position e) (e_position e + 1)).
  { intros entities' Hscan e Hin.
    destruct (IH _ _ Hscan e Hin) as [Hpos Htext]. split; [lia|done]. }
  destruct (getitem mask_row token_idx) as [|mask]; simpl; [done|].
  destruct (decide (mask = 0%Z)); [by apply Hrest|].
  destruct (np_max probs) as [|[max_prob entity_type]]; simpl; [done|].
  destruct (decide (_confidence_threshold ≤ max_prob)%Qc); [|by apply Hrest].
  destruct (make_entity text token_idx max_prob entity_type) as [|entity]
    eqn:Hmake; simpl; [done|].
  destruct (scan_batch_tokens text mask_row (S token_idx) token_probs)
    as [|rest] eqn:Hscan; simpl; [done|].
  intros [= <-] e [->|Hin]%elem_of_cons.
  - apply make_entity_text in Hmake as [-> ->]. split; [lia|done].
  - by eapply Hrest.
Qed.

Lemma extract_rows_text processed_batch batch_probabilities (idx : nat)
    (batch : list string) batch_entities :
  extract_rows processed_batch batch_probabilities idx batch
  = inr batch_entities →
  Forall2 raw_slices batch batch_entities.
Proof.
  revert idx batch_entities.
  induction batch as [|text batch IH]; intros idx batch_entities; simpl.
  { intros [= <-]. constructor. }
  destruct (getitem batch_probabilities idx) as [|token_probs]; simpl; [done|].
  destruct (getitem (rows processed_batch) idx) as [|row]; simpl; [done|].
  destruct (scan_batch_tokens text (attention_mask row) 0 token_probs)
    as [|text_entities] eqn:Hscan; simpl; [done|].
  destruct (extract_rows processed_batch batch_probabilities (S idx) batch)
    as [|rest] eqn:Hrows; simpl; [done|].
  intros [= <-]. constructor; [|by eapply IH].
  intros e Hin. by destruct (scan_batch_tokens_text _ _ _ _ _ Hscan e Hin).
Qed.

Lemma extract_sub_batch_text (batch : list string) batch_entities :
  extract_sub_batch batch = inr batch_entities →
  Forall2 raw_slices batch batch_entities.
Proof.
  unfold extract_sub_batch.
  destruct (batch_transform batch) as [|processed_batch]; simpl; [done|].
  destruct (mapM entity_model (rows processed_batch)); simpl; [done|].
  apply extract_rows_text.
Qed.

Lemma extract_batch_text (texts : list string) results :
  extract_batch texts = inr results → Forall2 raw_slices texts results.
Proof.
  unfold extract_batch. destruct texts as [|text texts]; [done|].
  set (texts' := text :: texts).
  destruct (decide (_batch_size = 0)) as [|Hsize]; [by intros [=]|].
  destruct (mapM extract_sub_batch (chunks _batch_size texts'))
    as [|sub_results] eqn:Hsub; [by intros [=]|].
  intros [= <-]. apply mapM_Result_inr in Hsub.
  rewrite <- (chunks_concat _batch_size texts') by lia.
  apply Forall2_concat.
  eapply Forall2_impl; [done|]. apply extract_sub_batch_text.
Qed.

(** C7. What the code does: every entity reported by [extract_entities],
    and every entity reported for [texts[i]] by [extract_batch], has as
    its text field the slice of the raw input text from index [position]
    to [position + 1], where [position] is the index of the token. The
    index of a token is used as an offset into the characters: the text
    field is one character, and it belongs to the token only when the
    tokenizer gives one token per character. *)
Theorem entity_text_is_raw_slice :
  (∀ (text : string) entities,
     extract_entities text = inr entities →
     ∀ e, e ∈ entities →
       e_text e = slice text (e_position e) (e_position e + 1))
  ∧ (∀ (texts : list string) results,
       extract_batch texts = inr results →
       length results = length texts
       ∧ ∀ i text entities e,
           texts !! i = Some text → results !! i = Some entities →
           e ∈ entities →
           e_text e = slice text (e_position e) (e_position e + 1)).
Proof.
  split.
  - intros text entities. unfold extract_entities.
    destruct (decide (text = "")); [done|].
    destruct (transform text) as [|processed]; simpl; [done|].
    destruct (entity_model (tokens processed)) as [|probabilities]; simpl;
      [done|].
    destruct (scan_tokens text 0 _) as [|entities'] eqn:Hscan; simpl; [done|].
    intros [= <-] e Hin. by destruct (scan_tokens_text _ _ _ _ Hscan e Hin).
  - intros texts results Hbatch%extract_batch_text. split.
    + symmetry. by eapply Forall2_length.
    + intros i text entities e Hi Hres Hin.
      destruct (Forall2_lookup_l _ _ _ _ _ Hbatch Hi) as (es & Hes & Hslices).
      rewrite Hres in Hes. injection Hes as <-. by apply Hslices.
Qed.

End extractor_facts.

Lemma entity_text_is_raw_slice_witness :
  let agent := {| e_type := Some "AGENT_NAME";
                  e_confidence := Some (Q2Qc (96 # 100));
                  e_position := 0; e_text := "a" |} in
  let integration := {| e_type := Some "INTEGRATION_TYPE";
                        e_confidence := Some (Q2Qc (98 # 100));
                        e_position := 1; e_text := "z" |} in
  EntityExtractor.extract_entities (H:=TestDouble.runtime) "az b"
  = inr [agent; integration]
  ∧ ∀ e, e ∈ [agent; integration] →
      e_text e = slice "az b" (e_position e) (e_position e + 1).
Proof.
  intros agent integration. split; [reflexivity|].
  apply (proj1 (entity_text_is_raw_slice (H:=TestDouble.runtime)) "az b").
  reflexivity.
Defined.

(** With one token per word the slice at the token index is not the
    token. In the text of the extractor's test the words "sales", at
    index 2, and "zoho", at index 5, are reported with the text "e", the
    character of the text at offset 2 and at offset 5. *)
Example entity_text_word_tokens :
  let text := "create a sales agent for zoho crm" in
  String.words text
  = ["create"; "a"; "sales"; "agent"; "for"; "zoho"; "crm"]
  ∧ EntityExtractor.extract_entities (H:=WordDouble.runtime) text
    = inr [{| e_type := Some "AGENT_NAME";
              e_confidence := Some (Q2Qc (96 # 100));
              e_position := 2; e_text := "e" |};
           {| e_type := Some "INTEGRATION_TYPE";
              e_confidence := Some (Q2Qc (98 # 100));
              e_position := 5; e_text := "e" |}].
Proof. split; reflexivity. Qed.

(** ** Validation and merge *)

Section validation_facts.
Context `{Runtime}.
Import LanguageProcessor.

Lemma mapM_type_of (entities_result : list Entity) :
  Forall typed entities_result →
  ∃ found, mapM type_of entities_result = inr found
           ∧ ∀ type, type ∈ found ↔ has_type entities_result type.
Proof.
  induction 1 as [|e es [type Htype] _ (found & Hfound & Hin)].
  - exists []. split; [done|]. intros type. split.
    + by intros ?%elem_of_nil.
    + by intros (e & ?%elem_of_nil & _).
  - exists (type :: found). split.
    + assert (type_of e = inr type) as Hty
        by (unfold type_of; by rewrite Htype).
      cbn [mapM]. rewrite Hty, Hfound. done.
    + intros type'. rewrite elem_of_cons, Hin. unfold has_type. split.
      * intros [->|(e' & He' & Htype')].
        -- exists e. split; [left|done].
        -- exists e'. split; [by right|done].
      * intros (e' & [->|He']%elem_of_cons & Htype').
        -- left. congruence.
        -- right. by exists e'.
Qed.

(** The average entity confidence: zero on the empty list, otherwise the
    number whose product with the length is the sum. *)
Lemma avg_confidence_mean (entity_confidences : list Qc) :
  (avg_confidence entity_confidences * of_nat (length entity_confidences)
   = py_sum entity_confidences)%Qc
  ∧ (entity_confidences = [] → avg_confidence entity_confidences = 0%Qc).
Proof.
  split; [|by intros ->].
  destruct entity_confidences as [|x l]; [done|].
  unfold avg_confidence. field. apply of_nat_S_nonzero.
Qed.

(** The shape of a successful merge. *)
Lemma validate_results_ok intent_result entities_result missing :
  match required_entities !! default "unknown" (intent intent_result) with
  | Some required =>
      found ← mapM type_of entities_result;
      mret (elements ((list_to_set required : gset string) ∖ list_to_set found))
  | None => mret []
  end = inr missing →
  _validate_results intent_result entities_result =
  inr {| v_intent :=
           {| name := default "unknown" (intent intent_result);
              intent_confidence := default 0%Qc (confidence intent_result) |};
         entities := entities_result;
         overall_confidence :=
           ((default 0%Qc (confidence intent_result)
             + avg_confidence (confidences entities_result)) / 2)%Qc;
         validation_details :=
           {| intent_valid :=
                bool_decide (_confidence_threshold
                             ≤ default 0%Qc (confidence intent_result))%Qc;
              entities_valid :=
                bool_decide (_confidence_threshold
                             ≤ avg_confidence (confidences entities_result))%Qc;
              missing_entities := missing |} |}.
Proof.
  intros Hmissing. unfold _validate_results, validate_body.
  by rewrite Hmissing.
Qed.

Lemma missing_types_ok intent_result entities_result :
  Forall typed entities_result →
  ∃ missing,
    match required_entities !! default "unknown" (intent intent_result) with
    | Some required =>
        found ← mapM type_of entities_result;
        mret (elements ((list_to_set required : gset string) ∖ list_to_set found))
    | None => mret []
    end = inr missing.
Proof.
  intros (found & Hfound & _)%mapM_type_of. rewrite Hfound.
  destruct (required_entities !! _); by eexists.
Qed.

Lemma validate_results_typed intent_result entities_result :
  Forall typed entities_result →
  ∃ validated, _validate_results intent_result entities_result = inr validated.
Proof.
  intros [missing Hmissing]%(missing_types_ok intent_result).
  eexists. by apply validate_results_ok.
Qed.

(** A merge that returns has the fields [_validate_results] computes from
    its arguments. *)
Lemma validate_results_inv intent_result entities_result validated :
  _validate_results intent_result entities_result = inr validated →
  v_intent validated
  = {| name := default "unknown" (intent intent_result);
       intent_confidence := default 0%Qc (confidence intent_result) |}
  ∧ entities validated = entities_result
  ∧ overall_confidence validated
    = ((default 0%Qc (confidence intent_result)
        + avg_confidence (confidences entities_result)) / 2)%Qc.
Proof.
  unfold _validate_results, validate_body.
  destruct (match required_entities !! _ with Some _ => _ | None => _ end)
    as [e|missing]; simpl; [done|].
  by intros [= <-].
Qed.

(** C2. For an intent result with confidence [c] and an entity list, let
    [a] be the arithmetic mean of the entity confidences ([a] times the
    number of entities is their sum), with a = 0 when the list is empty.
    Every merge that returns has overall_confidence = (c + a) / 2, and the
    merge returns whenever the entity dictionaries carry their type. *)
Theorem overall_confidence_is_mean
    (intent_result : IntentResult) (entities_result : list Entity) (c : Qc) :
  confidence intent_result = Some c →
  ∃ a,
    (a * of_nat (length entities_result)
     = py_sum (confidences entities_result))%Qc
    ∧ (entities_result = [] → a = 0%Qc)
    ∧ (∀ validated,
         _validate_results intent_result entities_result = inr validated →
         overall_confidence validated = ((c + a) / 2)%Qc)
    ∧ (Forall typed entities_result →
       ∃ validated,
         _validate_results intent_result entities_result = inr validated).
Proof.
  intros Hc.
  destruct (avg_confidence_mean (confidences entities_result)) as [Hmean Hnil].
  exists (avg_confidence (confidences entities_result)). split_and!.
  - unfold confidences in *. by rewrite length_fmap in Hmean.
  - by intros ->.
  - intros validated (_ & _ & ->)%validate_results_inv. by rewrite Hc.
  - apply validate_results_typed.
Qed.

End validation_facts.

Lemma overall_confidence_is_mean_witness :
  let intent_result := {| intent := Some "create_agent";
                          confidence := Some (Q2Qc (97 # 100));
                          status := Some "success" |} in
  let entities_result :=
    [{| e_type := Some "AGENT_NAME"; e_confidence := Some (Q2Qc (96 # 100));
        e_position := 0; e_text := "a" |};
     {| e_type := Some "INTEGRATION_TYPE"; e_confidence := Some (Q2Qc (98 # 100));
        e_position := 1; e_text := "z" |}] in
  ∃ a,
    (a * of_nat 2 = py_sum (confidences entities_result))%Qc
    ∧ (entities_result = [] → a = 0%Qc)
    ∧ (∀ validated,
         LanguageProcessor._validate_results (H:=TestDouble.runtime)
           intent_result entities_result = inr validated →
         LanguageProcessor.overall_confidence validated
         = ((Q2Qc (97 # 100) + a) / 2)%Qc)
    ∧ (Forall typed entities_result →
       ∃ validated,
         LanguageProcessor._validate_results (H:=TestDouble.runtime)
           intent_result entities_result = inr validated).
Proof.
  intros intent_result entities_result.
  apply (overall_confidence_is_mean (H:=TestDouble.runtime)
           intent_result entities_result (Q2Qc (97 # 100))).
  reflexivity.
Defined.

(** On the test double: intent confidence 0.97, entity confidences 0.96
    and 0.98, overall confidence 0.97. *)
Example overall_confidence_example :
  ∃ validated,
    LanguageProcessor._validate_results (H:=TestDouble.runtime)
      {| intent := Some "create_agent"; confidence := Some (Q2Qc (97 # 100));
         status := Some "success" |}
      [{| e_type := Some "AGENT_NAME"; e_confidence := Some (Q2Qc (96 # 100));
          e_position := 0; e_text := "a" |};
       {| e_type := Some "INTEGRATION_TYPE";
          e_confidence := Some (Q2Qc (98 # 100));
          e_position := 1; e_text := "z" |}] = inr validated
    ∧ LanguageProcessor.overall_confidence validated = Q2Qc (97 # 100)
    ∧ LanguageProcessor.missing_entities
        (LanguageProcessor.validation_details validated) = [].
Proof.
  eexists. split; [reflexivity|]. split; [|reflexivity].
  apply Qc_is_canon. reflexivity.
Qed.

Section required_entities_facts.
Context `{Runtime}.
Import LanguageProcessor.

(** C3. When the detected intent is a key of the table of required
    entities, the merge of a typed entity list succeeds and its
    missing_entities lists, without repetition, exactly the required types
    that no extracted entity has; for intent "create_agent" with an
    AGENT_NAME entity and no INTEGRATION_TYPE entity it is exactly
    ["INTEGRATION_TYPE"]; for an intent outside the table it is []. *)
Theorem missing_entities_is_set_difference
    (intent_result : IntentResult) (entities_result : list Entity) :
  let detected := default "unknown" (intent intent_result) in
  (∀ required,
     required_entities !! detected = Some required →
     Forall typed entities_result →
     ∃ validated,
       _validate_results intent_result entities_result = inr validated
       ∧ NoDup (missing_entities (validation_details validated))
       ∧ ∀ type,
           type ∈ missing_entities (validation_details validated)
           ↔ type ∈ required ∧ ¬ has_type entities_result type)
  ∧ (detected = "create_agent" →
     Forall typed entities_result →
     has_type entities_result "AGENT_NAME" →
     ¬ has_type entities_result "INTEGRATION_TYPE" →
     ∃ validated,
       _validate_results intent_result entities_result = inr validated
       ∧ missing_entities (validation_details validated) = ["INTEGRATION_TYPE"])
  ∧ (required_entities !! detected = None →
     ∃ validated,
       _validate_results intent_result entities_result = inr validated
       ∧ missing_entities (validation_details validated) = []).
Proof.
  intros detected. split_and!.
  - intros required Hrequired (found & Hfound & Hin)%mapM_type_of.
    eexists. split_and!.
    + apply validate_results_ok. fold detected. rewrite Hrequired, Hfound. done.
    + simpl. apply NoDup_elements.
    + intros type. simpl.
      rewrite elem_of_elements, elem_of_difference, !elem_of_list_to_set.
      by rewrite Hin.
  - intros Hdetected (found & Hfound & Hin)%mapM_type_of Hagent Hintegration.
    eexists. split.
    + apply validate_results_ok. fold detected. rewrite Hdetected, Hfound.
      change (required_entities !! "create_agent")
        with (Some ["AGENT_NAME"; "INTEGRATION_TYPE"]).
      done.
    + cbn [missing_entities validation_details].
      apply Hin in Hagent. rewrite <- Hin in Hintegration.
      assert ((list_to_set ["AGENT_NAME"; "INTEGRATION_TYPE"] : gset string)
              ∖ list_to_set found = {["INTEGRATION_TYPE"]}) as ->.
      { apply set_eq. intros type.
        rewrite elem_of_difference, !elem_of_list_to_set, elem_of_singleton.
        rewrite !elem_of_cons, elem_of_nil. split.
        - intros [[->|[->|[]]] Hnot]; [done|done].
        - intros ->. split; [by right; left|done]. }
      apply elements_singleton.
  - intros Hnone. eexists. split.
    + apply validate_results_ok. fold detected. by rewrite Hnone.
    + done.
Qed.

End required_entities_facts.

Lemma missing_entities_is_set_difference_witness :
  let intent_result := {| intent := Some "create_agent";
                          confidence := Some (Q2Qc (97 # 100));
                          status := Some "success" |} in
  let entities_result :=
    [{| e_type := Some "AGENT_NAME"; e_confidence := Some (Q2Qc (96 # 100));
        e_position := 0; e_text := "a" |}] in
  ∃ validated,
    LanguageProcessor._validate_results (H:=TestDouble.runtime)
      intent_result entities_result = inr validated
    ∧ LanguageProcessor.missing_entities
        (LanguageProcessor.validation_details validated)
      = ["INTEGRATION_TYPE"].
Proof.
  intros intent_result entities_result.
  apply (proj1 (proj2 (missing_entities_is_set_difference
                         (H:=TestDouble.runtime) intent_result entities_result))).
  - reflexivity.
  - repeat (constructor; [by eexists|]). constructor.
  - eexists. split; [by left|reflexivity].
  - intros (e & He & Htype). vm_compute in He.
    apply elem_of_cons in He as [->|He]; [discriminate|by apply elem_of_nil in He].
Defined.

(** ** The orchestrator: single requests *)

Section process_text_facts.
Context `{Runtime}.
Import TextPreprocessor IntentClassifier EntityExtractor LanguageProcessor.

Lemma process_text_body_metrics (st : Processor) (text : string) :
  _performance_metrics (process_text_body st text).1 = _performance_metrics st.
Proof.
  unfold process_text_body.
  destruct (decide (text = "")); [done|].
  destruct (decide (_ < _)); [done|].
  destruct (transform text); [done|].
  unfold dispatch. simpl.
  by destruct (classify_intent (classifier_cache st) text).
Qed.

(** A request whose text passes validation and preprocessing is
    dispatched to both collaborators. *)
Lemma process_text_body_dispatched (st : Processor) (text : string) processed :
  text ≠ "" →
  String.length text ≤ MAX_SEQUENCE_LENGTH config →
  transform text = inr processed →
  (process_text_body st text).2 =
    match (classify_intent (classifier_cache st) text).2,
          extract_entities text with
    | inl e, _ => inl e
    | inr _, inl e => inl e
    | inr intent_result, inr entities_result =>
        _validate_results intent_result entities_result
    end
  ∧ classifier_cache (process_text_body st text).1
    = (classify_intent (classifier_cache st) text).1
  ∧ trace (process_text_body st text).1
    = trace st ++ [CallTransform text; CallClassifyIntent text;
                   CallExtractEntities text].
Proof.
  intros Hne Hlen Htransform. unfold process_text_body.
  destruct (decide (text = "")); [done|].
  destruct (decide (_ < _)); [lia|].
  rewrite Htransform. unfold dispatch.
  change (classifier_cache (record_calls st [CallTransform text]))
    with (classifier_cache st).
  destruct (classify_intent (classifier_cache st) text) as [cache [e|ir]];
    simpl; [by rewrite <- app_assoc|].
  destruct (extract_entities text); simpl; by rewrite <- app_assoc.
Qed.

(** The cache after a request is the one the classifier leaves, or the
    one before the request when the classifier is not reached. *)
Lemma process_text_cache (st : Processor) (t0 t1 : Qc) (text : string) :
  classifier_cache (process_text st t0 t1 text).1 = classifier_cache st
  ∨ classifier_cache (process_text st t0 t1 text).1
    = (classify_intent (classifier_cache st) text).1.
Proof.
  assert (classifier_cache (process_text_body st text).1 = classifier_cache st
          ∨ classifier_cache (process_text_body st text).1
            = (classify_intent (classifier_cache st) text).1) as Hbody.
  { unfold process_text_body.
    destruct (decide (text = "")); [by left|].
    destruct (decide (_ < _)); [by left|].
    destruct (transform text); [by left|]. right.
    unfold dispatch.
    change (classifier_cache (record_calls st [CallTransform text]))
      with (classifier_cache st).
    by destruct (classify_intent (classifier_cache st) text). }
  unfold process_text.
  by destruct (process_text_body st text) as [st' [e|validated]].
Qed.

(** The outcome of a request depends on the state of the orchestrator
    through the outcome of the classifier only. *)
Lemma process_text_outcome_classifier (st st' : Processor) (t0 t1 : Qc)
    (text : string) :
  (classify_intent (classifier_cache st) text).2
  = (classify_intent (classifier_cache st') text).2 →
  (process_text st t0 t1 text).2 = (process_text st' t0 t1 text).2.
Proof.
  intros Hclassify.
  assert ((process_text_body st text).2 = (process_text_body st' text).2)
    as Hbody.
  { unfold process_text_body.
    destruct (decide (text = "")); [done|].
    destruct (decide (_ < _)); [done|].
    destruct (transform text); [done|].
    unfold dispatch.
    change (classifier_cache (record_calls ?s [CallTransform text]))
      with (classifier_cache s).
    destruct (classify_intent (classifier_cache st) text) as [c1 r1],
      (classify_intent (classifier_cache st') text) as [c2 r2].
    simpl in *. by subst r2. }
  unfold process_text.
  destruct (process_text_body st text) as [s1 r1],
    (process_text_body st' text) as [s2 r2].
  simpl in Hbody. subst r2. by destruct r1.
Qed.

(** [process_text] updates the metrics exactly once, through
    [_update_metrics]. *)
Lemma process_text_metrics (st : Processor) (t0 t1 : Qc) (text : string) :
  _performance_metrics (process_text st t0 t1 text).1 =
  match (process_text st t0 t1 text).2 with
  | inr _ =>
      _update_metrics (_performance_metrics st) true (t1 - t0)%Qc None
  | inl e =>
      _update_metrics (_performance_metrics st) false 0%Qc (Some (str e))
  end.
Proof.
  unfold process_text.
  pose proof (process_text_body_metrics st text) as Hmetrics.
  destruct (process_text_body st text) as [st' [e|validated]]; simpl in *;
    by rewrite Hmetrics.
Qed.

Lemma update_metrics_consistent (metrics : Metrics) success processing_time error :
  metrics_consistent metrics →
  metrics_consistent (_update_metrics metrics success processing_time error).
Proof. unfold metrics_consistent. destruct success; simpl; lia. Qed.

Lemma process_text_consistent (st : Processor) (t0 t1 : Qc) (text : string) :
  metrics_consistent (_performance_metrics st) →
  metrics_consistent (_performance_metrics (process_text st t0 t1 text).1).
Proof.
  intros Hm. rewrite process_text_metrics.
  destruct (process_text st t0 t1 text).2; by apply update_metrics_consistent.
Qed.

(** C5. A text that is empty or longer than the configured maximum makes
    [process_text] fail with an input-validation failure ([ValueError]); no
    call into the preprocessor, the classifier or the extractor is made (the
    call trace and the classifier's cache are unchanged), and
    failed_requests and total_requests each grow by exactly one. *)
Theorem process_text_rejects_invalid_input
    (st : Processor) (t0 t1 : Qc) (text : string) :
  text = "" ∨ MAX_SEQUENCE_LENGTH config < String.length text →
  ∃ msg st',
    process_text st t0 t1 text = (st', inl (ValueError msg))
    ∧ trace st' = trace st
    ∧ classifier_cache st' = classifier_cache st
    ∧ total_requests (_performance_metrics st')
      = S (total_requests (_performance_metrics st))
    ∧ failed_requests (_performance_metrics st')
      = S (failed_requests (_performance_metrics st))
    ∧ successful_requests (_performance_metrics st')
      = successful_requests (_performance_metrics st).
Proof.
  intros Hinvalid. unfold process_text, process_text_body.
  destruct (decide (text = "")) as [|Hne]; [by eexists _, _|].
  destruct (decide (MAX_SEQUENCE_LENGTH config < String.length text));
    [by eexists _, _|].
  by destruct Hinvalid.
Qed.

(** C1. If the intent classification or the entity extraction of a
    request raises, [process_text] raises: it returns no result, and the
    request counts as failed. When the request reaches the dispatch (its
    text passes validation and preprocessing) the error raised is the one
    of the classifier if it raised, and otherwise the one of the extractor;
    the result of the other call appears nowhere in the outcome. *)
Theorem process_text_fails_atomically
    (st : Processor) (t0 t1 : Qc) (text : string) :
  let intent_outcome := (classify_intent (classifier_cache st) text).2 in
  let entities_outcome := extract_entities text in
  is_ok intent_outcome = false ∨ is_ok entities_outcome = false →
  ∃ e,
    (process_text st t0 t1 text).2 = inl e
    ∧ failed_requests (_performance_metrics (process_text st t0 t1 text).1)
      = S (failed_requests (_performance_metrics st))
    ∧ successful_requests (_performance_metrics (process_text st t0 t1 text).1)
      = successful_requests (_performance_metrics st)
    ∧ (text ≠ "" →
       String.length text ≤ MAX_SEQUENCE_LENGTH config →
       is_ok (transform text) →
       intent_outcome = inl e
       ∨ (is_ok intent_outcome ∧ entities_outcome = inl e)).
Proof.
  intros intent_outcome entities_outcome Hraises.
  assert (∃ e, (process_text st t0 t1 text).2 = inl e
               ∧ (text ≠ "" →
                  String.length text ≤ MAX_SEQUENCE_LENGTH config →
                  is_ok (transform text) →
                  intent_outcome = inl e
                  ∨ (is_ok intent_outcome ∧ entities_outcome = inl e)))
    as (e & He & Hwhich).
  { unfold process_text.
    destruct (decide (text = "")) as [->|Hne].
    { unfold process_text_body. simpl. by eexists. }
    destruct (decide (MAX_SEQUENCE_LENGTH config < String.length text)) as [|Hlen].
    { unfold process_text_body.
      destruct (decide (text = "")); [done|].
      destruct (decide (_ < _)); [|done]. eexists. split; [done|lia]. }
    destruct (transform text) as [e|processed] eqn:Htransform.
    { unfold process_text_body.
      destruct (decide (text = "")); [done|].
      destruct (decide (_ < _)); [done|]. rewrite Htransform.
      by eexists. }
    destruct (process_text_body_dispatched st text processed)
      as (Hbody & _); [done|lia|done|].
    destruct (process_text_body st text) as [st' outcome]. simpl in Hbody.
    subst outcome intent_outcome entities_outcome.
    destruct (classify_intent (classifier_cache st) text).2 as [e|ir].
    - exists e. split; [done|]. by left.
    - destruct (extract_entities text) as [e|entities].
      + exists e. split; [done|]. by right.
      + by destruct Hraises. }
  exists e. rewrite process_text_metrics, He. by split_and!.
Qed.

End process_text_facts.

Lemma process_text_rejects_invalid_input_witness :
  ∃ msg st',
    LanguageProcessor.process_text (H:=TestDouble.runtime)
      LanguageProcessor.init 0%Qc 1%Qc "" = (st', inl (ValueError msg))
    ∧ LanguageProcessor.trace st' = []
    ∧ LanguageProcessor.classifier_cache st' = ∅
    ∧ LanguageProcessor.total_requests
        (LanguageProcessor._performance_metrics st') = 1
    ∧ LanguageProcessor.failed_requests
        (LanguageProcessor._performance_metrics st') = 1
    ∧ LanguageProcessor.successful_requests
        (LanguageProcessor._performance_metrics st') = 0.
Proof.
  apply (process_text_rejects_invalid_input (H:=TestDouble.runtime)
           LanguageProcessor.init 0%Qc 1%Qc "").
  left. reflexivity.
Defined.

Lemma process_text_fails_atomically_witness :
  ∃ e,
    (LanguageProcessor.process_text (H:=TestDouble.runtime)
       LanguageProcessor.init 0%Qc 1%Qc "c!").2 = inl e
    ∧ LanguageProcessor.failed_requests
        (LanguageProcessor._performance_metrics
           (LanguageProcessor.process_text (H:=TestDouble.runtime)
              LanguageProcessor.init 0%Qc 1%Qc "c!").1) = 1
    ∧ LanguageProcessor.successful_requests
        (LanguageProcessor._performance_metrics
           (LanguageProcessor.process_text (H:=TestDouble.runtime)
              LanguageProcessor.init 0%Qc 1%Qc "c!").1) = 0
    ∧ ("c!" ≠ "" →
       String.length "c!" ≤ MAX_SEQUENCE_LENGTH default_config →
       is_ok (TextPreprocessor.transform (H:=TestDouble.runtime) "c!") →
       (IntentClassifier.classify_intent (H:=TestDouble.runtime) ∅ "c!").2
       = inl e
       ∨ (is_ok (IntentClassifier.classify_intent (H:=TestDouble.runtime)
                   ∅ "c!").2
          ∧ EntityExtractor.extract_entities (H:=TestDouble.runtime) "c!"
            = inl e)).
Proof.
  apply (process_text_fails_atomically (H:=TestDouble.runtime)
           LanguageProcessor.init 0%Qc 1%Qc "c!").
  right. reflexivity.
Defined.

(** ** The orchestrator: batches *)

Section process_batch_facts.
Context `{Runtime}.
Import TextPreprocessor IntentClassifier EntityExtractor LanguageProcessor.

Variable stamps : nat → Qc * Qc.
Variable texts : list string.

(** A property of the orchestrator state that every request preserves. *)
Variable P : Processor → Prop.
Hypothesis P_process_text :
  ∀ st t0 t1 text, P st → P (process_text st t0 t1 text).1.

Lemma run_task_invariant acc idx :
  P acc.1 → P (run_task stamps texts acc idx).1.
Proof.
  intros Hacc. unfold run_task. destruct (texts !! idx) as [text|]; [|done].
  specialize (P_process_text acc.1 (stamps idx).1 (stamps idx).2 text Hacc).
  by destruct (process_text acc.1 (stamps idx).1 (stamps idx).2 text).
Qed.

Lemma run_tasks_fold_invariant order acc :
  P acc.1 → P (foldl (run_task stamps texts) acc order).1.
Proof.
  revert acc. induction order as [|idx order IH]; intros acc Hacc; [done|].
  simpl. by apply IH, run_task_invariant.
Qed.

(** Every stored outcome is the outcome of the request for the text at
    that index, run from a state that satisfies the invariant. *)
Lemma run_tasks_fold_outcomes order acc i outcome :
  P acc.1 →
  (foldl (run_task stamps texts) acc order).2 !! i = Some outcome →
  acc.2 !! i = Some outcome
  ∨ ∃ s text,
      P s ∧ texts !! i = Some text
      ∧ outcome = (process_text s (stamps i).1 (stamps i).2 text).2.
Proof.
  revert acc. induction order as [|idx order IH]; intros acc Hacc; simpl.
  { by left. }
  intros [Hstored|Hrun]%IH; [|by right|by apply run_task_invariant].
  unfold run_task in Hstored.
  destruct (texts !! idx) as [text|] eqn:Htext; [|by left].
  destruct (process_text acc.1 (stamps idx).1 (stamps idx).2 text)
    as [st' outcome'] eqn:Hrun.
  simpl in Hstored. rewrite lookup_insert in Hstored.
  case_decide as Hidx; [|by left].
  subst idx. injection Hstored as <-. right.
  exists acc.1, text. by rewrite Hrun.
Qed.

(** Every task that is scheduled has an outcome at the end. *)
Lemma run_tasks_fold_complete order acc i :
  (i ∈ order ∧ is_Some (texts !! i)) ∨ is_Some (acc.2 !! i) →
  is_Some ((foldl (run_task stamps texts) acc order).2 !! i).
Proof.
  revert acc. induction order as [|idx order IH]; intros acc; simpl.
  { intros [[Hin%elem_of_nil _]|Hacc]; done. }
  intros Hcase. apply IH.
  destruct (decide (i = idx)) as [->|Hne].
  - right. unfold run_task.
    destruct Hcase as [[_ [text Htext]]|Hacc].
    + rewrite Htext.
      destruct (process_text acc.1 (stamps idx).1 (stamps idx).2 text).
      simpl. rewrite lookup_insert_eq. by eexists.
    + destruct (texts !! idx) as [text|]; [|done].
      destruct (process_text acc.1 (stamps idx).1 (stamps idx).2 text).
      simpl. rewrite lookup_insert_eq. by eexists.
  - destruct Hcase as [[Hin Htext]|Hacc].
    + left. apply elem_of_cons in Hin as [|]; done.
    + right. unfold run_task. destruct (texts !! idx) as [text|]; [|done].
      destruct (process_text acc.1 (stamps idx).1 (stamps idx).2 text).
      simpl. by rewrite lookup_insert_ne.
Qed.

(** The loop over the gathered outcomes builds one item per outcome, from
    the text at the same index. *)
Lemma collect_results_spec (idx : nat) (results : list (Result ProcessResult)) :
  idx + length results ≤ length texts →
  ∃ items,
    collect_results texts idx results = inr items
    ∧ length items = length results
    ∧ ∀ i outcome, results !! i = Some outcome →
        ∃ text, texts !! (idx + i) = Some text
                ∧ items !! i = Some (item_of text outcome).
Proof.
  revert idx. induction results as [|result results IH]; intros idx Hlen.
  { exists []. by split_and!. }
  simpl in Hlen.
  destruct (IH (S idx)) as (items & Hitems & Hlength & Hlookup); [lia|].
  destruct (lookup_lt_is_Some_2 texts idx) as [text Htext]; [lia|].
  exists (item_of text result :: items). split_and!.
  - simpl. rewrite Hitems. unfold getitem. rewrite Htext.
    by destruct result.
  - simpl. by rewrite Hlength.
  - intros [|i] outcome Hi; simpl in *.
    + injection Hi as <-. exists text. by rewrite Nat.add_0_r.
    + destruct (Hlookup i outcome Hi) as (text' & Htext' & Hitem).
      exists text'. by rewrite <- Nat.add_succ_comm.
Qed.

(** Whatever the order in which the tasks run, [process_batch] preserves
    the invariant. *)
Lemma process_batch_invariant st order st' outcome :
  process_batch st stamps order texts = Some (st', outcome) →
  P st → P st'.
Proof.
  unfold process_batch, run_tasks. intros Hbatch Hst.
  destruct (decide (texts = [] ∨ _batch_size_limit < length texts)).
  { by injection Hbatch as <- _. }
  pose proof (run_tasks_fold_invariant order (st, ∅) Hst) as Hinv.
  destruct (foldl (run_task stamps texts) (st, ∅) order) as [st'' outcomes].
  destruct (gather outcomes (length texts)); simpl in *; [|done].
  by injection Hbatch as <- _.
Qed.

(** A valid batch, run in any order that schedules every task once. *)
Lemma process_batch_valid st order :
  P st →
  texts ≠ [] →
  length texts ≤ _batch_size_limit →
  order ≡ₚ seq 0 (length texts) →
  ∃ st' items,
    process_batch st stamps order texts = Some (st', inr items)
    ∧ length items = length texts
    ∧ ∀ i text, texts !! i = Some text →
        ∃ s, P s
             ∧ items !! i
               = Some (item_of text
                         (process_text s (stamps i).1 (stamps i).2 text).2).
Proof.
  intros Hst Hne Hlimit Horder. unfold process_batch, run_tasks.
  destruct (decide (texts = [] ∨ _batch_size_limit < length texts))
    as [[|]|_]; [done|lia|].
  pose proof (run_tasks_fold_outcomes order (st, ∅)) as Houtcomes.
  pose proof (run_tasks_fold_complete order (st, ∅)) as Hcomplete.
  destruct (foldl (run_task stamps texts) (st, ∅) order) as [st' outcomes].
  simpl in *.
  assert (is_Some (gather outcomes (length texts))) as [results Hgather].
  { apply mapM_is_Some_2, Forall_forall. intros idx Hidx. simpl.
    apply Hcomplete. left. split.
    - by rewrite Horder.
    - apply lookup_lt_is_Some_2. apply elem_of_seq in Hidx. lia. }
  rewrite Hgather. simpl.
  apply mapM_Some_1 in Hgather.
  assert (Hlen : length results = length texts).
  { apply Forall2_length in Hgather. by rewrite length_seq in Hgather. }
  destruct (collect_results_spec 0 results) as (items & -> & Hitems & Hlookup);
    [lia|].
  exists st', items. split_and!; [done|lia|].
  intros i text Htext.
  assert (Hi : i < length texts) by by eapply lookup_lt_Some.
  destruct (lookup_lt_is_Some_2 results i) as [outcome Houtcome]; [lia|].
  destruct (Hlookup i outcome Houtcome) as (text' & Htext' & Hitem).
  simpl in Htext'. rewrite Htext in Htext'. injection Htext' as <-.
  destruct (Forall2_lookup_r _ _ _ _ _ Hgather Houtcome) as (idx & Hidx & Hout).
  apply lookup_seq in Hidx as [-> _]. simpl in Hout.
  destruct (Houtcomes i outcome Hst Hout) as [Hempty|(s & text' & Hs & Htext' & ->)].
  { by rewrite lookup_empty in Hempty. }
  rewrite Htext in Htext'. injection Htext' as <-.
  by exists s.
Qed.

End process_batch_facts.

Section batch_claims.
Context `{Runtime}.
Import TextPreprocessor IntentClassifier EntityExtractor LanguageProcessor.

Lemma process_text_coherent (st : Processor) (t0 t1 : Qc) (text : string) :
  Inj (=) (=) hash →
  coherent (classifier_cache st) →
  coherent (classifier_cache (process_text st t0 t1 text).1).
Proof.
  intros Hinj Hc.
  destruct (process_text_cache st t0 t1 text) as [-> | ->]; [done|].
  by apply classify_intent_coherent.
Qed.

(** With coherent caches the outcome of a request is a function of its
    text and clock readings. *)
Lemma process_text_outcome_coherent (st st' : Processor) (t0 t1 : Qc)
    (text : string) :
  coherent (classifier_cache st) →
  coherent (classifier_cache st') →
  (process_text st t0 t1 text).2 = (process_text st' t0 t1 text).2.
Proof.
  intros Hc Hc'. apply process_text_outcome_classifier.
  rewrite !classify_intent_infer; [done|..].
  - intros cached. apply Hc'.
  - intros cached. apply Hc.
Qed.

(** C4. For a valid batch (not empty, within the ceiling) whose tasks
    complete in any order, [process_batch] returns a list as long as the
    batch; position [i] holds the item of a run of [process_text] on
    [texts[i]]: its result when it succeeds, and when it raises [e] the
    error record with error [str e] and original_text [texts[i]]. No
    failure of an item makes the batch fail. When the keys of the cache
    do not collide and the cache is coherent, position [i] is the item
    of [process_text] on [texts[i]] run alone from the state before the
    batch, so that no item, failing or not, alters another. *)
Theorem process_batch_positional
    (st : Processor) (stamps : nat → Qc * Qc) (order : list nat)
    (texts : list string) :
  texts ≠ [] →
  length texts ≤ _batch_size_limit →
  order ≡ₚ seq 0 (length texts) →
  ∃ st' items,
    process_batch st stamps order texts = Some (st', inr items)
    ∧ length items = length texts
    ∧ (∀ i text, texts !! i = Some text →
         ∃ s, items !! i
              = Some (item_of text
                        (process_text s (stamps i).1 (stamps i).2 text).2))
    ∧ (Inj (=) (=) hash →
       coherent (classifier_cache st) →
       ∀ i text, texts !! i = Some text →
         items !! i
         = Some (item_of text
                   (process_text st (stamps i).1 (stamps i).2 text).2)).
Proof.
  intros Hne Hlimit Horder.
  destruct (process_batch_valid stamps texts (λ _, True) (λ _ _ _ _ _, I)
              st order I Hne Hlimit Horder)
    as (st' & items & Hbatch & Hlen & Hitems).
  exists st', items. split_and!; [done|done|..].
  - intros i text Htext. destruct (Hitems i text Htext) as (s & _ & Hitem).
    by exists s.
  - intros Hinj Hc i text Htext.
    destruct (process_batch_valid stamps texts
                (λ s, coherent (classifier_cache s))
                (λ s t0 t1 t, process_text_coherent s t0 t1 t Hinj)
                st order Hc Hne Hlimit Horder)
      as (st'' & items' & Hbatch' & _ & Hitems').
    rewrite Hbatch in Hbatch'. injection Hbatch' as _ <-.
    destruct (Hitems' i text Htext) as (s & Hs & ->).
    by rewrite (process_text_outcome_coherent s st).
Qed.

(** C9. A batch longer than the configured ceiling is refused before any
    item is processed: the state, the call trace included, is unchanged.
    The failure that reaches the caller is the [RuntimeError] that the
    handler of [process_batch] raises for every failure, and not the
    [ValueError] of the size check. *)
Theorem process_batch_oversized
    (st : Processor) (stamps : nat → Qc * Qc) (order : list nat)
    (texts : list string) :
  _batch_size_limit < length texts →
  ∃ e,
    process_batch st stamps order texts = Some (st, inl e)
    ∧ e = RuntimeError ("Batch processing failed: Invalid batch size. Limit: "
                        +:+ pretty _batch_size_limit)
    ∧ is_ValueError e = false.
Proof.
  intros Hlen. unfold process_batch.
  destruct (decide (texts = [] ∨ _batch_size_limit < length texts))
    as [_|Hvalid]; [by eexists|].
  exfalso. apply Hvalid. by right.
Qed.

(** C10. In every state of the orchestrator, from its construction on,
    total_requests is the sum of successful_requests and failed_requests,
    and every update of the metrics keeps it so. A failed request updates
    the metrics with a processing time of zero: the new average latency is
    (old average * old total + 0) / (old total + 1). *)
Theorem metrics_invariant :
  (∀ st, reachable st → metrics_consistent (_performance_metrics st))
  ∧ (∀ metrics success processing_time error,
       metrics_consistent metrics →
       metrics_consistent (_update_metrics metrics success processing_time error))
  ∧ (∀ st t0 t1 text e,
       (process_text st t0 t1 text).2 = inl e →
       let before := _performance_metrics st in
       let after := _performance_metrics (process_text st t0 t1 text).1 in
       after = _update_metrics before false 0%Qc (Some (str e))
       ∧ average_latency after
         = ((average_latency before * of_nat (total_requests before) + 0)
            / of_nat (S (total_requests before)))%Qc).
Proof.
  split_and!.
  - induction 1 as [|st t0 t1 text _ IH|st stamps order texts st' outcome _ IH Hbatch].
    + reflexivity.
    + by apply process_text_consistent.
    + eapply (process_batch_invariant stamps texts
                (λ s, metrics_consistent (_performance_metrics s))); [|done..].
      intros s t0 t1 text. apply process_text_consistent.
  - apply update_metrics_consistent.
  - intros st t0 t1 text e Hfail before after. subst before after.
    rewrite process_text_metrics, Hfail. split; [done|]. simpl.
    rewrite of_nat_S. f_equal. ring.
Qed.

End batch_claims.

Lemma process_batch_positional_witness :
  let stamps := λ _ : nat, (0%Qc, 1%Qc) in
  let texts := ["ca"; "x"; "caz"] in
  let order := [1; 0; 2] in
  ∃ st' items,
    LanguageProcessor.process_batch (H:=TestDouble.runtime)
      LanguageProcessor.init stamps order texts = Some (st', inr items)
    ∧ length items = 3
    ∧ (∀ i text, texts !! i = Some text →
         ∃ s, items !! i
              = Some (item_of text
                        (LanguageProcessor.process_text (H:=TestDouble.runtime)
                           s (stamps i).1 (stamps i).2 text).2))
    ∧ (Inj (=) (=) TestDouble.string_hash →
       coherent (H:=TestDouble.runtime) ∅ →
       ∀ i text, texts !! i = Some text →
         items !! i
         = Some (item_of text
                   (LanguageProcessor.process_text (H:=TestDouble.runtime)
                      LanguageProcessor.init (stamps i).1 (stamps i).2 text).2)).
Proof.
  intros stamps texts order.
  apply (process_batch_positional (H:=TestDouble.runtime)
           LanguageProcessor.init stamps order texts).
  - discriminate.
  - vm_compute. lia.
  - apply perm_swap.
Defined.

(** The scenario of a batch of three texts whose second item fails. *)
Example process_batch_second_item_fails :
  ∃ st' first third,
    LanguageProcessor.process_batch (H:=TestDouble.runtime)
      LanguageProcessor.init (λ _, (0%Qc, 1%Qc)) [1; 0; 2] ["ca"; "x"; "caz"]
    = Some (st',
            inr [LanguageProcessor.ItemResult first;
                 LanguageProcessor.ItemError "Intent classification failed" "x";
                 LanguageProcessor.ItemResult third]).
Proof. eexists _, _, _. vm_compute. reflexivity. Qed.

Lemma process_batch_oversized_witness :
  ∃ e,
    LanguageProcessor.process_batch (H:=TestDouble.runtime)
      LanguageProcessor.init (λ _, (0%Qc, 1%Qc)) (seq 0 33) (replicate 33 "hi")
    = Some (LanguageProcessor.init, inl e)
    ∧ e = RuntimeError "Batch processing failed: Invalid batch size. Limit: 32"
    ∧ is_ValueError e = false.
Proof.
  apply (process_batch_oversized (H:=TestDouble.runtime)
           LanguageProcessor.init (λ _, (0%Qc, 1%Qc)) (seq 0 33)
           (replicate 33 "hi")).
  vm_compute. lia.
Defined.

Lemma metrics_invariant_witness :
  let st := (LanguageProcessor.process_text (H:=TestDouble.runtime)
               LanguageProcessor.init 0%Qc 1%Qc "ca").1 in
  let st' := (LanguageProcessor.process_text (H:=TestDouble.runtime)
                st 1%Qc 2%Qc "").1 in
  metrics_consistent (LanguageProcessor._performance_metrics st')
  ∧ LanguageProcessor._performance_metrics st'
    = LanguageProcessor._update_metrics
        (LanguageProcessor._performance_metrics st) false 0%Qc
        (Some "Invalid input text")
  ∧ LanguageProcessor.average_latency (LanguageProcessor._performance_metrics st')
    = ((LanguageProcessor.average_latency
          (LanguageProcessor._performance_metrics st) * of_nat 1 + 0)
       / of_nat 2)%Qc.
Proof.
  intros st st'.
  destruct (metrics_invariant (H:=TestDouble.runtime))
    as (Hreach & _ & Hfailed).
  split.
  - apply Hreach. do 2 apply reachable_process_text. apply reachable_init.
  - apply (Hfailed st 1%Qc 2%Qc "" (ValueError "Invalid input text")).
    reflexivity.
Defined.

(** ** Coherence of the cache *)

Section cache_coherence.
Context `{Runtime}.
Import TextPreprocessor IntentClassifier LanguageProcessor.

Hypothesis hash_inj : Inj (=) (=) hash.

Lemma format_results_coherent cache (items : list (Qc * nat * string)) :
  coherent cache →
  Forall (λ item, top_of item.2 = inr item.1) items →
  coherent (format_results cache items).1.
Proof.
  intros Hc Hitems. revert cache Hc.
  induction Hitems as [|[[top idx] text] items Htop _ IH]; intros cache Hc;
    simpl; [done|].
  unfold getitem. destruct (INTENT_LABELS !! idx) as [label|] eqn:Hlabel;
    simpl; [|done].
  rewrite batch_result_gated.
  set (cache' := <[hash text := gated_result top label]> (expire cache)).
  assert (coherent cache') as Hc'.
  { apply coherent_insert; [done|by apply coherent_expire|].
    apply infer_top_of. by exists top, idx, label. }
  specialize (IH cache' Hc').
  by destruct (format_results cache' items).
Qed.

Lemma classify_sub_batch_coherent cache (batch_texts : list string) :
  coherent cache → coherent (classify_sub_batch cache batch_texts).1.
Proof.
  intros Hc.
  destruct (classify_sub_batch_cases cache batch_texts)
    as [(e & _ & ->)|[_ ->]]; [done|].
  destruct (sub_batch_maxima batch_texts) as [|maxima] eqn:Hmaxima; [done|].
  apply format_results_coherent; [done|].
  apply sub_batch_maxima_spec in Hmaxima.
  clear -Hmaxima.
  induction Hmaxima; simpl; constructor; done.
Qed.

Lemma classify_batch_coherent cache (texts : list string) :
  coherent cache → coherent (classify_batch cache texts).1.
Proof.
  intros Hc. unfold classify_batch. destruct texts as [|text texts]; [done|].
  assert (∀ batches c, coherent c → coherent (classify_sub_batches c batches).1)
    as Hbatches.
  { induction batches as [|batch batches IH]; intros c Hcoh; simpl; [done|].
    pose proof (classify_sub_batch_coherent c batch Hcoh) as Hsub.
    destruct (classify_sub_batch c batch) as [c' [e|rs]]; [done|].
    specialize (IH c' Hsub).
    by destruct (classify_sub_batches c' batches). }
  specialize (Hbatches (chunks BATCH_SIZE (text :: texts)) cache Hc).
  by destruct (classify_sub_batches cache (chunks BATCH_SIZE (text :: texts))).
Qed.

(** Every state of the orchestrator has a coherent classifier cache. *)
Lemma reachable_coherent (st : Processor) :
  reachable st → coherent (classifier_cache st).
Proof.
  induction 1 as [|st t0 t1 text _ IH|st stamps order texts st' outcome _ IH Hbatch].
  - apply coherent_empty.
  - by apply process_text_coherent.
  - eapply (process_batch_invariant stamps texts
              (λ s, coherent (classifier_cache s))); [|done..].
    intros s t0 t1 text. by apply process_text_coherent.
Qed.

End cache_coherence.

(** The hash of the test double does not collide. *)
Lemma string_hash_inj : Inj (=) (=) TestDouble.string_hash.
Proof.
  intros text1 text2 Heq. unfold TestDouble.string_hash in Heq.
  injection Heq as Heq. by apply (inj encode).
Qed.

(** On the test double the batch of the scenario is, item by item, what
    [process_text] returns for each text on its own. *)
Example process_batch_items_in_isolation :
  let stamps := λ _ : nat, (0%Qc, 1%Qc) in
  let texts := ["ca"; "x"; "caz"] in
  ∃ st' items,
    LanguageProcessor.process_batch (H:=TestDouble.runtime)
      LanguageProcessor.init stamps [2; 0; 1] texts = Some (st', inr items)
    ∧ ∀ i text, texts !! i = Some text →
        items !! i
        = Some (item_of text
                  (LanguageProcessor.process_text (H:=TestDouble.runtime)
                     LanguageProcessor.init 0%Qc 1%Qc text).2).
Proof.
  intros stamps texts.
  destruct (process_batch_valid (H:=TestDouble.runtime) stamps texts
              (λ s, coherent (LanguageProcessor.classifier_cache s))
              (λ s t0 t1 t,
                 process_text_coherent (H:=TestDouble.runtime)
                   s t0 t1 t string_hash_inj)
              LanguageProcessor.init [2; 0; 1])
    as (st' & items & Hbatch & _ & Hitems).
  - apply coherent_empty.
  - discriminate.
  - vm_compute. lia.
  - simpl. etrans; [apply perm_swap|]. apply perm_skip, perm_swap.
  - exists st', items. split; [done|].
    intros i text Htext. destruct (Hitems i text Htext) as (s & Hs & ->).
    f_equal. f_equal.
    apply (process_text_outcome_coherent s); [done|apply coherent_empty].
Qed.

(** * Further properties of the sources *)

(** ** The classifier and its cache *)

Section classifier_cache_facts.
Context `{Runtime}.
Import TextPreprocessor IntentClassifier IntentDistribution.

(** X1. A call of [classify_intent] that returns a result leaves that
    result in the cache under the key of the text; while the entry stays
    in the cache, the next call for the text returns it again. *)
Theorem classify_intent_stores_result
    (cache : gmap Z IntentResult) (text : string) (r : IntentResult) :
  (classify_intent cache text).2 = inr r →
  let cache' := (classify_intent cache text).1 in
  cache' !! hash text = Some r
  ∧ (expire cache' !! hash text = Some r →
     classify_intent cache' text = (expire cache', inr r)).
Proof.
  intros Hcall cache'. split.
  - subst cache'. unfold classify_intent in *.
    destruct (expire cache !! hash text) as [cached|] eqn:Hlook; simpl in *.
    + by injection Hcall as <-.
    + destruct (infer text) as [|result]; simpl in *; [done|].
      injection Hcall as <-. apply lookup_insert_eq.
  - intros Hkept. unfold classify_intent at 1. by rewrite Hkept.
Qed.

(** X2. Every failure of [classify_intent] is the [RuntimeError] of its
    handler, the empty text included; a failing call stores nothing (the
    cache is the one expiry leaves, without an entry for the text). *)
Theorem classify_intent_failure
    (cache : gmap Z IntentResult) (text : string) :
  (∀ e, (classify_intent cache text).2 = inl e →
        e = RuntimeError "Intent classification failed"
        ∧ (classify_intent cache text).1 = expire cache
        ∧ expire cache !! hash text = None)
  ∧ (text = "" → expire cache !! hash text = None →
     (classify_intent cache text).2
     = inl (RuntimeError "Intent classification failed")).
Proof.
  unfold classify_intent. split.
  - intros e.
    destruct (expire cache !! hash text) as [cached|]; [done|].
    destruct (infer text); simpl; [|done]. by intros [= <-].
  - intros -> ->. unfold infer. by rewrite transform_empty.
Qed.

(** X3. When [classify_intent] answers with status "success" for a text
    (from inference, or from a cache entry that is what inference
    computes), [predict_proba] returns a distribution for that text in
    which the answered intent carries the answered confidence, and no
    label has a larger probability. *)
Theorem predict_proba_agrees_with_classify
    (cache : gmap Z IntentResult) (text : string) (r : IntentResult) :
  (∀ cached, cache !! hash text = Some cached → infer text = inr cached) →
  (classify_intent cache text).2 = inr r →
  status r = Some "success" →
  ∃ distribution label top,
    predict_proba text = inr distribution
    ∧ intent r = Some label
    ∧ confidence r = Some top
    ∧ (label, top) ∈ distribution
    ∧ ∀ l p, (l, p) ∈ distribution → (p ≤ top)%Qc.
Proof.
  intros Hcache Hcall Hstatus.
  rewrite classify_intent_infer in Hcall by done.
  destruct (infer text) as [|r'] eqn:Hinfer; simpl in Hcall; [done|].
  injection Hcall as ->.
  apply infer_top_of in Hinfer as (top & idx & label & Htop & Hlabel & ->).
  unfold gated_result in *.
  destruct (decide (top < confidence_threshold)%Qc); [done|].
  unfold top_of, torch_max in Htop. unfold predict_proba.
  destruct (transform text) as [|processed]; simpl in *; [done|].
  destruct (intent_model (tokens processed)) as [|probs]; simpl in *; [done|].
  destruct (max_with_index probs) as [[top' idx']|] eqn:Hmax; [|done].
  injection Htop as -> ->.
  apply max_with_index_spec in Hmax as (Hidx & Hle & _).
  exists (zip INTENT_LABELS probs), label, top. split_and!; try done.
  - apply list_elem_of_lookup. exists idx.
    rewrite lookup_zip_with. rewrite Hlabel. simpl. by rewrite Hidx.
  - intros l p Hin. apply Hle. by eapply elem_of_zip_r.
Qed.

End classifier_cache_facts.

Lemma classify_intent_stores_result_witness :
  let r := {| intent := Some "create_agent";
              confidence := Some (Q2Qc (97 # 100));
              status := Some "success" |} in
  let cache' := (IntentClassifier.classify_intent (H:=TestDouble.runtime)
                   ∅ "create an agent").1 in
  cache' !! TestDouble.string_hash "create an agent" = Some r
  ∧ (cache' !! TestDouble.string_hash "create an agent" = Some r →
     IntentClassifier.classify_intent (H:=TestDouble.runtime)
       cache' "create an agent" = (cache', inr r)).
Proof.
  intros r.
  apply (classify_intent_stores_result (H:=TestDouble.runtime)
           ∅ "create an agent" r).
  reflexivity.
Defined.

Lemma classify_intent_failure_witness :
  (IntentClassifier.classify_intent (H:=TestDouble.runtime) ∅ "").2
  = inl (RuntimeError "Intent classification failed").
Proof.
  apply (proj2 (classify_intent_failure (H:=TestDouble.runtime) ∅ "")).
  - reflexivity.
  - reflexivity.
Defined.

Lemma predict_proba_agrees_with_classify_witness :
  ∃ distribution label top,
    IntentDistribution.predict_proba (H:=TestDouble.runtime) "create an agent"
    = inr distribution
    ∧ Some "create_agent" = Some label
    ∧ Some (Q2Qc (97 # 100)) = Some top
    ∧ (label, top) ∈ distribution
    ∧ ∀ l p, (l, p) ∈ distribution → (p ≤ top)%Qc.
Proof.
  apply (predict_proba_agrees_with_classify (H:=TestDouble.runtime)
           ∅ "create an agent"
           {| intent := Some "create_agent";
              confidence := Some (Q2Qc (97 # 100));
              status := Some "success" |}).
  - intros cached Hlook. by rewrite lookup_empty in Hlook.
  - reflexivity.
  - reflexivity.
Defined.

(** ** The entities of a text *)

Section entity_facts.
Context `{Runtime}.
Import TextPreprocessor EntityExtractor.

Lemma make_entity_scanned (text : string) (idx : nat) probs max_prob
    entity_type e :
  max_with_index probs = Some (max_prob, entity_type) →
  (_confidence_threshold ≤ max_prob)%Qc →
  make_entity text idx max_prob entity_type = inr e →
  e_position e = idx ∧ scanned text probs idx e.
Proof.
  intros Hmax Hthr. unfold make_entity, getitem.
  destruct (ENTITY_TYPES !! entity_type) as [type|] eqn:Htype; [|done].
  simpl. intros [= <-]. split; [done|].
  by exists max_prob, entity_type, type.
Qed.

Lemma np_max_inr probs r :
  np_max probs = inr r ↔ max_with_index probs = Some r.
Proof.
  unfold np_max. destruct (max_with_index probs); simpl; [|done].
  split; by intros [= ->].
Qed.

(** What the loop of [extract_entities] reports, and in which order. *)
Lemma scan_tokens_sound (text : string) (idx : nat) items entities :
  scan_tokens text idx items = inr entities →
  ∀ e, e ∈ entities →
    ∃ probs mask,
      idx ≤ e_position e
      ∧ items !! (e_position e - idx) = Some (probs, mask)
      ∧ mask ≠ 0%Z
      ∧ scanned text probs (e_position e) e.
Proof.
  revert idx entities.
  induction items as [|[probs mask] items IH]; intros idx entities; simpl.
  { intros [= <-] e Hin. by apply elem_of_nil in Hin. }
  assert (Hrest : ∀ entities', scan_tokens text (S idx) items = inr entities' →
            ∀ e, e ∈ entities' →
              ∃ probs' mask',
                idx ≤ e_position e
                ∧ ((probs, mask) :: items) !! (e_position e - idx)
                  = Some (probs', mask')
                ∧ mask' ≠ 0%Z
                ∧ scanned text probs' (e_position e) e).
  { intros entities' Hscan e Hin.
    destruct (IH _ _ Hscan e Hin)
      as (probs' & mask' & Hpos & Hitem & Hmask' & Hscanned).
    exists probs', mask'. split_and!; [lia| |done..].
    replace (e_position e - idx) with (S (e_position e - S idx)) by lia.
    done. }
  destruct (decide (mask = 0%Z)); [by apply Hrest|].
  destruct (np_max probs) as [|[max_prob entity_type]] eqn:Hmax; simpl; [done|].
  apply np_max_inr in Hmax.
  destruct (decide (_confidence_threshold ≤ max_prob)%Qc); [|by apply Hrest].
  destruct (make_entity text idx max_prob entity_type) as [|entity] eqn:Hmake;
    simpl; [done|].
  destruct (scan_tokens text (S idx) items) as [|rest] eqn:Hscan; simpl; [done|].
  intros [= <-] e [->|Hin]%elem_of_cons; [|by eapply Hrest].
  destruct (make_entity_scanned _ _ _ _ _ _ Hmax ltac:(done) Hmake)
    as [Hpos Hscanned].
  exists probs, mask. rewrite Hpos, Nat.sub_diag. by split_and!.
Qed.

Lemma scan_tokens_complete (text : string) (idx : nat) items entities :
  scan_tokens text idx items = inr entities →
  ∀ i probs mask top k,
    items !! i = Some (probs, mask) →
    mask ≠ 0%Z →
    max_with_index probs = Some (top, k) →
    (_confidence_threshold ≤ top)%Qc →
    ∃ e, e ∈ entities ∧ e_position e = idx + i.
Proof.
  revert idx entities.
  induction items as [|[probs mask] items IH]; intros idx entities; simpl.
  { intros _ i probs mask top k Hi. done. }
  intros Hscan [|i] probs' mask' top k Hi Hmask Hmax Hthr; simpl in Hi.
  - injection Hi as -> ->.
    destruct (decide (mask' = 0%Z)); [done|].
    apply np_max_inr in Hmax. rewrite Hmax in Hscan. simpl in Hscan.
    destruct (decide (_confidence_threshold ≤ top)%Qc); [|done].
    destruct (make_entity text idx top k) as [|entity] eqn:Hmake;
      simpl in Hscan; [done|].
    destruct (scan_tokens text (S idx) items) as [|rest]; simpl in Hscan;
      [done|].
    injection Hscan as <-. exists entity. split; [by left|].
    apply make_entity_text in Hmake as [-> _]. lia.
  - assert (∃ entities', scan_tokens text (S idx) items = inr entities'
                         ∧ entities' ⊆ entities) as (entities' & Hrest & Hsub).
    { destruct (decide (mask = 0%Z)); [by exists entities|].
      destruct (np_max probs) as [|[max_prob entity_type]]; simpl in Hscan;
        [done|].
      destruct (decide (_confidence_threshold ≤ max_prob)%Qc);
        [|by exists entities].
      destruct (make_entity text idx max_prob entity_type) as [|entity];
        simpl in Hscan; [done|].
      destruct (scan_tokens text (S idx) items) as [|rest]; simpl in Hscan;
        [done|].
      injection Hscan as <-. exists rest. split; [done|].
      intros e He. by right. }
    destruct (IH _ _ Hrest i probs' mask' top k Hi Hmask Hmax Hthr)
      as (e & He & Hpos).
    exists e. split; [by apply Hsub|lia].
Qed.

Lemma scan_tokens_increasing (text : string) (idx : nat) items entities :
  scan_tokens text idx items = inr entities →
  ∀ i j e1 e2, i < j →
    entities !! i = Some e1 → entities !! j = Some e2 →
    e_position e1 < e_position e2.
Proof.
  revert idx entities.
  induction items as [|[probs mask] items IH]; intros idx entities; simpl.
  { intros [= <-] i j e1 e2 _ Hi. done. }
  destruct (decide (mask = 0%Z)); [by apply IH|].
  destruct (np_max probs) as [|[max_prob entity_type]]; simpl; [done|].
  destruct (decide (_confidence_threshold ≤ max_prob)%Qc); [|by apply IH].
  destruct (make_entity text idx max_prob entity_type) as [|entity] eqn:Hmake;
    simpl; [done|].
  destruct (scan_tokens text (S idx) items) as [|rest] eqn:Hscan; simpl; [done|].
  intros [= <-] [|i] [|j] e1 e2 Hij Hi Hj; simpl in *; try lia.
  - injection Hi as <-. apply make_entity_text in Hmake as [-> _].
    destruct (scan_tokens_text _ _ _ _ Hscan e2) as [Hpos _]; [|lia].
    by eapply list_elem_of_lookup_2.
  - eapply (IH _ _ Hscan i j); [lia|done..].
Qed.

(** X4. Every entity reported by [extract_entities] stands for a token
    that is not padding and whose largest class probability reaches the
    threshold: its confidence is that probability, its type is the entry
    of ENTITY_TYPES at the first index of it, its position is the index of
    the token. *)
Theorem extract_entities_sound (text : string) (entities : list Entity) :
  extract_entities text = inr entities →
  ∃ processed probabilities,
    transform text = inr processed
    ∧ entity_model (tokens processed) = inr probabilities
    ∧ ∀ e, e ∈ entities →
        ∃ probs mask,
          probabilities !! e_position e = Some probs
          ∧ attention_mask (tokens processed) !! e_position e = Some mask
          ∧ mask ≠ 0%Z
          ∧ scanned text probs (e_position e) e.
Proof.
  unfold extract_entities. destruct (decide (text = "")); [done|].
  destruct (transform text) as [|processed]; simpl; [done|].
  destruct (entity_model (tokens processed)) as [|probabilities] eqn:Hmodel;
    simpl; [done|].
  destruct (scan_tokens text 0 _) as [|entities'] eqn:Hscan; simpl; [done|].
  intros [= <-]. exists processed, probabilities. split_and!; [done..|].
  intros e Hin.
  destruct (scan_tokens_sound _ _ _ _ Hscan e Hin)
    as (probs & mask & _ & Hitem & Hmask & Hscanned).
  rewrite Nat.sub_0_r in Hitem.
  apply lookup_zip_with_Some in Hitem as (p & m & [= -> ->] & Hp & Hm).
  by exists p, m.
Qed.

(** X5. [extract_entities] reports the entities in strictly increasing
    order of position, at most one per token, and misses no token: every
    token that is not padding and whose largest class probability reaches
    the threshold has an entity at its position. *)
Theorem extract_entities_complete (text : string) (entities : list Entity)
    processed probabilities :
  extract_entities text = inr entities →
  transform text = inr processed →
  entity_model (tokens processed) = inr probabilities →
  (∀ i j e1 e2, i < j →
     entities !! i = Some e1 → entities !! j = Some e2 →
     e_position e1 < e_position e2)
  ∧ ∀ pos probs mask top k,
      probabilities !! pos = Some probs →
      attention_mask (tokens processed) !! pos = Some mask →
      mask ≠ 0%Z →
      max_with_index probs = Some (top, k) →
      (_confidence_threshold ≤ top)%Qc →
      ∃ e, e ∈ entities ∧ e_position e = pos.
Proof.
  unfold extract_entities. destruct (decide (text = "")); [done|].
  intros Hextract Htransform Hmodel. rewrite Htransform in Hextract.
  simpl in Hextract. rewrite Hmodel in Hextract. simpl in Hextract.
  destruct (scan_tokens text 0 _) as [|entities'] eqn:Hscan; simpl in Hextract;
    [done|].
  injection Hextract as <-. split.
  - by eapply scan_tokens_increasing.
  - intros pos probs mask top k Hprobs Hm Hmask Hmax Hthr.
    eapply (scan_tokens_complete _ _ _ _ Hscan pos probs mask top k); try done.
    apply lookup_zip_with_Some. by exists probs, mask.
Qed.

End entity_facts.

(** ** Batch extraction against single extraction *)

Section extract_batch_facts.
Context `{Runtime}.
Import TextPreprocessor EntityExtractor.

(** The inner loop of [extract_batch], which reads the mask by index, and
    the loop of [extract_entities], which zips it with the probabilities,
    report the same entities. *)
Lemma scan_batch_tokens_scan_tokens (text : string) mask_row (token_idx : nat)
    token_probs text_entities :
  scan_batch_tokens text mask_row token_idx token_probs = inr text_entities →
  scan_tokens text token_idx (zip token_probs (drop token_idx mask_row))
  = inr text_entities.
Proof.
  revert token_idx text_entities.
  induction token_probs as [|probs token_probs IH];
    intros token_idx text_entities; simpl; [done|].
  unfold getitem.
  destruct (mask_row !! token_idx) as [mask|] eqn:Hmask; simpl; [|done].
  rewrite (drop_S _ _ _ Hmask). simpl.
  destruct (decide (mask = 0%Z)); [by apply IH|].
  destruct (np_max probs) as [|[max_prob entity_type]]; simpl; [done|].
  destruct (decide (_confidence_threshold ≤ max_prob)%Qc); [|by apply IH].
  destruct (make_entity text token_idx max_prob entity_type); simpl; [done|].
  destruct (scan_batch_tokens text mask_row (S token_idx) token_probs)
    as [|rest] eqn:Hrest; simpl; [done|].
  by rewrite (IH _ _ Hrest).
Qed.

Lemma extract_rows_rows processed_batch batch_probabilities (idx : nat)
    (batch : list string) batch_entities :
  extract_rows processed_batch batch_probabilities idx batch
  = inr batch_entities →
  length batch_entities = length batch
  ∧ ∀ j text text_entities,
      batch !! j = Some text →
      batch_entities !! j = Some text_entities →
      ∃ token_probs row,
        batch_probabilities !! (idx + j) = Some token_probs
        ∧ rows processed_batch !! (idx + j) = Some row
        ∧ scan_tokens text 0 (zip token_probs (attention_mask row))
          = inr text_entities.
Proof.
  revert idx batch_entities.
  induction batch as [|text batch IH]; intros idx batch_entities; simpl.
  { intros [= <-]. split; [done|]. intros j text es Hj. done. }
  unfold getitem.
  destruct (batch_probabilities !! idx) as [token_probs|] eqn:Hprobs; simpl;
    [|done].
  destruct (rows processed_batch !! idx) as [row|] eqn:Hrow; simpl; [|done].
  destruct (scan_batch_tokens text (attention_mask row) 0 token_probs)
    as [|text_entities] eqn:Hscan; simpl; [done|].
  destruct (extract_rows processed_batch batch_probabilities (S idx) batch)
    as [|rest] eqn:Hrows; simpl; [done|].
  intros [= <-]. destruct (IH _ _ Hrows) as [Hlen Hrest]. split.
  { simpl. by rewrite Hlen. }
  intros [|j] text' es Htext Hes; simpl in *.
  - injection Htext as <-. injection Hes as <-.
    exists token_probs, row. rewrite Nat.add_0_r. split_and!; [done..|].
    by apply scan_batch_tokens_scan_tokens in Hscan.
  - destruct (Hrest j text' es Htext Hes) as (tp & r & Htp & Hr & Hs).
    exists tp, r. by rewrite <- Nat.add_succ_comm.
Qed.

Lemma extract_sub_batch_itemwise (batch : list string) batch_entities :
  extract_sub_batch batch = inr batch_entities →
  Forall2 (λ text text_entities, extract_entities text = inr text_entities)
    batch batch_entities.
Proof.
  unfold extract_sub_batch.
  destruct (batch_transform batch) as [|processed_batch] eqn:Hbatch; simpl;
    [done|].
  apply batch_transform_inr in Hbatch as (_ & results & Hresults & _ & ->).
  simpl.
  destruct (mapM entity_model (tokens <$> results)) as [|batch_probabilities]
    eqn:Hprobs; simpl; [done|].
  intros [Hlen Hrows]%extract_rows_rows.
  apply mapM_Result_inr in Hresults, Hprobs.
  apply Forall2_same_length_lookup. split; [done|].
  intros j text text_entities Htext Hes.
  destruct (Hrows j text text_entities Htext Hes)
    as (token_probs & row & Htp & Hrow & Hscan).
  simpl in Htp, Hrow.
  destruct (Forall2_lookup_l _ _ _ _ _ Hresults Htext)
    as (processed & Hprocessed & Htransform).
  rewrite list_lookup_fmap, Hprocessed in Hrow. injection Hrow as <-.
  assert ((tokens <$> results) !! j = Some (tokens processed)) as Htokens
    by by rewrite list_lookup_fmap, Hprocessed.
  destruct (Forall2_lookup_l _ _ _ _ _ Hprobs Htokens)
    as (token_probs' & Htp' & Hmodel).
  rewrite Htp in Htp'. injection Htp' as <-.
  unfold extract_entities.
  destruct (decide (text = "")) as [->|_].
  { by rewrite transform_empty in Htransform. }
  rewrite Htransform. simpl. rewrite Hmodel. simpl. by rewrite Hscan.
Qed.

Lemma extract_batch_itemwise (texts : list string) results :
  extract_batch texts = inr results →
  Forall2 (λ text text_entities, extract_entities text = inr text_entities)
    texts results.
Proof.
  unfold extract_batch. destruct texts as [|text texts]; [done|].
  set (texts' := text :: texts).
  destruct (decide (_batch_size = 0)) as [|Hsize]; [by intros [=]|].
  destruct (mapM extract_sub_batch (chunks _batch_size texts'))
    as [|sub_results] eqn:Hsub; [by intros [=]|].
  intros [= <-]. apply mapM_Result_inr in Hsub.
  rewrite <- (chunks_concat _batch_size texts') by lia.
  apply Forall2_concat.
  eapply Forall2_impl; [done|]. apply extract_sub_batch_itemwise.
Qed.

(** X6. When [extract_batch] returns, the list it returns for
    [texts[i]] is the list [extract_entities] returns for that text on
    its own: the sub-batches and the stacked rows change nothing. *)
Theorem extract_batch_matches_single (texts : list string) results :
  extract_batch texts = inr results →
  ∀ i text, texts !! i = Some text →
    ∃ text_entities,
      results !! i = Some text_entities
      ∧ extract_entities text = inr text_entities.
Proof.
  intros Hbatch%extract_batch_itemwise i text Htext.
  by destruct (Forall2_lookup_l _ _ _ _ _ Hbatch Htext) as (es & Hes & Hsingle);
    exists es.
Qed.

(** X7. The failures of the extractor. [extract_entities] raises
    [ValueError] for the empty text and only for it; every other failure
    is the [RuntimeError] of its handler. [extract_batch] raises
    [ValueError] for the empty list and only for it; every other failure
    is the [RuntimeError] of its handler, and one empty text in the batch
    is enough for it. *)
Theorem extractor_failures :
  (∀ text e,
     extract_entities text = inl e →
     (text = "" ∧ e = ValueError "Invalid input text")
     ∨ (text ≠ "" ∧ e = RuntimeError "Entity extraction failed"))
  ∧ (∀ texts e,
       extract_batch texts = inl e →
       (texts = [] ∧ e = ValueError "Invalid input batch")
       ∨ (texts ≠ [] ∧ e = RuntimeError "Batch extraction failed"))
  ∧ (∀ texts,
       "" ∈ texts →
       extract_batch texts = inl (RuntimeError "Batch extraction failed")).
Proof.
  assert (Hbatch : ∀ texts e,
            extract_batch texts = inl e →
            (texts = [] ∧ e = ValueError "Invalid input batch")
            ∨ (texts ≠ [] ∧ e = RuntimeError "Batch extraction failed")).
  { intros texts e. unfold extract_batch.
    destruct texts as [|text texts]; [intros [= <-]; by left|].
    intros Hfail. right. split; [done|].
    destruct (decide (_batch_size = 0)); [by injection Hfail as <-|].
    destruct (mapM extract_sub_batch _); [by injection Hfail as <-|done]. }
  split_and!; [|done|].
  - intros text e. unfold extract_entities.
    destruct (decide (text = "")); [intros [= <-]; by left|].
    intros Hfail. right. split; [done|].
    destruct (transform text) as [|processed]; simpl in Hfail;
      [by injection Hfail as <-|].
    destruct (entity_model (tokens processed)); simpl in Hfail;
      [by injection Hfail as <-|].
    destruct (scan_tokens text 0 _); simpl in Hfail; [by injection Hfail as <-|done].
  - intros texts Hin.
    destruct (extract_batch texts) as [e|results] eqn:Hcall.
    + destruct (Hbatch texts e Hcall) as [[-> _]|[_ ->]]; [|done].
      by apply elem_of_nil in Hin.
    + apply extract_batch_itemwise in Hcall.
      apply list_elem_of_lookup in Hin as [i Hi].
      by destruct (Forall2_lookup_l _ _ _ _ _ Hcall Hi) as (es & _ & Hes).
Qed.

End extract_batch_facts.

Lemma extract_entities_sound_witness :
  let agent := {| e_type := Some "AGENT_NAME";
                  e_confidence := Some (Q2Qc (96 # 100));
                  e_position := 0; e_text := "a" |} in
  let integration := {| e_type := Some "INTEGRATION_TYPE";
                        e_confidence := Some (Q2Qc (98 # 100));
                        e_position := 1; e_text := "z" |} in
  ∃ processed probabilities,
    TextPreprocessor.transform (H:=TestDouble.runtime) "az b" = inr processed
    ∧ TestDouble.stub_entity_model (tokens processed) = inr probabilities
    ∧ ∀ e, e ∈ [agent; integration] →
        ∃ probs mask,
          probabilities !! e_position e = Some probs
          ∧ attention_mask (tokens processed) !! e_position e = Some mask
          ∧ mask ≠ 0%Z
          ∧ scanned (H:=TestDouble.runtime) "az b" probs (e_position e) e.
Proof.
  intros agent integration.
  apply (extract_entities_sound (H:=TestDouble.runtime) "az b"
           [agent; integration]).
  reflexivity.
Defined.

Lemma extract_entities_complete_witness :
  let agent := {| e_type := Some "AGENT_NAME";
                  e_confidence := Some (Q2Qc (96 # 100));
                  e_position := 0; e_text := "a" |} in
  let integration := {| e_type := Some "INTEGRATION_TYPE";
                        e_confidence := Some (Q2Qc (98 # 100));
                        e_position := 1; e_text := "z" |} in
  let tk := {| input_ids := TestDouble.char_ids "az b";
               attention_mask := (λ _, 1%Z) <$> TestDouble.char_ids "az b" |} in
  let probabilities := TestDouble.stub_token_probs <$> TestDouble.char_ids "az b" in
  (∀ i j e1 e2, i < j →
     [agent; integration] !! i = Some e1 →
     [agent; integration] !! j = Some e2 →
     e_position e1 < e_position e2)
  ∧ ∀ pos probs mask top k,
      probabilities !! pos = Some probs →
      attention_mask tk !! pos = Some mask →
      mask ≠ 0%Z →
      max_with_index probs = Some (top, k) →
      (EntityExtractor._confidence_threshold (H:=TestDouble.runtime) ≤ top)%Qc →
      ∃ e, e ∈ [agent; integration] ∧ e_position e = pos.
Proof.
  intros agent integration tk probabilities.
  apply (extract_entities_complete (H:=TestDouble.runtime) "az b"
           [agent; integration]
           {| tokens := tk; original_length := 4; processed_length := 4 |}
           probabilities).
  - reflexivity.
  - reflexivity.
  - reflexivity.
Defined.

Lemma extract_batch_matches_single_witness :
  ∃ results,
    EntityExtractor.extract_batch (H:=TestDouble.runtime) ["az b"; "zz c"]
    = inr results
    ∧ ∀ i text, ["az b"; "zz c"] !! i = Some text →
        ∃ text_entities,
          results !! i = Some text_entities
          ∧ EntityExtractor.extract_entities (H:=TestDouble.runtime) text
            = inr text_entities.
Proof.
  eexists. split; [reflexivity|].
  apply (extract_batch_matches_single (H:=TestDouble.runtime) ["az b"; "zz c"]).
  reflexivity.
Defined.

Lemma extractor_failures_witness :
  EntityExtractor.extract_batch (H:=TestDouble.runtime) ["a"; ""]
  = inl (RuntimeError "Batch extraction failed").
Proof.
  apply (proj2 (proj2 (extractor_failures (H:=TestDouble.runtime)))).
  right. left.
Defined.

(** ** Preprocessing of a batch *)

Section batch_transform_facts.
Context `{Runtime}.
Import TextPreprocessor.

(** X8. [batch_transform] returns exactly when the batch is not empty,
    every text of it is non-empty and accepted by the tokenizer, and the
    rows the tokenizer gives them have one width (otherwise [np.vstack]
    raises); the rows it returns are the token rows of the texts, in the
    order of the texts, and batch_size is the number of texts. Its
    internal sub-batches of 32 do not show. *)
Theorem batch_transform_rows (texts : list string) (processed_batch : ProcessedBatch) :
  batch_transform texts = inr processed_batch ↔
  texts ≠ []
  ∧ batch_size processed_batch = length texts
  ∧ Forall2 (λ text row, text ≠ "" ∧ tokenizer (clean_text text) = Some row)
      texts (rows processed_batch)
  ∧ same_width (rows processed_batch).
Proof.
  rewrite batch_transform_inr. split.
  - intros (Hne & results & Hresults & Hsame & ->). simpl.
    split_and!; [done..| |done].
    apply mapM_Result_inr in Hresults.
    apply Forall2_fmap_r.
    eapply Forall2_impl; [done|]. simpl.
    intros text processed (Hnonempty & tk & Htk & ->)%transform_inr. done.
  - intros (Hne & Hsize & Hrows & Hsame). split; [done|].
    exists ((λ '(text, tk),
               {| tokens := tk;
                  original_length := String.length text;
                  processed_length := length (input_ids tk) |})
            <$> zip texts (rows processed_batch)).
    assert (tokens <$> ((λ '(text, tk),
                           {| tokens := tk;
                              original_length := String.length text;
                              processed_length := length (input_ids tk) |})
                        <$> zip texts (rows processed_batch))
            = rows processed_batch) as Htokens.
    { clear Hsize Hne Hsame.
      induction Hrows as [|text row texts' rows' _ _ IH]; [done|].
      cbn. f_equal. exact IH. }
    split_and!.
    + apply mapM_Result_inr. clear Hsize Hne Hsame Htokens.
      induction Hrows as [|text row texts' rows' [Hnonempty Htk] _ IH];
        simpl; constructor; [|done].
      apply transform_inr. split; [done|]. by exists row.
    + by rewrite Htokens.
    + rewrite Htokens. destruct processed_batch as [rows0 size0].
      simpl in *. by subst size0.
Qed.

End batch_transform_facts.

Lemma batch_transform_rows_witness :
  let processed_batch :=
    {| rows := [{| input_ids := TestDouble.char_ids "ab";
                   attention_mask := [1%Z; 1%Z] |};
                {| input_ids := TestDouble.char_ids "cd";
                   attention_mask := [1%Z; 1%Z] |}];
       batch_size := 2 |} in
  TextPreprocessor.batch_transform (H:=TestDouble.runtime) ["ab"; "cd"]
  = inr processed_batch.
Proof.
  intros processed_batch.
  apply (batch_transform_rows (H:=TestDouble.runtime) ["ab"; "cd"]).
  split_and!; [discriminate|reflexivity| |].
  - repeat (constructor; [split; [discriminate|reflexivity]|]). constructor.
  - intros row1 row2 Hrow1 Hrow2.
    repeat (apply elem_of_cons in Hrow1 as [->|Hrow1]);
      repeat (apply elem_of_cons in Hrow2 as [->|Hrow2]);
      try (by apply elem_of_nil in Hrow1); try (by apply elem_of_nil in Hrow2);
      done.
Defined.

(** ** Metrics over a sequence of requests *)

Section metrics_facts.
Import LanguageProcessor.

Lemma last_error_cons (error : option string) (errors : list (option string))
    (before : option string) :
  from_option id before (last (error :: errors))
  = from_option id error (last errors).
Proof.
  destruct errors as [|error' errors]; [done|].
  change (last (error :: error' :: errors)) with (last (error' :: errors)).
  destruct (last (error' :: errors)) eqn:Hlast; [done|].
  by apply last_None in Hlast.
Qed.

Lemma record_all_from (metrics : Metrics)
    (updates : list (bool * Qc * option string)) :
  let after := record_all metrics updates in
  let failures := filter (λ u, u.1.1 = false) updates in
  total_requests after = total_requests metrics + length updates
  ∧ successful_requests after
    = successful_requests metrics
      + length (filter (λ u, u.1.1 = true) updates)
  ∧ failed_requests after = failed_requests metrics + length failures
  ∧ last_error after
    = from_option id (last_error metrics) (last (snd <$> failures)).
Proof.
  revert metrics.
  induction updates as [|[[success time] error] updates IH]; intros metrics.
  { simpl. split_and!; [lia..|done]. }
  change (record_all metrics ((success, time, error) :: updates))
    with (record_all (_update_metrics metrics success time error) updates).
  assert (total_requests (_update_metrics metrics success time error)
          = S (total_requests metrics)) as Htotal' by done.
  assert (successful_requests (_update_metrics metrics success time error)
          = successful_requests metrics + (if success then 1 else 0))
    as Hsucc' by (destruct success; simpl; lia).
  assert (failed_requests (_update_metrics metrics success time error)
          = failed_requests metrics + (if success then 0 else 1))
    as Hfail' by (destruct success; simpl; lia).
  assert (last_error (_update_metrics metrics success time error)
          = if success then last_error metrics else error)
    as Herror' by done.
  destruct (IH (_update_metrics metrics success time error))
    as (Htotal & Hsucc & Hfail & Herror).
  set (m' := _update_metrics metrics success time error) in *.
  cbv zeta. rewrite !filter_cons. split_and!.
  - rewrite Htotal, Htotal'. simpl. lia.
  - rewrite Hsucc, Hsucc'. destruct success; simpl; lia.
  - rewrite Hfail, Hfail'. destruct success; simpl; lia.
  - rewrite Herror, Herror'. destruct success; simpl; [done|].
    by rewrite last_error_cons.
Qed.

(** X9. After any sequence of metric updates from the initial metrics,
    total_requests is the number of updates, successful_requests and
    failed_requests count the updates with and without success, and
    last_error is the error recorded with the most recent failed update
    ([None] when no update failed): a later success does not clear it. *)
Theorem metrics_count_updates
    (updates : list (bool * Qc * option string)) :
  let after := record_all initial_metrics updates in
  let failures := filter (λ u, u.1.1 = false) updates in
  total_requests after = length updates
  ∧ successful_requests after = length (filter (λ u, u.1.1 = true) updates)
  ∧ failed_requests after = length failures
  ∧ last_error after = from_option id None (last (snd <$> failures)).
Proof.
  destruct (record_all_from initial_metrics updates)
    as (Htotal & Hsucc & Hfail & Herror).
  by split_and!.
Qed.

End metrics_facts.

(** ** What a request returns *)

Section process_text_results.
Context `{Runtime}.
Import TextPreprocessor IntentClassifier EntityExtractor LanguageProcessor.

Lemma extract_entities_typed (text : string) entities :
  extract_entities text = inr entities → Forall typed entities.
Proof.
  unfold extract_entities. destruct (decide (text = "")); [done|].
  destruct (transform text) as [|processed]; simpl; [done|].
  destruct (entity_model (tokens processed)) as [|probabilities]; simpl;
    [done|].
  destruct (scan_tokens text 0 _) as [|entities'] eqn:Hscan; simpl; [done|].
  intros [= <-]. apply Forall_forall. intros e Hin.
  destruct (scan_tokens_sound _ _ _ _ Hscan e Hin)
    as (probs & mask & _ & _ & _ & top & k & type & _ & _ & _ & ->).
  by eexists.
Qed.

Lemma process_text_result (st : Processor) (t0 t1 : Qc) (text : string) :
  (process_text st t0 t1 text).2 =
  validated_result ← (process_text_body st text).2;
  mret {| request_id := t0;
          processing_time := (t1 - t0)%Qc;
          r_status := "success";
          validated := validated_result |}.
Proof.
  unfold process_text.
  by destruct (process_text_body st text) as [st' [e|validated_result]].
Qed.

Lemma process_text_state (st : Processor) (t0 t1 : Qc) (text : string) :
  classifier_cache (process_text st t0 t1 text).1
  = classifier_cache (process_text_body st text).1
  ∧ trace (process_text st t0 t1 text).1 = trace (process_text_body st text).1.
Proof.
  unfold process_text.
  by destruct (process_text_body st text) as [st' [e|validated_result]].
Qed.

Lemma process_text_ok (st : Processor) (t0 t1 : Qc) (text : string) :
  is_ok (process_text st t0 t1 text).2 = is_ok (process_text_body st text).2.
Proof.
  rewrite process_text_result. by destruct (process_text_body st text).2.
Qed.

(** The body of the [try] block returns a merged result exactly when no
    check and no collaborator fails. *)
Lemma process_text_body_returns (st : Processor) (text : string) :
  is_ok (process_text_body st text).2 ↔
  text ≠ ""
  ∧ String.length text ≤ MAX_SEQUENCE_LENGTH config
  ∧ is_ok (transform text)
  ∧ is_ok (classify_intent (classifier_cache st) text).2
  ∧ is_ok (extract_entities text).
Proof.
  destruct (decide (text = "")) as [->|Hne].
  { unfold process_text_body. simpl. split; [done|]. by intros [? _]. }
  destruct (decide (MAX_SEQUENCE_LENGTH config < String.length text)) as [Hlong|Hlen].
  { unfold process_text_body.
    destruct (decide (text = "")); [done|].
    destruct (decide (_ < _)); [|done]. simpl. split; [done|].
    intros (_ & ? & _). lia. }
  destruct (transform text) as [e|processed] eqn:Htransform.
  { unfold process_text_body.
    destruct (decide (text = "")); [done|].
    destruct (decide (_ < _)); [done|]. rewrite Htransform. simpl.
    split; [done|]. by intros (_ & _ & ? & _). }
  destruct (process_text_body_dispatched st text processed)
    as (-> & _); [done|lia|done|].
  destruct (classify_intent (classifier_cache st) text).2 as [e|intent_result];
    simpl.
  { split; [done|]. by intros (_ & _ & _ & ? & _). }
  destruct (extract_entities text) as [e|entities_result] eqn:Hextract; simpl.
  { split; [done|]. by intros (_ & _ & _ & _ & ?). }
  destruct (validate_results_typed intent_result entities_result)
    as [validated_result ->]; [by eapply extract_entities_typed|].
  simpl. split; [|done]. intros _. split_and!; [done|lia|done..].
Qed.

(** X10. [process_text] returns a result exactly when the text is not
    empty and within the maximum length, preprocessing succeeds, and both
    the classifier and the extractor return: the merge never fails on
    what the extractor returns, because every entity it builds has its
    type. *)
Theorem process_text_returns_iff (st : Processor) (t0 t1 : Qc) (text : string) :
  is_ok (process_text st t0 t1 text).2 ↔
  text ≠ ""
  ∧ String.length text ≤ MAX_SEQUENCE_LENGTH config
  ∧ is_ok (transform text)
  ∧ is_ok (classify_intent (classifier_cache st) text).2
  ∧ is_ok (extract_entities text).
Proof. rewrite process_text_ok. apply process_text_body_returns. Qed.

(** A result of [process_text] holds the merge of what the classifier
    and the extractor returned. *)
Lemma process_text_merge
    (st : Processor) (t0 t1 : Qc) (text : string) (result : ProcessResult) :
  (process_text st t0 t1 text).2 = inr result →
  ∃ intent_result entities_result,
    (classify_intent (classifier_cache st) text).2 = inr intent_result
    ∧ extract_entities text = inr entities_result
    ∧ _validate_results intent_result entities_result = inr (validated result).
Proof.
  intros Hresult.
  assert (is_ok (process_text_body st text).2) as Hok.
  { rewrite <- (process_text_ok st t0 t1). by rewrite Hresult. }
  apply process_text_body_returns in Hok as (Hne & Hlen & Htransform & _).
  destruct (transform text) as [|processed] eqn:Hprocessed; [done|].
  destruct (process_text_body_dispatched st text processed)
    as (Hbody & _); [done..|].
  rewrite process_text_result, Hbody in Hresult.
  destruct (classify_intent (classifier_cache st) text).2 as [|intent_result];
    [done|].
  destruct (extract_entities text) as [|entities_result]; [done|].
  destruct (_validate_results intent_result entities_result)
    as [|validated_result] eqn:Hmerge; [done|].
  simpl in Hresult. injection Hresult as <-.
  by exists intent_result, entities_result.
Qed.

(** X11. A result of [process_text] has status "success", carries the
    first clock reading as its request id and the difference of the two
    readings as its processing time, and is the merge of what the
    classifier and the extractor returned for the text. The request has
    then called the preprocessor, the classifier and the extractor once
    each, in this order, left the cache as the classifier left it, and
    recorded one success with that processing time. *)
Theorem process_text_success
    (st : Processor) (t0 t1 : Qc) (text : string) (result : ProcessResult) :
  (process_text st t0 t1 text).2 = inr result →
  let st' := (process_text st t0 t1 text).1 in
  r_status result = "success"
  ∧ request_id result = t0
  ∧ processing_time result = (t1 - t0)%Qc
  ∧ (∃ intent_result entities_result,
       (classify_intent (classifier_cache st) text).2 = inr intent_result
       ∧ extract_entities text = inr entities_result
       ∧ _validate_results intent_result entities_result
         = inr (validated result))
  ∧ trace st'
    = trace st ++ [CallTransform text; CallClassifyIntent text;
                   CallExtractEntities text]
  ∧ classifier_cache st' = (classify_intent (classifier_cache st) text).1
  ∧ _performance_metrics st'
    = _update_metrics (_performance_metrics st) true (t1 - t0)%Qc None.
Proof.
  intros Hresult st'.
  assert (is_ok (process_text_body st text).2) as Hok.
  { rewrite <- (process_text_ok st t0 t1). by rewrite Hresult. }
  apply process_text_body_returns in Hok as (Hne & Hlen & Htransform & _).
  destruct (transform text) as [|processed] eqn:Hprocessed; [done|].
  destruct (process_text_body_dispatched st text processed)
    as (Hbody & Hcache & Htrace); [done..|].
  destruct (process_text_state st t0 t1 text) as [Hcache' Htrace'].
  subst st'. rewrite Hcache', Htrace', Hcache, Htrace.
  rewrite process_text_metrics, Hresult.
  rewrite process_text_result, Hbody in Hresult.
  destruct (classify_intent (classifier_cache st) text).2 as [|intent_result];
    [done|].
  destruct (extract_entities text) as [|entities_result]; [done|].
  destruct (_validate_results intent_result entities_result)
    as [|validated_result] eqn:Hmerge; [done|].
  simpl in Hresult. injection Hresult as <-. simpl.
  split_and!; try done. by exists intent_result, entities_result.
Qed.

Lemma validate_results_details intent_result entities_result validated :
  _validate_results intent_result entities_result = inr validated →
  intent_valid (validation_details validated)
  = bool_decide (LanguageProcessor._confidence_threshold
                 ≤ default 0%Qc (confidence intent_result))%Qc
  ∧ (required_entities !! default "unknown" (intent intent_result) = None →
     missing_entities (validation_details validated) = []).
Proof.
  unfold _validate_results, validate_body.
  destruct (required_entities !! default "unknown" (intent intent_result))
    as [required|] eqn:Hrequired; simpl.
  - destruct (mapM type_of entities_result); simpl; [done|].
    by intros [= <-].
  - by intros [= <-].
Qed.

(** X12. In a result of [process_text] (the cache entry for the text, if
    any, being what inference computes), the intent name is "unknown" or
    one of the intent labels; intent_valid is false exactly when the name
    is "unknown", that is when the confidence is below the threshold; and
    an "unknown" intent has no missing entities. *)
Theorem unknown_intent_is_invalid
    (st : Processor) (t0 t1 : Qc) (text : string) (result : ProcessResult) :
  (∀ cached, classifier_cache st !! hash text = Some cached →
             infer text = inr cached) →
  (process_text st t0 t1 text).2 = inr result →
  let merged := validated result in
  (name (v_intent merged) = "unknown" ∨ name (v_intent merged) ∈ INTENT_LABELS)
  ∧ (intent_valid (validation_details merged) = false
     ↔ name (v_intent merged) = "unknown")
  ∧ (intent_valid (validation_details merged) = false
     ↔ (intent_confidence (v_intent merged)
        < LanguageProcessor._confidence_threshold)%Qc)
  ∧ (name (v_intent merged) = "unknown" →
     missing_entities (validation_details merged) = []).
Proof.
  intros Hcache Hresult merged.
  destruct (process_text_merge st t0 t1 text result Hresult)
    as (intent_result & entities_result & Hclassify & _ & Hmerge).
  rewrite classify_intent_infer in Hclassify by done.
  destruct (infer text) as [|r] eqn:Hinfer; simpl in Hclassify; [done|].
  injection Hclassify as ->.
  apply infer_top_of in Hinfer as (top & idx & label & _ & Hlabel & ->).
  destruct (validate_results_inv _ _ _ Hmerge) as (Hintent & _ & _).
  destruct (validate_results_details _ _ _ Hmerge) as (Hvalid & Hmissing).
  subst merged. rewrite Hintent, Hvalid. clear Hintent Hvalid Hmerge.
  assert (label ∈ INTENT_LABELS) as Hin by by eapply list_elem_of_lookup_2.
  assert (label ≠ "unknown") as Hknown.
  { intros ->. vm_compute in Hin.
    repeat (apply elem_of_cons in Hin as [Hin|Hin]; [discriminate|]).
    by apply elem_of_nil in Hin. }
  unfold gated_result, confidence_threshold, LanguageProcessor._confidence_threshold
    in *.
  destruct (decide (top < CONFIDENCE_THRESHOLD config)%Qc) as [Hlow|Hhigh];
    simpl in *.
  - rewrite bool_decide_eq_false_2 by by apply Qclt_not_le.
    split_and!; [by left|done|done|]. intros _. by apply Hmissing.
  - apply Qc_not_lt_iff_le in Hhigh as Hle.
    rewrite bool_decide_eq_true_2 by done.
    split_and!; [by right|done|split; [done|]|done].
    intros Hlt. by apply Qclt_not_le in Hlt.
Qed.

End process_text_results.

Lemma process_text_returns_iff_witness :
  is_ok (LanguageProcessor.process_text (H:=TestDouble.runtime)
           LanguageProcessor.init 0%Qc 1%Qc "caz").2.
Proof.
  apply (process_text_returns_iff (H:=TestDouble.runtime)
           LanguageProcessor.init 0%Qc 1%Qc "caz").
  split_and!; [discriminate|vm_compute; lia|done..].
Defined.

Lemma process_text_success_witness :
  ∃ result,
    (LanguageProcessor.process_text (H:=TestDouble.runtime)
       LanguageProcessor.init 0%Qc 1%Qc "caz").2 = inr result
    ∧ LanguageProcessor.r_status result = "success"
    ∧ LanguageProcessor.request_id result = 0%Qc
    ∧ LanguageProcessor.processing_time result = (1 - 0)%Qc.
Proof.
  eexists. split; [reflexivity|].
  destruct (process_text_success (H:=TestDouble.runtime)
              LanguageProcessor.init 0%Qc 1%Qc "caz" _ eq_refl)
    as (Hstatus & Hid & Htime & _).
  by split_and!.
Defined.

Lemma unknown_intent_is_invalid_witness :
  ∃ result,
    (LanguageProcessor.process_text (H:=TestDouble.runtime)
       LanguageProcessor.init 0%Qc 1%Qc "hello").2 = inr result
    ∧ LanguageProcessor.name
        (LanguageProcessor.v_intent (LanguageProcessor.validated result))
      = "unknown"
    ∧ LanguageProcessor.intent_valid
        (LanguageProcessor.validation_details
           (LanguageProcessor.validated result)) = false
    ∧ LanguageProcessor.missing_entities
        (LanguageProcessor.validation_details
           (LanguageProcessor.validated result)) = [].
Proof.
  eexists. split; [reflexivity|].
  assert (∀ cached,
            LanguageProcessor.classifier_cache LanguageProcessor.init
              !! TestDouble.string_hash "hello" = Some cached →
            IntentClassifier.infer (H:=TestDouble.runtime) "hello" = inr cached)
    as Hcache.
  { intros cached Hlook.
    change (LanguageProcessor.classifier_cache LanguageProcessor.init)
      with (∅ : gmap Z IntentResult) in Hlook.
    by rewrite lookup_empty in Hlook. }
  destruct (unknown_intent_is_invalid (H:=TestDouble.runtime)
              LanguageProcessor.init 0%Qc 1%Qc "hello" _ Hcache eq_refl)
    as (_ & Hinvalid & _ & Hmissing).
  split; [reflexivity|]. split.
  - apply Hinvalid. reflexivity.
  - apply Hmissing. reflexivity.
Defined.

(** ** Failures of the merge and of a batch *)

Section failure_facts.
Context `{Runtime}.
Import TextPreprocessor IntentClassifier EntityExtractor LanguageProcessor.

Lemma mapM_type_of_untyped (entities_result : list Entity) :
  Exists (λ e, e_type e = None) entities_result →
  mapM type_of entities_result = inl (KeyError "type").
Proof.
  induction entities_result as [|e es IH]; intros Hex.
  { by apply Exists_nil in Hex. }
  cbn [mapM]. destruct (e_type e) as [type|] eqn:Htype.
  - assert (type_of e = inr type) as ->
      by (unfold type_of; by rewrite Htype).
    apply Exists_cons in Hex as [Hhead|Htail]; [congruence|].
    by rewrite (IH Htail).
  - assert (type_of e = inl (KeyError "type")) as ->
      by (unfold type_of; by rewrite Htype).
    done.
Qed.

(** X13. An entity dictionary without its 'type' key makes the merge fail
    when the detected intent is a key of the table of required entities:
    the [KeyError] is reported as the [ValueError] "Result validation
    failed: 'type'". For an intent outside the table the types are not
    read and the merge returns. *)
Theorem validate_results_missing_type
    (intent_result : IntentResult) (entities_result : list Entity) :
  Exists (λ e, e_type e = None) entities_result →
  let detected := default "unknown" (intent intent_result) in
  (is_Some (required_entities !! detected) →
   _validate_results intent_result entities_result
   = inl (ValueError "Result validation failed: 'type'"))
  ∧ (required_entities !! detected = None →
     ∃ validated,
       _validate_results intent_result entities_result = inr validated).
Proof.
  intros Huntyped%mapM_type_of_untyped detected. split.
  - intros [required Hrequired].
    unfold _validate_results, validate_body. fold detected.
    by rewrite Hrequired, Huntyped.
  - intros Hnone. eexists. apply validate_results_ok. fold detected.
    by rewrite Hnone.
Qed.

(** X14. With every task of the batch scheduled once, [process_batch]
    raises exactly when the batch is empty or longer than the limit; it
    then raises the [RuntimeError] of its handler (never the [ValueError]
    of the check) and leaves the state of the orchestrator as it was. *)
Theorem process_batch_raises_iff
    (st : Processor) (stamps : nat → Qc * Qc) (order : list nat)
    (texts : list string) :
  order ≡ₚ seq 0 (length texts) →
  ∃ st' outcome,
    process_batch st stamps order texts = Some (st', outcome)
    ∧ (is_ok outcome = false
       ↔ texts = [] ∨ _batch_size_limit < length texts)
    ∧ (∀ e, outcome = inl e →
         st' = st
         ∧ e = RuntimeError
                 ("Batch processing failed: Invalid batch size. Limit: "
                  +:+ pretty _batch_size_limit)).
Proof.
  intros Horder.
  destruct (decide (texts = [] ∨ _batch_size_limit < length texts))
    as [Hinvalid|Hvalid].
  - eexists st, _. unfold process_batch.
    rewrite decide_True by done. split_and!; [done|done|].
    by intros e [= <-].
  - destruct (process_batch_valid stamps texts (λ _, True) (λ _ _ _ _ _, I)
                st order I)
      as (st' & items & -> & _); [tauto|lia|done|].
    exists st', (inr items). split_and!; [done| |done].
    split; [done|]. intros Hinvalid. by destruct Hvalid.
Qed.

End failure_facts.

Lemma validate_results_missing_type_witness :
  LanguageProcessor._validate_results (H:=TestDouble.runtime)
    {| intent := Some "create_agent"; confidence := Some (Q2Qc (97 # 100));
       status := Some "success" |}
    [{| e_type := None; e_confidence := Some (Q2Qc (96 # 100));
        e_position := 0; e_text := "a" |}]
  = inl (ValueError "Result validation failed: 'type'").
Proof.
  apply (validate_results_missing_type (H:=TestDouble.runtime)
           {| intent := Some "create_agent";
              confidence := Some (Q2Qc (97 # 100));
              status := Some "success" |}
           [{| e_type := None; e_confidence := Some (Q2Qc (96 # 100));
               e_position := 0; e_text := "a" |}]).
  - apply Exists_cons_hd. reflexivity.
  - eexists. reflexivity.
Defined.

Lemma process_batch_raises_iff_witness :
  ∃ st' outcome,
    LanguageProcessor.process_batch (H:=TestDouble.runtime)
      LanguageProcessor.init (λ _, (0%Qc, 1%Qc)) [] [] = Some (st', outcome)
    ∧ (is_ok outcome = false
       ↔ ([] : list string) = []
         ∨ LanguageProcessor._batch_size_limit (H:=TestDouble.runtime)
           < length ([] : list string))
    ∧ (∀ e, outcome = inl e →
         st' = LanguageProcessor.init
         ∧ e = RuntimeError
                 ("Batch processing failed: Invalid batch size. Limit: "
                  +:+ pretty (LanguageProcessor._batch_size_limit
                                (H:=TestDouble.runtime)))).
Proof.
  apply (process_batch_raises_iff (H:=TestDouble.runtime)
           LanguageProcessor.init (λ _, (0%Qc, 1%Qc)) [] []).
  reflexivity.
Defined.

(** ** Metrics of a batch *)

Section batch_metrics.
Context `{Runtime}.
Import TextPreprocessor IntentClassifier EntityExtractor LanguageProcessor.

Variable stamps : nat → Qc * Qc.
Variable texts : list string.

Lemma filter_length_Forall2 {A B} (P : A → Prop) (Q : B → Prop)
    `{∀ x, Decision (P x)} `{∀ y, Decision (Q y)} (l : list A) (k : list B) :
  Forall2 (λ x y, P x ↔ Q y) l k →
  length (filter P l) = length (filter Q k).
Proof.
  induction 1 as [|x y l k Hxy _ IH]; [done|].
  rewrite !filter_cons.
  destruct (decide (P x)) as [HP|HP], (decide (Q y)) as [HQ|HQ]; simpl;
    try lia; tauto.
Qed.

Lemma filter_length_cons_bool (f : nat → bool) (x : nat) (l : list nat) :
  length (filter (λ i, f i) (x :: l))
  = (if f x then 1 else 0) + length (filter (λ i, f i) l).
Proof.
  rewrite filter_cons.
  destruct (decide (f x)) as [Hx|Hx]; destruct (f x); simpl in *; done.
Qed.

Lemma run_tasks_fold_other order acc (i : nat) :
  i ∉ order →
  (foldl (run_task stamps texts) acc order).2 !! i = acc.2 !! i.
Proof.
  revert acc. induction order as [|idx order IH]; intros acc Hnotin; [done|].
  apply not_elem_of_cons in Hnotin as [Hne Hnotin]. simpl.
  rewrite IH by done. unfold run_task.
  destruct (texts !! idx) as [text|]; [|done].
  destruct (process_text acc.1 (stamps idx).1 (stamps idx).2 text).
  simpl. by rewrite lookup_insert_ne.
Qed.

(** One task counts once, as a failure or as a success. *)
Lemma run_task_counts acc (idx : nat) (text : string) :
  texts !! idx = Some text →
  let after := run_task stamps texts acc idx in
  ∃ outcome,
    after.2 !! idx = Some outcome
    ∧ total_requests (_performance_metrics after.1)
      = S (total_requests (_performance_metrics acc.1))
    ∧ failed_requests (_performance_metrics after.1)
      = failed_requests (_performance_metrics acc.1)
        + (if outcome is inl _ then 1 else 0)
    ∧ successful_requests (_performance_metrics after.1)
      = successful_requests (_performance_metrics acc.1)
        + (if outcome is inr _ then 1 else 0)
    ∧ ∀ result, outcome = inr result → r_status result = "success".
Proof.
  intros Htext after. subst after. unfold run_task. rewrite Htext.
  pose proof (process_text_metrics acc.1 (stamps idx).1 (stamps idx).2 text)
    as Hmetrics.
  pose proof (process_text_result acc.1 (stamps idx).1 (stamps idx).2 text)
    as Hresult.
  destruct (process_text acc.1 (stamps idx).1 (stamps idx).2 text)
    as [st' outcome].
  simpl in *. exists outcome. rewrite lookup_insert_eq, Hmetrics.
  destruct outcome as [e|result]; simpl; split_and!; try done; try lia.
  intros result' [= <-].
  destruct (process_text_body acc.1 text).2; simpl in Hresult; [done|].
  by injection Hresult as ->.
Qed.

Lemma run_tasks_fold_counts order acc :
  NoDup order →
  (∀ i, i ∈ order → is_Some (texts !! i)) →
  let after := foldl (run_task stamps texts) acc order in
  total_requests (_performance_metrics after.1)
  = total_requests (_performance_metrics acc.1) + length order
  ∧ failed_requests (_performance_metrics after.1)
    = failed_requests (_performance_metrics acc.1)
      + length (filter (λ i, failed_outcome after.2 i) order)
  ∧ successful_requests (_performance_metrics after.1)
    = successful_requests (_performance_metrics acc.1)
      + length (filter (λ i, returned_outcome after.2 i) order)
  ∧ ∀ i result, i ∈ order → after.2 !! i = Some (inr result) →
      r_status result = "success".
Proof.
  intros Hnodup. revert acc.
  induction Hnodup as [|idx order Hnotin _ IH]; intros acc Htexts.
  { simpl. split_and!; [lia..|]. intros i result Hin. by apply elem_of_nil in Hin. }
  destruct (Htexts idx) as [text Htext]; [by left|].
  destruct (run_task_counts acc idx text Htext)
    as (outcome & Houtcome & Htotal & Hfailed & Hsucc & Hstatus).
  destruct (IH (run_task stamps texts acc idx))
    as (Htotal' & Hfailed' & Hsucc' & Hstatus').
  { intros i Hi. apply Htexts. by right. }
  cbn [foldl] in *.
  set (after := foldl (run_task stamps texts) (run_task stamps texts acc idx) order)
    in *.
  assert (after.2 !! idx = Some outcome) as Hkept.
  { subst after. by rewrite run_tasks_fold_other. }
  assert (failed_outcome after.2 idx = (if outcome is inl _ then true else false))
    as Hf by (unfold failed_outcome; rewrite Hkept; by destruct outcome).
  assert (returned_outcome after.2 idx
          = (if outcome is inr _ then true else false))
    as Hr by (unfold returned_outcome; rewrite Hkept; by destruct outcome).
  cbv zeta.
  rewrite (filter_length_cons_bool (failed_outcome after.2)),
    (filter_length_cons_bool (returned_outcome after.2)), Hf, Hr.
  split_and!.
  - rewrite Htotal', Htotal. simpl. lia.
  - rewrite Hfailed', Hfailed. destruct outcome; simpl; lia.
  - rewrite Hsucc', Hsucc. destruct outcome; simpl; lia.
  - intros i result [->|Hin]%elem_of_cons Hi.
    + rewrite Hkept in Hi. injection Hi as ->. by apply Hstatus.
    + by eapply Hstatus'.
Qed.

(** X15. After a valid batch whose tasks each ran once, the metrics have
    counted every item exactly once: total_requests has grown by the
    number of texts, failed_requests by the number of error records in the
    output and successful_requests by the number of its items with status
    "success". *)
Theorem process_batch_counts_items
    (st : Processor) (order : list nat) :
  texts ≠ [] →
  length texts ≤ _batch_size_limit →
  order ≡ₚ seq 0 (length texts) →
  ∃ st' items,
    process_batch st stamps order texts = Some (st', inr items)
    ∧ total_requests (_performance_metrics st')
      = total_requests (_performance_metrics st) + length texts
    ∧ failed_requests (_performance_metrics st')
      = failed_requests (_performance_metrics st)
        + length (filter (λ item, item_status item = "error") items)
    ∧ successful_requests (_performance_metrics st')
      = successful_requests (_performance_metrics st)
        + length (filter (λ item, item_status item = "success") items).
Proof.
  intros Hne Hlimit Horder. unfold process_batch, run_tasks.
  destruct (decide (texts = [] ∨ _batch_size_limit < length texts))
    as [[|]|_]; [done|lia|].
  assert (NoDup order) as Hnodup by (rewrite Horder; apply NoDup_seq).
  assert (∀ i, i ∈ order → is_Some (texts !! i)) as Htexts.
  { intros i Hi. rewrite Horder in Hi. apply elem_of_seq in Hi.
    apply lookup_lt_is_Some_2. lia. }
  pose proof (run_tasks_fold_counts order (st, ∅) Hnodup Htexts)
    as (Htotal & Hfailed & Hsucc & Hstatus).
  pose proof (run_tasks_fold_complete stamps texts order (st, ∅)) as Hcomplete.
  destruct (foldl (run_task stamps texts) (st, ∅) order) as [st' outcomes].
  simpl in *.
  assert (is_Some (gather outcomes (length texts))) as [results Hgather].
  { apply mapM_is_Some_2, Forall_forall. intros idx Hidx. simpl.
    apply Hcomplete. left. split; [by rewrite Horder|].
    apply Htexts. by rewrite Horder. }
  rewrite Hgather. simpl. apply mapM_Some_1 in Hgather.
  assert (Hlen : length results = length texts).
  { apply Forall2_length in Hgather. by rewrite length_seq in Hgather. }
  destruct (collect_results_spec texts 0 results)
    as (items & -> & Hitems & Hlookup); [lia|].
  exists st', items. simpl. split; [done|].
  assert (Forall2 (λ i item,
             ∃ outcome text,
               outcomes !! i = Some outcome
               ∧ item = item_of text outcome
               ∧ ∀ result, outcome = inr result → r_status result = "success")
            (seq 0 (length texts)) items) as Hrel.
  { apply Forall2_same_length_lookup. split; [rewrite length_seq; lia|].
    intros i idx item Hidx Hitem. apply lookup_seq in Hidx as [-> Hi].
    simpl in *.
    destruct (lookup_lt_is_Some_2 results i) as [outcome Houtcome]; [lia|].
    destruct (Hlookup i outcome Houtcome) as (text & _ & Hitem').
    rewrite Hitem in Hitem'. injection Hitem' as ->.
    destruct (Forall2_lookup_r _ _ _ _ _ Hgather Houtcome) as (idx & Hidx & Hout).
    apply lookup_seq in Hidx as [-> _]. simpl in Hout.
    exists outcome, text. split_and!; [done..|].
    intros result ->. apply (Hstatus i); [|done].
    rewrite Horder. apply elem_of_seq. lia. }
  assert (length order = length texts) as Hlength
    by (rewrite Horder; apply length_seq).
  split_and!.
  - lia.
  - rewrite Hfailed. f_equal. rewrite Horder.
    apply filter_length_Forall2.
    eapply Forall2_impl; [done|].
    intros i item (outcome & text & Hout & -> & Hsuccess).
    unfold failed_outcome, Result in *. rewrite Hout.
    destruct outcome as [e|result]; simpl; [done|].
    rewrite (Hsuccess result eq_refl). done.
  - rewrite Hsucc. f_equal. rewrite Horder.
    apply filter_length_Forall2.
    eapply Forall2_impl; [done|].
    intros i item (outcome & text & Hout & -> & Hsuccess).
    unfold returned_outcome, Result in *. rewrite Hout.
    destruct outcome as [e|result]; simpl; [done|].
    rewrite (Hsuccess result eq_refl). done.
Qed.

End batch_metrics.

Lemma process_batch_counts_items_witness :
  let stamps := λ _ : nat, (0%Qc, 1%Qc) in
  let texts := ["ca"; "x"; "caz"] in
  let st := LanguageProcessor.init in
  ∃ st' items,
    LanguageProcessor.process_batch (H:=TestDouble.runtime)
      st stamps [1; 0; 2] texts = Some (st', inr items)
    ∧ LanguageProcessor.total_requests
        (LanguageProcessor._performance_metrics st')
      = LanguageProcessor.total_requests
          (LanguageProcessor._performance_metrics st) + length texts
    ∧ LanguageProcessor.failed_requests
        (LanguageProcessor._performance_metrics st')
      = LanguageProcessor.failed_requests
          (LanguageProcessor._performance_metrics st)
        + length (filter (λ item, LanguageProcessor.item_status item = "error")
                    items)
    ∧ LanguageProcessor.successful_requests
        (LanguageProcessor._performance_metrics st')
      = LanguageProcessor.successful_requests
          (LanguageProcessor._performance_metrics st)
        + length (filter (λ item, LanguageProcessor.item_status item = "success")
                    items).
Proof.
  intros stamps texts st.
  apply (process_batch_counts_items (H:=TestDouble.runtime)
           stamps texts st [1; 0; 2]).
  - discriminate.
  - vm_compute. lia.
  - apply perm_swap.
Defined.

(** ** The batch classifier and the cache *)

Section classifier_batch_facts.
Context `{Runtime}.
Import TextPreprocessor IntentClassifier LanguageProcessor.

(** X16. Whatever the cache holds, what [classify_batch] returns is
    what single-item inference (preprocessing, model, threshold gate)
    gives on each text in order, and every failure of it is the
    [RuntimeError] "Batch classification failed". On texts that the
    tokenizer gives rows of one width (rows of different widths cannot be
    stacked) it returns exactly when inference succeeds on every text of
    the batch. *)
Theorem classify_batch_is_itemwise_inference
    (cache : gmap Z IntentResult) (texts : list string) :
  (∀ results, (classify_batch cache texts).2 = inr results →
              mapM infer texts = inr results)
  ∧ (∀ e, (classify_batch cache texts).2 = inl e →
          e = RuntimeError "Batch classification failed")
  ∧ (stackable texts →
     (classify_batch cache texts).2
     = try_except (mapM infer texts)
         (λ _, RuntimeError "Batch classification failed")).
Proof.
  split_and!.
  - intros results Hbatch. by apply classify_batch_inr, mapM_Result_inr in Hbatch.
  - apply classify_batch_failure.
  - intros Hstackable.
    destruct (mapM infer texts) as [e|results] eqn:Hitems; simpl.
    + destruct (classify_batch cache texts).2 as [e'|results] eqn:Hbatch.
      * by rewrite (classify_batch_failure _ _ _ Hbatch).
      * apply classify_batch_inr, mapM_Result_inr in Hbatch. congruence.
    + by apply classify_batch_spec, mapM_Result_inr.
Qed.

(** X17. When the hash of the cache keys does not collide, the cache of
    the classifier is transparent: in every state the orchestrator can
    reach, a request has the outcome it has on a freshly built
    orchestrator. *)
Theorem process_text_cache_transparent
    (st : Processor) (t0 t1 : Qc) (text : string) :
  Inj (=) (=) hash →
  reachable st →
  (process_text st t0 t1 text).2 = (process_text init t0 t1 text).2.
Proof.
  intros Hinj Hreach. apply process_text_outcome_coherent.
  - by apply reachable_coherent.
  - apply coherent_empty.
Qed.

End classifier_batch_facts.

Lemma classify_batch_is_itemwise_inference_witness :
  let texts := ["create an agent"; "hello, my agent"] in
  (IntentClassifier.classify_batch (H:=TestDouble.runtime) ∅ texts).2
  = try_except (mapM (IntentClassifier.infer (H:=TestDouble.runtime)) texts)
      (λ _, RuntimeError "Batch classification failed").
Proof.
  intros texts.
  apply (classify_batch_is_itemwise_inference (H:=TestDouble.runtime) ∅ texts).
  apply (stackable_width (H:=TestDouble.runtime) 15).
  repeat (apply Forall_cons; split; [by intros row [= <-]|]).
  apply Forall_nil. done.
Defined.

Lemma process_text_cache_transparent_witness :
  let st := (LanguageProcessor.process_text (H:=TestDouble.runtime)
               LanguageProcessor.init 0%Qc 1%Qc "ca").1 in
  (LanguageProcessor.process_text (H:=TestDouble.runtime) st (Q2Qc 2) (Q2Qc 3) "ca").2
  = (LanguageProcessor.process_text (H:=TestDouble.runtime)
       LanguageProcessor.init (Q2Qc 2) (Q2Qc 3) "ca").2.
Proof.
  intros st.
  apply (process_text_cache_transparent (H:=TestDouble.runtime) st (Q2Qc 2) (Q2Qc 3) "ca").
  - exact string_hash_inj.
  - apply reachable_process_text, reachable_init.
Defined.

(** ** Whitespace normalisation *)

Section whitespace_facts.
Import Stdlib.Strings.Ascii Whitespace.

Lemma isspace_space : isspace " " = true.
Proof. reflexivity. Qed.

Lemma lstrip_sub_spaces (in_run : bool) (text : string) :
  lstrip (sub_spaces in_run text) = sub_spaces false (lstrip text).
Proof.
  revert in_run. induction text as [|c rest IH]; intros in_run; [done|].
  cbn [sub_spaces lstrip]. destruct (isspace c) eqn:Hc.
  - destruct in_run; [apply IH|]. cbn [lstrip]. rewrite isspace_space. apply IH.
  - cbn [lstrip sub_spaces]. by rewrite Hc.
Qed.

Lemma lstrip_head (text : string) :
  lstrip text = ""
  ∨ ∃ c rest, lstrip text = String c rest ∧ isspace c = false.
Proof.
  induction text as [|c rest IH]; [by left|].
  cbn [lstrip]. destruct (isspace c) eqn:Hc; [done|]. right. by exists c, rest.
Qed.

Lemma single_spaced_space (rest : string) :
  single_spaced false (String " " rest) = single_spaced true rest.
Proof.
  cbn [single_spaced]. by rewrite isspace_space, bool_decide_eq_true_2.
Qed.

Lemma single_spaced_head (in_run : bool) (c : ascii) (rest : string) :
  isspace c = false →
  single_spaced in_run (String c rest) = single_spaced false rest.
Proof. intros Hc. cbn [single_spaced]. by rewrite Hc. Qed.

Lemma rstrip_sub_spaces (in_run : bool) (text : string) :
  rstrip (sub_spaces in_run text) = ""
  ∨ single_spaced in_run (rstrip (sub_spaces in_run text)) = true.
Proof.
  revert in_run. induction text as [|c rest IH]; intros in_run; [by left|].
  cbn [sub_spaces]. destruct (isspace c) eqn:Hc.
  - destruct in_run; [apply IH|]. cbn [rstrip].
    destruct (IH true) as [->|Hrest]; [by left|].
    destruct (rstrip (sub_spaces true rest)) as [|d stripped] eqn:Hstripped;
      [by left|].
    right. by rewrite single_spaced_space.
  - cbn [rstrip]. right.
    destruct (IH false) as [->|Hrest].
    + rewrite Hc. by rewrite single_spaced_head.
    + destruct (rstrip (sub_spaces false rest)) as [|d stripped] eqn:Hstripped.
      * rewrite Hc. by rewrite single_spaced_head.
      * by rewrite single_spaced_head.
Qed.

Lemma rstrip_head (c : ascii) (rest : string) :
  isspace c = false → ∃ stripped, rstrip (String c rest) = String c stripped.
Proof.
  intros Hc. cbn [rstrip]. destruct (rstrip rest) as [|d stripped].
  - rewrite Hc. by eexists.
  - by eexists.
Qed.

(** The result of [normalize_whitespace] is empty, or begins with a
    character other than whitespace and is single spaced. *)
Lemma normalize_whitespace_single_spaced (text : string) :
  normalize_whitespace text = ""
  ∨ single_spaced true (normalize_whitespace text) = true.
Proof.
  unfold normalize_whitespace. destruct (decide (strip text = "")); [by left|].
  cbv zeta. unfold strip. rewrite lstrip_sub_spaces.
  destruct (lstrip_head text) as [->|(c & rest & -> & Hc)]; [by left|].
  destruct (rstrip_sub_spaces false (String c rest)) as [Hempty|Hspaced];
    [by left|].
  right. cbn [sub_spaces] in *. rewrite Hc in *.
  destruct (rstrip_head c (sub_spaces false rest) Hc) as [stripped Hstripped].
  rewrite Hstripped in *.
  by rewrite single_spaced_head in * by done.
Qed.

Lemma single_spaced_get (after_space : bool) (text : string) (i : nat)
    (c : ascii) :
  single_spaced after_space text = true →
  String.get i text = Some c → isspace c = true →
  c = " "%char
  ∧ (i = 0 → after_space = false)
  ∧ (∀ j, i = S j → ∃ a, String.get j text = Some a ∧ isspace a = false)
  ∧ ∃ d, String.get (S i) text = Some d ∧ isspace d = false.
Proof.
  revert after_space i. induction text as [|e rest IH]; intros after_space i;
    [done|].
  cbn [single_spaced]. destruct i as [|i].
  - cbn [String.get]. intros Hspaced [= ->] Hc. rewrite Hc in Hspaced.
    apply andb_prop in Hspaced as [[Hafter Hchar]%andb_prop Hrest].
    apply bool_decide_eq_true in Hchar as ->.
    split_and!; [done|by destruct after_space|done|].
    destruct rest as [|d rest']; [done|]. exists d. split; [done|].
    cbn [single_spaced] in Hrest. by destruct (isspace d).
  - change (String.get (S i) (String e rest)) with (String.get i rest).
    intros Hspaced Hget Hc.
    assert (∃ b, single_spaced b rest = true
                 ∧ (b = false → isspace e = false)) as (b & Hrest & Hb).
    { destruct (isspace e) eqn:He.
      - apply andb_prop in Hspaced as [_ Hrest]. by exists true.
      - by exists false. }
    destruct (IH b i Hrest Hget Hc) as (-> & Hfirst & Hprev & Hnext).
    split_and!; [done|done| |].
    + intros j [= <-]. destruct i as [|i'].
      * exists e. split; [done|]. by apply Hb, Hfirst.
      * destruct (Hprev i' eq_refl) as (a & Ha & Hspace). by exists a.
    + done.
Qed.

(** X18. In the text returned by [normalize_whitespace] every whitespace
    character is a space that stands between two characters other than
    whitespace: no whitespace at either end, no run of two, and no tab or
    line break left. *)
Theorem normalize_whitespace_normal_form (text : string) (i : nat) (c : ascii) :
  String.get i (normalize_whitespace text) = Some c → isspace c = true →
  c = " "%char
  ∧ ∃ j a d,
      i = S j
      ∧ String.get j (normalize_whitespace text) = Some a ∧ isspace a = false
      ∧ String.get (S i) (normalize_whitespace text) = Some d
      ∧ isspace d = false.
Proof.
  intros Hget Hc.
  destruct (normalize_whitespace_single_spaced text) as [Hempty|Hspaced].
  { by rewrite Hempty in Hget. }
  destruct (single_spaced_get true _ i c Hspaced Hget Hc)
    as (-> & Hfirst & Hprev & d & Hd & Hspace).
  split; [done|]. destruct i as [|j]; [by specialize (Hfirst eq_refl)|].
  destruct (Hprev j eq_refl) as (a & Ha & Hspace').
  by exists j, a, d.
Qed.

Lemma visible_String (c : ascii) (rest : string) :
  visible (String c rest)
  = if isspace c then visible rest else c :: visible rest.
Proof.
  unfold visible. cbn [String.list_ascii_of_string]. rewrite filter_cons.
  destruct (isspace c); by simplify_option_eq.
Qed.

Lemma visible_lstrip (text : string) : visible (lstrip text) = visible text.
Proof.
  induction text as [|c rest IH]; [done|].
  cbn [lstrip]. destruct (isspace c) eqn:Hc; [|done].
  by rewrite visible_String, Hc.
Qed.

Lemma visible_rstrip (text : string) : visible (rstrip text) = visible text.
Proof.
  induction text as [|c rest IH]; [done|].
  cbn [rstrip]. rewrite (visible_String c rest), <- IH.
  destruct (rstrip rest) as [|d stripped].
  - destruct (isspace c) eqn:Hc; [done|]. by rewrite visible_String, Hc.
  - by rewrite visible_String.
Qed.

Lemma visible_sub_spaces (in_run : bool) (text : string) :
  visible (sub_spaces in_run text) = visible text.
Proof.
  revert in_run. induction text as [|c rest IH]; intros in_run; [done|].
  cbn [sub_spaces]. rewrite (visible_String c rest).
  destruct (isspace c) eqn:Hc.
  - destruct in_run; [apply IH|]. rewrite visible_String, isspace_space. apply IH.
  - by rewrite visible_String, Hc, IH.
Qed.

Lemma visible_strip (text : string) : visible (strip text) = visible text.
Proof. unfold strip. by rewrite visible_rstrip, visible_lstrip. Qed.

Lemma lstrip_visible_nil (text : string) : visible text = [] → lstrip text = "".
Proof.
  induction text as [|c rest IH]; [done|].
  rewrite visible_String. cbn [lstrip]. by destruct (isspace c).
Qed.

(** X19. [normalize_whitespace] only touches whitespace: the characters
    other than whitespace of its result are those of the text, in the same
    order; and its result is empty exactly when the text has no such
    character. *)
Theorem normalize_whitespace_keeps_visible (text : string) :
  visible (normalize_whitespace text) = visible text
  ∧ (normalize_whitespace text = "" ↔ visible text = []).
Proof.
  assert (visible (normalize_whitespace text) = visible text) as Hvisible.
  { unfold normalize_whitespace.
    destruct (decide (strip text = "")) as [Hblank|_].
    - by rewrite <- (visible_strip text), Hblank.
    - cbv zeta. by rewrite visible_strip, visible_sub_spaces. }
  split; [done|]. split.
  - intros Hempty. by rewrite <- Hvisible, Hempty.
  - intros Hnone. unfold normalize_whitespace.
    rewrite decide_True; [done|].
    unfold strip. by rewrite lstrip_visible_nil.
Qed.

Lemma single_spaced_weaken (text : string) :
  single_spaced true text = true → single_spaced false text = true.
Proof.
  destruct text as [|c rest]; [done|]. cbn [single_spaced].
  by destruct (isspace c).
Qed.

Lemma single_spaced_sub_spaces (in_run : bool) (text : string) :
  single_spaced in_run text = true → sub_spaces in_run text = text.
Proof.
  revert in_run. induction text as [|c rest IH]; intros in_run; [done|].
  cbn [single_spaced sub_spaces]. destruct (isspace c).
  - intros [[Hrun Hchar]%andb_prop Hrest]%andb_prop.
    apply bool_decide_eq_true in Hchar as ->.
    destruct in_run; [done|]. by rewrite IH.
  - intros Hrest. by rewrite IH.
Qed.

Lemma single_spaced_rstrip (after_space : bool) (text : string) :
  single_spaced after_space text = true → rstrip text = text.
Proof.
  revert after_space. induction text as [|c rest IH]; intros after_space;
    [done|].
  cbn [single_spaced rstrip]. destruct (isspace c).
  - intros [_ Hrest]%andb_prop. rewrite (IH true Hrest).
    by destruct rest.
  - intros Hrest. rewrite (IH false Hrest). by destruct rest.
Qed.

Lemma single_spaced_lstrip (text : string) :
  single_spaced true text = true → lstrip text = text.
Proof.
  destruct text as [|c rest]; [done|]. cbn [single_spaced lstrip].
  by destruct (isspace c).
Qed.

(** X20. [normalize_whitespace] is idempotent: a text it has returned is
    returned unchanged. *)
Theorem normalize_whitespace_idempotent (text : string) :
  normalize_whitespace (normalize_whitespace text) = normalize_whitespace text.
Proof.
  destruct (normalize_whitespace_single_spaced text) as [->|Hspaced]; [done|].
  set (normal := normalize_whitespace text) in *. clearbody normal.
  assert (strip normal = normal) as Hstrip.
  { unfold strip. rewrite single_spaced_lstrip by done.
    by eapply single_spaced_rstrip. }
  unfold normalize_whitespace. rewrite Hstrip.
  destruct (decide (normal = "")) as [->|_]; [done|].
  cbv zeta.
  rewrite (single_spaced_sub_spaces false) by by apply single_spaced_weaken.
  done.
Qed.

End whitespace_facts.

Lemma normalize_whitespace_normal_form_witness :
  Ascii.Space = Ascii.Space
  ∧ ∃ j a d,
      1 = S j
      ∧ String.get j (Whitespace.normalize_whitespace " a   b ") = Some a
      ∧ Whitespace.isspace a = false
      ∧ String.get 2 (Whitespace.normalize_whitespace " a   b ") = Some d
      ∧ Whitespace.isspace d = false.
Proof.
  apply (normalize_whitespace_normal_form " a   b " 1 Ascii.Space).
  - reflexivity.
  - reflexivity.
Defined.

(** ** The REST handlers *)

Section handler_facts.
Context `{Runtime} `{Main.Framework}.
Import Whitespace LanguageProcessor.

(** X21. [POST /process] counts every call in [REQUEST_COUNT] and every
    failed call in [ERROR_COUNT]. Whatever fails is answered with status
    500 and the error code PROCESSING_ERROR: the status 400 of the
    handler's own check of a blank text never leaves the handler, and a
    blank text fails without reaching the orchestrator. A response carries
    the result the orchestrator returned for the text. *)
Theorem process_endpoint_outcome
    (sv : Main.Service) (t0 t1 : Qc) (request : Main.ProcessTextRequest) :
  let after := Main.process_text sv t0 t1 request in
  Main.REQUEST_COUNT after.1 = S (Main.REQUEST_COUNT sv)
  ∧ match after.2 with
    | inl exc =>
        Main.status_code exc = 500
        ∧ Main.ERROR_COUNT after.1 = S (Main.ERROR_COUNT sv)
        ∧ ∃ message,
            Main.detail exc
            = Main.ErrorDetail
                {| Main.error_code := "PROCESSING_ERROR";
                   Main.message := message;
                   Main.error_request_id :=
                     Main.or_else (Main.request_id request) "default" |}
    | inr response =>
        Main.ERROR_COUNT after.1 = Main.ERROR_COUNT sv
        ∧ strip (Main.text request) ≠ ""
        ∧ ∃ r,
            (process_text (Main.language_processor sv) t0 t1
               (Main.text request)).2 = inr r
            ∧ Main.result response = ItemResult r
            ∧ Main.confidence_score response = overall_confidence (validated r)
    end
  ∧ (strip (Main.text request) = "" →
     Main.language_processor after.1 = Main.language_processor sv
     ∧ ∃ exc, after.2 = inl exc).
Proof.
  unfold Main.process_text.
  destruct (decide (strip (Main.text request) = "")) as [Hblank|Hvisible].
  { simpl. split_and!; try done; [by eexists|]. intros _. split; [done|by eexists]. }
  destruct (process_text (Main.language_processor sv) t0 t1 (Main.text request))
    as [processor [e|r]]; simpl.
  - split_and!; try done. by eexists.
  - split_and!; try done. by exists r.
Qed.

(** X22. With every task of the batch scheduled once, [POST
    /process/batch] fails exactly when the batch is empty or longer than
    the limit; it then answers with status 500 and the error code
    BATCH_PROCESSING_ERROR (the status 400 of its own check never leaves
    the handler), counts the failure, and leaves the orchestrator as it
    was. *)
Theorem batch_endpoint_fails_iff
    (sv : Main.Service) (stamps : nat → Qc * Qc) (order : list nat)
    (request : Main.ProcessBatchRequest) :
  order ≡ₚ seq 0 (length (Main.texts request)) →
  ∃ sv' outcome,
    Main.process_batch sv stamps order request = Some (sv', outcome)
    ∧ Main.REQUEST_COUNT sv' = S (Main.REQUEST_COUNT sv)
    ∧ ((∃ exc, outcome = inl exc)
       ↔ Main.texts request = []
         ∨ _batch_size_limit < length (Main.texts request))
    ∧ ∀ exc, outcome = inl exc →
        Main.status_code exc = 500
        ∧ Main.language_processor sv' = Main.language_processor sv
        ∧ Main.ERROR_COUNT sv' = S (Main.ERROR_COUNT sv)
        ∧ ∃ message,
            Main.detail exc
            = Main.ErrorDetail
                {| Main.error_code := "BATCH_PROCESSING_ERROR";
                   Main.message := message;
                   Main.error_request_id :=
                     Main.or_else (Main.batch_request_id request) "default" |}.
Proof.
  intros Horder. unfold Main.process_batch.
  change (Settings.BATCH_SIZE config) with _batch_size_limit.
  destruct (decide (_batch_size_limit < length (Main.texts request)))
    as [Hlong|Hwithin].
  { simpl. eexists _, _. split; [done|]. split; [done|]. split.
    - split; [by right|by eexists].
    - intros exc [= <-]. simpl. split_and!; try done. by eexists. }
  destruct (decide (Main.texts request = [])) as [Hempty|Hne].
  { unfold process_batch. rewrite decide_True by by left. simpl.
    eexists _, _. split; [done|]. split; [done|]. split.
    - split; [by left|by eexists].
    - intros exc [= <-]. simpl. split_and!; try done. by eexists. }
  destruct (process_batch_valid stamps (Main.texts request) (λ _, True)
              (λ _ _ _ _ _, I) (Main.language_processor sv) order I)
    as (st' & items & -> & _); [done|lia|done|].
  simpl. eexists _, _. split; [done|]. split; [done|]. split; [|done].
  split; [by intros [exc [=]]|]. intros [|]; [done|lia].
Qed.

Lemma responses_of_lookup (request : Main.ProcessBatchRequest)
    (results : list BatchItem) (i : nat) (response : Main.ProcessResponse) :
  Main.responses_of request results !! i = Some response →
  ∃ item,
    results !! i = Some item
    ∧ response
      = {| Main.result := item;
           Main.confidence_score := Main.get_overall_confidence item;
           Main.processing_time := Main.get_processing_time item;
           Main.model_version := "1.0.0";
           Main.response_request_id :=
             Main.or_else (Main.batch_request_id request)
               ("batch_" +:+ pretty i) |}.
Proof.
  unfold Main.responses_of. rewrite list_lookup_imap.
  destruct (results !! i) as [item|]; [|done]. simpl.
  intros [= <-]. by exists item.
Qed.

(** X23. When [POST /process/batch] returns, it has counted no error and
    answers one response for each text, in the order of the texts:
    response [i] carries the request id of the request, or [batch_i] when
    the request has none, and the item of [texts[i]], which is what
    [process_text] returned for that text in some state of the
    orchestrator, or the error record of its exception with the text
    beside it; an error record is answered with confidence score 0 and
    processing time 0. *)
Theorem batch_endpoint_responses
    (sv sv' : Main.Service) (stamps : nat → Qc * Qc) (order : list nat)
    (request : Main.ProcessBatchRequest)
    (responses : list Main.ProcessResponse) :
  order ≡ₚ seq 0 (length (Main.texts request)) →
  Main.process_batch sv stamps order request = Some (sv', inr responses) →
  Main.ERROR_COUNT sv' = Main.ERROR_COUNT sv
  ∧ length responses = length (Main.texts request)
  ∧ ∀ i text, Main.texts request !! i = Some text →
      ∃ response s,
        responses !! i = Some response
        ∧ Main.result response
          = item_of text (process_text s (stamps i).1 (stamps i).2 text).2
        ∧ Main.response_request_id response
          = Main.or_else (Main.batch_request_id request) ("batch_" +:+ pretty i)
        ∧ (item_status (Main.result response) = "error" →
           Main.confidence_score response = 0%Qc
           ∧ Main.processing_time response = 0%Qc).
Proof.
  intros Horder. unfold Main.process_batch.
  change (Settings.BATCH_SIZE config) with _batch_size_limit.
  destruct (decide (_batch_size_limit < length (Main.texts request)))
    as [Hlong|Hwithin]; [done|].
  destruct (decide (Main.texts request = [])) as [Hempty|Hne].
  { unfold process_batch. by rewrite decide_True by by left. }
  destruct (process_batch_valid stamps (Main.texts request) (λ _, True)
              (λ _ _ _ _ _, I) (Main.language_processor sv) order I)
    as (st' & items & -> & Hlength & Hitems); [done|lia|done|].
  simpl. intros [= <- <-]. simpl. split_and!; [done| |].
  { unfold Main.responses_of. by rewrite length_imap. }
  intros i text Htext.
  destruct (Hitems i text Htext) as (s & _ & Hitem).
  eexists _, s. split_and!.
  - unfold Main.responses_of. rewrite list_lookup_imap, Hitem. done.
  - done.
  - done.
  - simpl. destruct (process_text s (stamps i).1 (stamps i).2 text).2
      as [e|r] eqn:Houtcome; simpl; [done|].
    intros Hstatus.
    pose proof (process_text_result s (stamps i).1 (stamps i).2 text) as Hresult.
    rewrite Houtcome in Hresult.
    destruct (process_text_body s text).2; simpl in Hresult; [done|].
    injection Hresult as ->. done.
Qed.

(** X24. [GET /health] is a request of its own to the orchestrator: it
    is counted in the orchestrator's metrics as a request on the text
    "test", and not in [REQUEST_COUNT] or [ERROR_COUNT]. The service is
    reported healthy exactly when that request returns and the read of
    the latency histogram does not raise; otherwise the answer has status
    503 with the text of the exception. With a client whose histogram
    lacks one of the attributes read, every call is answered 503, and
    still counted by the orchestrator. *)
Theorem health_check_outcome
    (sv : Main.Service) (t0 t1 : Qc) (latency : string + Qc) :
  let probe := process_text (Main.language_processor sv) t0 t1 "test" in
  let after := Main.health_check sv t0 t1 latency in
  Main.language_processor after.1 = probe.1
  ∧ total_requests (_performance_metrics (Main.language_processor after.1))
    = S (total_requests (_performance_metrics (Main.language_processor sv)))
  ∧ Main.REQUEST_COUNT after.1 = Main.REQUEST_COUNT sv
  ∧ Main.ERROR_COUNT after.1 = Main.ERROR_COUNT sv
  ∧ match probe.2, latency with
    | inr _, inr average =>
        after.2 = inr {| Main.requests_total := Main.REQUEST_COUNT sv;
                         Main.errors_total := Main.ERROR_COUNT sv;
                         Main.average_latency := average |}
    | inr _, inl error =>
        after.2 = inl {| Main.status_code := 503;
                         Main.detail := Main.UnhealthyDetail error |}
    | inl e, _ =>
        after.2 = inl {| Main.status_code := 503;
                         Main.detail := Main.UnhealthyDetail (str e) |}
    end
  ∧ (∀ error, latency = inl error →
       ∃ exc, after.2 = inl exc ∧ Main.status_code exc = 503).
Proof.
  unfold Main.health_check.
  pose proof (process_text_metrics (Main.language_processor sv) t0 t1 "test")
    as Hmetrics.
  destruct (process_text (Main.language_processor sv) t0 t1 "test")
    as [processor [e|r]], latency as [error|average]; simpl in *;
    rewrite Hmetrics; split_and!; try done; intros error' _; by eexists.
Qed.

End handler_facts.

(** The probe returns on the test double, and the handler answers 503
    when the histogram has no [_count]. *)
Example health_check_without_count :
  let sv := {| Main.language_processor := LanguageProcessor.init;
               Main.REQUEST_COUNT := 0; Main.ERROR_COUNT := 0 |} in
  let error := "'Histogram' object has no attribute '_count'" in
  is_ok (LanguageProcessor.process_text (H:=TestDouble.runtime)
           LanguageProcessor.init 0%Qc 1%Qc "test").2 = true
  ∧ (Main.health_check (H:=TestDouble.runtime) sv 0%Qc 1%Qc (inl error)).2
    = inl {| Main.status_code := 503;
             Main.detail := Main.UnhealthyDetail error |}.
Proof. split; reflexivity. Qed.

Lemma process_endpoint_outcome_witness :
  let sv := {| Main.language_processor := LanguageProcessor.init;
               Main.REQUEST_COUNT := 0; Main.ERROR_COUNT := 0 |} in
  let request := {| Main.text := "   "; Main.request_id := None |} in
  let after := Main.process_text (H:=TestDouble.runtime)
                 (H0:=TestFramework.framework) sv 0%Qc 1%Qc request in
  Main.language_processor after.1 = LanguageProcessor.init
  ∧ ∃ exc, after.2 = inl exc ∧ Main.status_code exc = 500.
Proof.
  intros sv request after.
  destruct (process_endpoint_outcome (H:=TestDouble.runtime)
              (H0:=TestFramework.framework) sv 0%Qc 1%Qc request)
    as (_ & _ & Hblank).
  destruct (Hblank eq_refl) as (Hprocessor & exc & Hexc).
  split; [exact Hprocessor|]. exists exc. split; [exact Hexc|].
  subst after. vm_compute in Hexc. injection Hexc as <-. reflexivity.
Defined.

Lemma batch_endpoint_fails_iff_witness :
  let sv := {| Main.language_processor := LanguageProcessor.init;
               Main.REQUEST_COUNT := 0; Main.ERROR_COUNT := 0 |} in
  let request := {| Main.texts := []; Main.batch_request_id := None |} in
  ∃ sv' outcome,
    Main.process_batch (H:=TestDouble.runtime) (H0:=TestFramework.framework)
      sv (λ _, (0%Qc, 1%Qc)) [] request = Some (sv', outcome)
    ∧ Main.REQUEST_COUNT sv' = 1
    ∧ ((∃ exc, outcome = inl exc)
       ↔ Main.texts request = []
         ∨ LanguageProcessor._batch_size_limit (H:=TestDouble.runtime)
           < length (Main.texts request))
    ∧ ∀ exc, outcome = inl exc →
        Main.status_code exc = 500
        ∧ Main.language_processor sv' = Main.language_processor sv
        ∧ Main.ERROR_COUNT sv' = 1
        ∧ ∃ message,
            Main.detail exc
            = Main.ErrorDetail
                {| Main.error_code := "BATCH_PROCESSING_ERROR";
                   Main.message := message;
                   Main.error_request_id :=
                     Main.or_else (Main.batch_request_id request) "default" |}.
Proof.
  intros sv request.
  apply (batch_endpoint_fails_iff (H:=TestDouble.runtime)
           (H0:=TestFramework.framework) sv (λ _, (0%Qc, 1%Qc)) [] request).
  reflexivity.
Defined.

Lemma batch_endpoint_responses_witness :
  let sv := {| Main.language_processor := LanguageProcessor.init;
               Main.REQUEST_COUNT := 0; Main.ERROR_COUNT := 0 |} in
  let stamps := λ _ : nat, (0%Qc, 1%Qc) in
  let request := {| Main.texts := ["ca"; "x"; "caz"];
                    Main.batch_request_id := None |} in
  ∃ sv' responses,
    Main.process_batch (H:=TestDouble.runtime) (H0:=TestFramework.framework)
      sv stamps [1; 0; 2] request = Some (sv', inr responses)
    ∧ Main.ERROR_COUNT sv' = Main.ERROR_COUNT sv
    ∧ length responses = length (Main.texts request)
    ∧ ∀ i text, Main.texts request !! i = Some text →
        ∃ response s,
          responses !! i = Some response
          ∧ Main.result response
            = item_of text
                (LanguageProcessor.process_text (H:=TestDouble.runtime)
                   s (stamps i).1 (stamps i).2 text).2
          ∧ Main.response_request_id response
            = Main.or_else (Main.batch_request_id request)
                ("batch_" +:+ pretty i)
          ∧ (LanguageProcessor.item_status (Main.result response) = "error" →
             Main.confidence_score response = 0%Qc
             ∧ Main.processing_time response = 0%Qc).
Proof.
  intros sv stamps request.
  eexists _, _. split; [vm_compute; reflexivity|].
  apply (batch_endpoint_responses (H:=TestDouble.runtime)
           (H0:=TestFramework.framework) sv _ stamps [1; 0; 2] request).
  - apply perm_swap.
  - vm_compute. reflexivity.
Defined.
